(** * disksize: the read/write size test of a raw block device

    A shallow embedding of [src/disksize.c]: the checked device
    transactions [checkedread] and [checkedwrite], the probe transaction
    [readbacktest], the two loops at the end of [main] that choose the
    probe addresses, and what [main] does before them: the checks of the
    caller and of the device, the look at the partitioning with
    [partitions], the reading of [/proc/mounts], the two questions of
    [confirm], and [human].

    What is modelled and how:
    - C integers are [Z]; every conversion between [off_t] (signed 64 bit),
      [size_t] / [unsigned long long] (unsigned 64 bit) and [int] is written
      out with the wrap-around functions of module [CInt];
    - the device is an arbitrary state machine answering the six system
      calls the program issues (record [device]); every call and its answer
      is appended to a log, so that statements about "which address is
      written" are statements about the log;
    - [exit] is an outcome of the computation ([Exit status site]), a
      division by zero and a read outside an array are [Fault], and the
      loops of [main] take fuel;
    - the four local arrays of [readbacktest] are not initialised by the
      program, so their initial contents are an input (record [frame]);
    - text written to standard output is not modelled; the place of every
      [exit] is kept instead (type [exit_site]), [partitions] yields the
      pairs it prints and [human] the arguments of its [snprintf];
    - what the system answers to [main] apart from the transactions with
      the device is an input (record [environment]);
    - an array is a list; with a block size above [MAXBLOCKSIZE] the
      transfers of [readbacktest] overrun its arrays, which the model does
      not follow: the statements about the size test are meant for block
      sizes up to [MAXBLOCKSIZE]. *)

From Stdlib Require Import ZArith Lia List Bool.
From Stdlib Require String Ascii.
From stdpp Require Import base numbers list.
Import String.StringSyntax.

Local Open Scope Z_scope.

(** ** Constants of the program *)

Definition MINBLOCKSIZE : Z := 512.
Definition MAXBLOCKSIZE : Z := 4096.
(** [1024*1024], the literal of lines 436 and 447. *)
Definition MiB : Z := 1024 * 1024.

(** ** C integer conversions *)

Module CInt.
(** Conversion to [unsigned long long] / [size_t]. *)
Definition u64 (x : Z) : Z := x mod 2 ^ 64.
(** Conversion to [off_t] (two's complement). *)
Definition s64 (x : Z) : Z := (x + 2 ^ 63) mod 2 ^ 64 - 2 ^ 63.
(** Conversion to [int]. *)
Definition s32 (x : Z) : Z := (x + 2 ^ 31) mod 2 ^ 32 - 2 ^ 31.
(** Conversion to [unsigned char]. *)
Definition uchar (x : Z) : Z := x mod 256.
End CInt.
Import CInt.

(** Values of [errno] tested after a failed [open]. *)
Definition EPERM : Z := 1.
Definition ENOENT : Z := 2.
Definition ENXIO : Z := 6.
Definition EACCES : Z := 13.
Definition ENODEV : Z := 19.
Definition ENOMEDIUM : Z := 123.

(** ** Outcomes *)

(** The [exit] calls of the modelled functions, by the message printed
    before them; [ProbeFailed] is the silent [exit(-1)] of line 247 and
    [Finished] the [exit(0)] of line 453. *)
Inductive exit_site : Set :=
| NoDevice | DoesNotExist | NotAllowed | OpenError
| SeekFailed | SeekElsewhere
| ReadFailed | ShortRead | WriteFailed | ShortWrite
| FsyncError | CloseError
| ProbeFailed | Finished.

Inductive result (A : Type) : Type :=
| Ret (a : A)
| Exit (status : Z) (site : exit_site)
| Fault
| OutOfFuel.
Arguments Ret {A} a.
Arguments Exit {A} status site.
Arguments Fault {A}.
Arguments OutOfFuel {A}.

(** The status a parent process sees: the low eight bits of the argument
    of [exit]. *)
Definition exit_status (status : Z) : Z := Z.land status 255.

(** ** The device and the log of system calls *)

Inductive event : Type :=
| EvOpen (fd errno : Z)
| EvSeek (address n : Z)
| EvRead (address size : Z) (got : option (list Z))
| EvWrite (address size : Z) (data : list Z) (nn : Z)
| EvFsync (r : Z)
| EvClose (r : Z).

(** The answers of the operating system and the device behind it.  A read
    answers [None] for a negative return value and [Some bytes] when
    [length bytes] bytes were transferred into the buffer. *)
Record device (D : Type) : Type := {
  sys_open : D -> Z * Z * D;
  sys_lseek : Z -> Z -> D -> Z * D;
  sys_read : Z -> Z -> D -> option (list Z) * D;
  sys_write : Z -> list Z -> D -> Z * D;
  sys_fsync : Z -> D -> Z * D;
  sys_close : Z -> D -> Z * D
}.
Arguments sys_open {D} _ _.
Arguments sys_lseek {D} _ _ _ _.
Arguments sys_read {D} _ _ _ _.
Arguments sys_write {D} _ _ _ _.
Arguments sys_fsync {D} _ _ _.
Arguments sys_close {D} _ _ _.

(** The state threaded through the program: the device and the log, most
    recent call first. *)
Record world (D : Type) : Type := World { dev : D; log : list event }.
Arguments World {D} dev log.
Arguments dev {D} w.
Arguments log {D} w.

(** The calls in the order they were made. *)
Definition history {D} (w : world D) : list event := rev (log w).

(** ** The monad of the program: state and early exit *)

Definition M (S A : Type) : Type := S -> result A * S.

Definition ret {S A} (a : A) : M S A := fun s => (Ret a, s).

Definition bind {S A B} (m : M S A) (f : A -> M S B) : M S B :=
  fun s =>
    match m s with
    | (Ret a, s') => f a s'
    | (Exit status site, s') => (Exit status site, s')
    | (Fault, s') => (Fault, s')
    | (OutOfFuel, s') => (OutOfFuel, s')
    end.

Definition exit {S A} (status : Z) (site : exit_site) : M S A :=
  fun s => (Exit status site, s).

Definition fault {S A} : M S A := fun s => (Fault, s).

Definition out_of_fuel {S A} : M S A := fun s => (OutOfFuel, s).

Declare Scope prog_scope.
Delimit Scope prog_scope with prog.
Notation "x <- m ;; k" := (bind m (fun x => k))
  (at level 100, m at next level, right associativity) : prog_scope.
Notation "m ;;; k" := (bind m (fun _ => k))
  (at level 100, right associativity) : prog_scope.

(** ** Arrays *)

(** A buffer after a system call stored [data] at its start. *)
Definition stored (data buf : list Z) : list Z :=
  data ++ drop (length data) buf.

(** [buf[n]]. *)
Definition at_index (buf : list Z) (n : nat) : Z := buf !!! n.

(** The loop of lines 207-209: [writedata[n] = (i + n) % 256], the [int]
    remainder converted to [unsigned char] by the assignment. *)
Fixpoint fill_loop (steps n : nat) (i : Z) (writedata : list Z) : list Z :=
  match steps with
  | O => writedata
  | S steps' =>
      fill_loop steps' (S n) i
        (<[n := uchar (Z.rem (i + Z.of_nat n) 256)]> writedata)
  end.

(** The loops of lines 216-226 and 231-241 without their output:
    [if (a[n] != b[n]) ++count] for [steps] values of [n] from [n]. *)
Fixpoint differ_loop (steps n : nat) (a b : list Z) (count : Z) : Z :=
  match steps with
  | O => count
  | S steps' =>
      differ_loop steps' (S n) a b
        (if Z.eqb (at_index a n) (at_index b n) then count else count + 1)
  end.

(** The initial contents of the four local arrays of [readbacktest]. *)
Record frame : Type := Frame {
  prevdata0 : list Z;
  originalreaddata0 : list Z;
  writedata0 : list Z;
  readbackdata0 : list Z
}.

Definition array_ok (buf : list Z) : Prop :=
  length buf = Z.to_nat MAXBLOCKSIZE.

Definition frame_ok (fr : frame) : Prop :=
  array_ok (prevdata0 fr) /\ array_ok (originalreaddata0 fr) /\
  array_ok (writedata0 fr) /\ array_ok (readbackdata0 fr).

(** ** The device transactions and the probe *)

Section Engine.
Context {D : Type} (dv : device D).
(** The global [blocksize]. *)
Variable blocksize : Z.

Local Open Scope prog_scope.

Definition do_open : M (world D) (Z * Z) := fun w =>
  let '(fd, errno, d) := sys_open dv (dev w) in
  (Ret (fd, errno), World d (EvOpen fd errno :: log w)).

Definition do_lseek (fd address : Z) : M (world D) Z := fun w =>
  let '(n, d) := sys_lseek dv fd address (dev w) in
  (Ret n, World d (EvSeek address n :: log w)).

Definition do_read (fd address size : Z) : M (world D) (option (list Z)) := fun w =>
  let '(got, d) := sys_read dv fd size (dev w) in
  (Ret got, World d (EvRead address size got :: log w)).

Definition do_write (fd address size : Z) (data : list Z) : M (world D) Z := fun w =>
  let '(nn, d) := sys_write dv fd data (dev w) in
  (Ret nn, World d (EvWrite address size data nn :: log w)).

Definition do_fsync (fd : Z) : M (world D) Z := fun w =>
  let '(r, d) := sys_fsync dv fd (dev w) in
  (Ret r, World d (EvFsync r :: log w)).

Definition do_close (fd : Z) : M (world D) Z := fun w =>
  let '(r, d) := sys_close dv fd (dev w) in
  (Ret r, World d (EvClose r :: log w)).

(** The [switch (errno)] after a failed [open]. *)
Definition open_failure (errno : Z) : exit_site :=
  if (errno =? ENODEV) || (errno =? ENXIO) || (errno =? ENOMEDIUM)
  then NoDevice
  else if errno =? ENOENT then DoesNotExist
  else if (errno =? EPERM) || (errno =? EACCES) then NotAllowed
  else OpenError.

(** Lines 72-101 and 124-153: open the device and seek. *)
Definition open_and_seek (address : Z) : M (world D) Z :=
  opened <- do_open ;;
  let '(fd, errno) := opened in
  if fd <? 0 then exit (-1) (open_failure errno)
  else
    n <- do_lseek fd address ;;
    if n <? 0 then exit (-1) SeekFailed
    else if negb (n =? address) then exit (-1) SeekElsewhere
    else ret fd.

(** Lines 112-119 and 164-171: flush and close. *)
Definition sync_and_close (fd : Z) : M (world D) unit :=
  r <- do_fsync fd ;;
  if negb (r =? 0) then exit (-1) FsyncError
  else
    r <- do_close fd ;;
    if negb (r =? 0) then exit (-1) CloseError
    else ret tt.

(** [checkedread(address, buf, size)]; the result is the buffer after the
    call. *)
Definition checkedread (address : Z) (buf : list Z) (size : Z)
  : M (world D) (list Z) :=
  fd <- open_and_seek address ;;
  got <- do_read fd address size ;;
  match got with
  | None => exit (-1) ReadFailed
  | Some data =>
      if negb (Z.of_nat (length data) =? size) then exit (-1) ShortRead
      else sync_and_close fd ;;; ret (stored data buf)
  end.

(** [checkedwrite(address, buf, size)]: the first [size] bytes of the
    buffer go to the device. *)
Definition checkedwrite (address : Z) (buf : list Z) (size : Z)
  : M (world D) unit :=
  fd <- open_and_seek address ;;
  nn <- do_write fd address size (take (Z.to_nat size) buf) ;;
  if nn <? 0 then exit (-1) WriteFailed
  else if negb (nn =? size) then exit (-1) ShortWrite
  else sync_and_close fd.

(** Line 202, [address -= blocksize]: the subtraction is done in
    [size_t] and converted back to [off_t]. *)
Definition probed_address (address : Z) : Z :=
  s64 (u64 address - blocksize).

(** Line 203, [address % modulo] on [off_t]: the remainder of the
    division that truncates. *)
Definition shadow_address (address modulo : Z) : Z :=
  Z.rem (probed_address address) modulo.

(** The test pattern in [writedata] after lines 206-209. *)
Definition fill_pattern (i : Z) (writedata : list Z) : list Z :=
  fill_loop (Z.to_nat blocksize) 0 i writedata.

(** Lines 198-245 of [readbacktest]: everything but the final test.  The
    result is the pair of counters [(mismatch, corruption)]. *)
Definition readbacktest_counts (fr : frame) (address modulo i : Z)
  : M (world D) (Z * Z) :=
  let address := probed_address address in
  if (modulo =? 0) || ((address =? - 2 ^ 63) && (modulo =? -1))
  then fault
  else
    let old := Z.rem address modulo in
    prevdata <- checkedread old (prevdata0 fr) blocksize ;;
    originalreaddata <-
      checkedread address (originalreaddata0 fr) blocksize ;;
    let writedata := fill_pattern i (writedata0 fr) in
    checkedwrite address writedata blocksize ;;;
    readbackdata <- checkedread address (readbackdata0 fr) blocksize ;;
    let mismatch :=
      differ_loop (Z.to_nat MAXBLOCKSIZE) 0 readbackdata writedata 0 in
    checkedwrite address originalreaddata blocksize ;;;
    readbackdata <- checkedread old readbackdata blocksize ;;
    let corruption :=
      differ_loop (Z.to_nat blocksize) 0 readbackdata prevdata 0 in
    (if negb (corruption =? 0)
     then checkedwrite address prevdata blocksize
     else ret tt) ;;;
    ret (mismatch, corruption).

(** [readbacktest(address, modulo, i)]. *)
Definition readbacktest (fr : frame) (address modulo i : Z) : M (world D) unit :=
  counts <- readbacktest_counts fr address modulo i ;;
  let '(mismatch, corruption) := counts in
  if negb (mismatch =? 0) || negb (corruption =? 0)
  then exit (-1) ProbeFailed
  else ret tt.

End Engine.

(** ** The scheduler: the end of [main], lines 436-453 *)

(** A call [readbacktest(address, modulo, i)]. *)
Record call : Type := Call { c_address : Z; c_modulo : Z; c_sequence : Z }.

Section Scheduler.
Context {S : Type}.
(** What a call of [readbacktest] does to the state. *)
Variable probe : Z -> Z -> Z -> M S unit.
(** [totalsize], an [unsigned long long]. *)
Variable totalsize : Z.

Local Open Scope prog_scope.

(** Lines 438-441, from the values [offset] and [i] have at the test of
    the loop; the result is their value after the loop.  [offset] is an
    [off_t], compared with [totalsize] as [unsigned long long]. *)
Fixpoint phase1 (fuel : nat) (offset i : Z) : M S (Z * Z) :=
  match fuel with
  | O => out_of_fuel
  | Datatypes.S fuel' =>
      if u64 offset <=? totalsize
      then
        probe offset (Z.quot offset 2) i ;;;
        phase1 fuel' (s64 (offset * 2)) (s32 (i + 1))
      else ret (offset, i)
  end.

(** Lines 447-451; the subtraction, the addition and the division are done
    in [unsigned long long]. *)
Fixpoint phase2 (fuel : nat) (modulo offset i : Z) : M S unit :=
  match fuel with
  | O => out_of_fuel
  | Datatypes.S fuel' =>
      if u64 (totalsize - u64 offset) >? MiB
      then
        let i := s32 (i + 1) in
        let offset := s64 (u64 (u64 offset + totalsize) / 2) in
        probe offset modulo i ;;;
        phase2 fuel' modulo offset i
      else ret tt
  end.

(** Lines 436-453. *)
Definition size_test (fuel : nat) : M S unit :=
  after <- phase1 fuel MiB 0 ;;
  let '(offset, i) := after in
  (if negb (u64 offset =? totalsize)
   then
     let offset := Z.quot offset 2 in
     let modulo := offset in
     phase2 fuel modulo offset i
   else ret tt) ;;;
  exit 0 Finished.

End Scheduler.

(** The scheduler with a probe that only records its arguments: the calls
    of [readbacktest] that [main] makes as long as every one returns. *)
Definition record_call (address modulo i : Z) : M (list call) unit :=
  fun calls => (Ret tt, calls ++ [Call address modulo i]).

Definition schedule (totalsize : Z) (fuel : nat) : result unit * list call :=
  size_test record_call totalsize fuel [].

(** The scheduler on a device; [junk i] is what the stack holds when the
    probe with sequence number [i] starts. *)
Definition run_size_test {D} (dv : device D) (blocksize : Z)
    (junk : Z -> frame) (totalsize : Z) (fuel : nat) : M (world D) unit :=
  size_test (fun address modulo i =>
               readbacktest dv blocksize (junk i) address modulo i)
            totalsize fuel.

(** The calls of a list made one after the other, as [main] makes them:
    the first one that does not return ends the program. *)
Fixpoint run_calls {S} (probe : Z -> Z -> Z -> M S unit) (l : list call)
  : M S unit :=
  match l with
  | [] => ret tt
  | c :: l' =>
      bind (probe (c_address c) (c_modulo c) (c_sequence c))
           (fun _ => run_calls probe l')
  end.

(** ** Reading the log *)

Definition is_transfer (e : event) : bool :=
  match e with
  | EvRead _ _ _ | EvWrite _ _ _ _ => true
  | _ => false
  end.

(** The reads and writes among the calls of a list. *)
Definition transfers (l : list event) : list event := List.filter is_transfer l.

Definition is_write_at (address : Z) (e : event) : bool :=
  match e with
  | EvWrite a _ _ _ => a =? address
  | _ => false
  end.

(** The address of a seek, a read or a write. *)
Definition event_address (e : event) : option Z :=
  match e with
  | EvSeek a _ | EvRead a _ _ | EvWrite a _ _ _ => Some a
  | _ => None
  end.

(** A computation that only extends the log, and only with seeks, reads
    and writes at addresses that are [allowed]. *)
Definition confined {D A} (allowed : Z -> Prop) (m : M (world D) A) : Prop :=
  forall w, exists new,
    log (snd (m w)) = new ++ log w /\
    forall e a, In e new -> event_address e = Some a -> allowed a.

(** The system call whose answer makes [checkedread] or [checkedwrite]
    of [size] bytes at [address] take the [exit] of a given place. *)
Definition failed_call (address size : Z) (site : exit_site) (e : event)
  : Prop :=
  match e with
  | EvOpen fd errno => fd < 0 /\ site = open_failure errno
  | EvSeek a n =>
      a = address /\
      ((n < 0 /\ site = SeekFailed) \/
       (0 <= n /\ n <> address /\ site = SeekElsewhere))
  | EvRead a s None => a = address /\ s = size /\ site = ReadFailed
  | EvRead a s (Some data) =>
      a = address /\ s = size /\ Z.of_nat (length data) <> size /\
      site = ShortRead
  | EvWrite a s _ nn =>
      a = address /\ s = size /\
      ((nn < 0 /\ site = WriteFailed) \/
       (0 <= nn /\ nn <> size /\ site = ShortWrite))
  | EvFsync r => r <> 0 /\ site = FsyncError
  | EvClose r => r <> 0 /\ site = CloseError
  end.

(** A computation whose only way to end the program is [exit(-1)]. *)
Definition exits_minus_one {S A} (m : M S A) : Prop :=
  forall s, match fst (m s) with
            | Exit status _ => status = -1
            | _ => True
            end.

(** A transfer that moved fewer bytes than were asked for. *)
Definition short_transfer (e : event) : Prop :=
  match e with
  | EvRead _ size (Some data) => Z.of_nat (length data) < size
  | EvWrite _ size _ nn => 0 <= nn < size
  | _ => False
  end.

Definition no_short_transfer (l : list event) : Prop :=
  forall e, In e l -> ~ short_transfer e.

(** An outcome in which a short transfer, if there is one, is the last
    system call of a process that ended with [exit(-1)] and the message of
    a short read or a short write. *)
Definition stopped_at_short_transfer {D A} (out : result A * world D) : Prop :=
  no_short_transfer (log (snd out)) \/
  exists e rest,
    log (snd out) = e :: rest /\ short_transfer e /\
    no_short_transfer rest /\
    (fst out = Exit (-1) ShortRead \/ fst out = Exit (-1) ShortWrite).

Definition careful {D A} (m : M (world D) A) : Prop :=
  forall w, no_short_transfer (log w) -> stopped_at_short_transfer (m w).

(** ** The schedule in closed form *)

Definition pow2 (k : nat) : Z := 2 ^ Z.of_nat k.

(** [n] calls from the [k]-th power of two times 1 MiB on, each at twice
    the address of the one before, with half the address as modulus and
    the exponent as sequence number. *)
Definition doubling (k n : nat) : list call :=
  map (fun j : nat => Call (MiB * pow2 j) (MiB * pow2 j / 2) (Z.of_nat j))
      (seq k n).

(** A bisection towards [totalsize] from the lower bound [offset]: every
    call is made while more than 1 MiB remains, at the midpoint of the
    bound and [totalsize], with modulus [modulo]; the midpoint is the next
    bound and is closer to [totalsize]; after the last call at most 1 MiB
    remains. *)
Fixpoint bisection (totalsize modulo offset : Z) (l : list call) : Prop :=
  match l with
  | [] => totalsize - offset <= MiB
  | c :: l' =>
      MiB < totalsize - offset /\
      c_address c = (offset + totalsize) / 2 /\
      c_modulo c = modulo /\
      totalsize - c_address c < totalsize - offset /\
      bisection totalsize modulo (c_address c) l'
  end.

(** The number of positions below [blocksize] at which two buffers
    differ: the mismatch count as the specification words it. *)
Definition block_mismatches (blocksize : Z) (readback pattern : list Z) : Z :=
  Z.of_nat
    (length
       (List.filter
          (fun n : nat => negb (at_index readback n =? at_index pattern n))
          (seq 0 (Z.to_nat blocksize)))).

(** ** Model devices *)

(** A store of bytes with a file position. *)
Record disk : Type := Disk { cells : Z -> Z; position : Z }.

Definition disk_read (size : Z) (d : disk) : list Z :=
  map (fun k : nat => cells d (position d + Z.of_nat k))
      (seq 0 (Z.to_nat size)).

Definition overwrite (cells : Z -> Z) (start : Z) (data : list Z) : Z -> Z :=
  fun a =>
    if (start <=? a) && (a <? start + Z.of_nat (length data))
    then at_index data (Z.to_nat (a - start))
    else cells a.

(** The bytes of a device from [address] on. *)
Definition block (d : disk) (address size : Z) : list Z :=
  disk_read size (Disk (cells d) address).

(** A device that stores what is written where it is written. *)
Definition ideal : device disk := {|
  sys_open := fun d => (3, 0, d);
  sys_lseek := fun fd address d => (address, Disk (cells d) address);
  sys_read := fun fd size d =>
    (Some (disk_read size d), Disk (cells d) (position d + size));
  sys_write := fun fd data d =>
    (Z.of_nat (length data),
     Disk (overwrite (cells d) (position d) data)
          (position d + Z.of_nat (length data)));
  sys_fsync := fun fd d => (0, d);
  sys_close := fun fd d => (0, d)
|}.

(** A device of [capacity] bytes: a read stops at the end of the device
    and a write past the end fails. *)
Definition bounded (capacity : Z) : device disk := {|
  sys_open := fun d => (3, 0, d);
  sys_lseek := fun fd address d => (address, Disk (cells d) address);
  sys_read := fun fd size d =>
    let n := Z.max 0 (Z.min size (capacity - position d)) in
    (Some (disk_read n d), Disk (cells d) (position d + n));
  sys_write := fun fd data d =>
    let n := Z.min (Z.of_nat (length data)) (capacity - position d) in
    if n <=? 0 then (-1, d)
    else (n, Disk (overwrite (cells d) (position d) (take (Z.to_nat n) data))
                  (position d + n));
  sys_fsync := fun fd d => (0, d);
  sys_close := fun fd d => (0, d)
|}.

(** A faulty device: a write at or above [span] is stored, and it also
    wipes the bytes at the same addresses reduced modulo [span]; reads are
    direct. *)
Definition disturbing (span : Z) : device disk := {|
  sys_open := fun d => (3, 0, d);
  sys_lseek := fun fd address d => (address, Disk (cells d) address);
  sys_read := fun fd size d =>
    (Some (disk_read size d), Disk (cells d) (position d + size));
  sys_write := fun fd data d =>
    (Z.of_nat (length data),
     Disk (overwrite
             (if span <=? position d
              then overwrite (cells d) (position d mod span)
                     (repeat 0 (length data))
              else cells d)
             (position d) data)
          (position d + Z.of_nat (length data)));
  sys_fsync := fun fd d => (0, d);
  sys_close := fun fd d => (0, d)
|}.

(** Stack contents and a disk for the examples. *)
Definition zeros : list Z := repeat 0 (Z.to_nat MAXBLOCKSIZE).
Definition clean_frame : frame := Frame zeros zeros zeros zeros.
Definition dirty_frame : frame :=
  Frame zeros zeros zeros (<[512%nat := 1]> zeros).

(** 0xAA below 512 KiB and 0x55 from there on. *)
Definition two_tone : disk :=
  Disk (fun a => if a <? 524288 then 170 else 85) 0.

Definition is_write (e : event) : bool :=
  match e with
  | EvWrite _ _ _ _ => true
  | _ => false
  end.

(** A computation that only extends the log, and with no write. *)
Definition writes_nothing {D A} (m : M (world D) A) : Prop :=
  forall w, exists new,
    log (snd (m w)) = new ++ log w /\
    forall e, In e new -> is_write e = false.

(** ** Integers stored in a buffer *)

(** The unsigned integer of [width] bytes that a cast of [buffer + k] to
    a pointer to such an integer reads on the x86-64 the program is written
    for: least significant byte first. *)
Fixpoint le_bytes (width : nat) (buffer : list Z) (k : nat) : Z :=
  match width with
  | O => 0
  | S width' => at_index buffer k + 256 * le_bytes width' buffer (S k)
  end.

Definition le64 (buffer : list Z) (k : nat) : Z := le_bytes 8 buffer k.
Definition le32 (buffer : list Z) (k : nat) : Z := le_bytes 4 buffer k.

(** [0x5452415020494645ULL], the bytes of "EFI PART". *)
Definition GPT_SIGNATURE : Z := 0x5452415020494645.

(** ** The partition table *)

Section Partitions.
Context {D : Type} (dv : device D).
Variable blocksize : Z.

Local Open Scope prog_scope.

(** The loop of [partitions], lines 182-194, for [count] entries still to
    come; the result is the list of the pairs [(start, end)] printed so
    far, last one first.  [paddr >= blocksize] compares an [off_t] with a
    [size_t], that is as unsigned numbers; the product of an [off_t] read
    from the buffer and [blocksize] is an unsigned one stored in an
    [off_t].  The two numbers of an entry are the bytes from [paddr + 32]
    to [paddr + 47] of the array [buffer] of [MAXBLOCKSIZE] bytes; an entry
    that is not inside the array is read from outside of it, which is
    undefined: [Fault]. *)
Fixpoint partitions_loop (count : nat) (currentblock paddr psize : Z)
    (buffer : list Z) (printed : list (Z * Z)) : M (world D) (list (Z * Z)) :=
  match count with
  | O => ret printed
  | S count' =>
      state <-
        (if blocksize <=? u64 paddr
         then
           let currentblock := s64 (u64 currentblock + blocksize) in
           let paddr := s64 (u64 paddr - blocksize) in
           buffer <- checkedread dv currentblock buffer blocksize ;;
           ret (currentblock, paddr, buffer)
         else ret (currentblock, paddr, buffer)) ;;
      let '(currentblock, paddr, buffer) := state in
      if (paddr <? 0) || (MAXBLOCKSIZE <? paddr + 48) then fault
      else
        let start := s64 (le64 buffer (Z.to_nat (paddr + 32)) * blocksize) in
        let end_ := s64 (le64 buffer (Z.to_nat (paddr + 40)) * blocksize) in
        partitions_loop count' currentblock (s64 (paddr + psize)) psize buffer
          (if start =? end_ then printed else (start, end_) :: printed)
  end.

(** [partitions(base, pcount, psize)]; [buffer] is what its local array
    holds at first, and the result the pairs printed, in order. *)
Definition partitions (buffer : list Z) (base pcount psize : Z)
  : M (world D) (list (Z * Z)) :=
  buffer <- checkedread dv base buffer blocksize ;;
  printed <- partitions_loop (Z.to_nat pcount) base 0 psize buffer [] ;;
  ret (rev printed).

End Partitions.

(** ** [main] before the size test *)

(** The places at which [main] itself ends the program before the size
    test, and the size test with the transactions before it. *)
Inductive stop_site : Set :=
| NotRoot | BadUsage | NotADevicePath
| DeviceOpenFailed (site : exit_site)
| NotABlockDevice | IoctlFailed | DeviceCloseFailed
| MountsNotOpened | IsMounted | MountsNotRead
| NotATerminal | StdinNotRead | Declined.

Inductive ending : Type :=
| Stopped (status : Z) (why : stop_site)
| Through (r : result unit).

(** What [isatty] and [getline] answer in one call of [confirm]; [None]
    is a negative result of [getline]. *)
Record answer : Type := Answer { is_tty : bool; line : option String.string }.

(** What the system answers to [main] apart from the transactions with
    the device: the effective user, the arguments, the first [open] (file
    descriptor and [errno]), the two [ioctl] calls (result, [errno] and the
    value stored) and the [close] of the device, the stream of
    [/proc/mounts] ([None] when it cannot be opened, else the strings that
    the successive calls of [fgets] return before [NULL], and what [feof]
    says then), and the answers to the two questions. *)
Record environment : Type := {
  euid : Z;
  argv : list String.string;
  first_open : Z * Z;
  size_ioctl : Z * Z * Z;
  sector_ioctl : Z * Z * Z;
  first_close : Z;
  mounts : option (list String.string * bool);
  first_answer : answer;
  second_answer : answer
}.

Definition ENOTBLK : Z := 15.
Definition ENOTTY : Z := 25.
Definition ENOTSUP : Z := 95.

(** The characters ['Y'] and ['\n']. *)
Definition char_Y : Ascii.ascii := Ascii.ascii_of_nat 89.
Definition char_newline : Ascii.ascii := Ascii.ascii_of_nat 10.

(** [confirm()], lines 55-68: [inl] for an [exit], [inr] for the value
    returned. *)
Definition confirm (a : answer) : ending + bool :=
  if negb (is_tty a) then inl (Stopped 0 NotATerminal)
  else
    match line a with
    | None => inl (Stopped (-1) StdinNotRead)
    | Some String.EmptyString => inr false
    | Some (String.String c _) => inr (Ascii.eqb c char_Y)
    end.

(** The [switch (errno)] after a failed [ioctl]. *)
Definition ioctl_failure (errno : Z) : stop_site :=
  if (errno =? ENOTBLK) || (errno =? ENOTSUP) || (errno =? ENOTTY)
  then NotABlockDevice
  else IoctlFailed.

(** [buffer[strlen(buffer) - 1] != '\n']. *)
Fixpoint ends_line (s : String.string) : bool :=
  match s with
  | String.EmptyString => false
  | String.String c String.EmptyString => Ascii.eqb c char_newline
  | String.String _ s' => ends_line s'
  end.

(** Lines 395-414 on the strings that [fgets] returns: [skipping] is set
    inside the inner loop, which reads on to the end of a long line.  The
    result is [Some] for an [exit]. *)
Fixpoint scan_mounts (filename : String.string) (skipping : bool)
    (chunks : list String.string) (at_eof : bool) : option ending :=
  match chunks with
  | [] => if at_eof then None else Some (Stopped (-1) MountsNotRead)
  | chunk :: chunks' =>
      if skipping
      then scan_mounts filename (negb (ends_line chunk)) chunks' at_eof
      else if String.prefix filename chunk
           then Some (Stopped 0 IsMounted)
           else scan_mounts filename (negb (ends_line chunk)) chunks' at_eof
  end.

Section Main.
Context {D : Type} (dv : device D).
Variable env : environment.
(** What the stack holds where the arrays of [main], of [partitions] and
    of [readbacktest] are put, and the fuel of the loops. *)
Variable main_buffer : list Z.
Variable partitions_buffer : list Z.
Variable junk : Z -> frame.
Variable fuel : nat.

Local Open Scope prog_scope.

Definition filename : String.string := nth 1 (argv env) String.EmptyString.

(** Lines 252-329: [inl] for an [exit], [inr] for [totalsize] and
    [blocksize]. *)
Definition front : ending + Z * Z :=
  if negb (euid env =? 0) then inl (Stopped EPERM NotRoot)
  else if negb (Z.of_nat (length (argv env)) =? 2)
  then inl (Stopped (-1) BadUsage)
  else if negb (String.prefix "/dev/" filename)
  then inl (Stopped (-1) NotADevicePath)
  else
    let '(fd, errno) := first_open env in
    if fd <? 0 then inl (Stopped (-1) (DeviceOpenFailed (open_failure errno)))
    else
      let '(res, errno, totalsize) := size_ioctl env in
      if res <? 0 then inl (Stopped (-1) (ioctl_failure errno))
      else
        let '(res, errno, blocksize) := sector_ioctl env in
        if res <? 0 then inl (Stopped (-1) (ioctl_failure errno))
        else if negb (first_close env =? 0)
        then inl (Stopped (-1) DeviceCloseFailed)
        else inr (totalsize, blocksize).

(** The loop of lines 338-343 from the value [size] has at its test; the
    result is [size] after the loop and the buffer. *)
Fixpoint find_gpt_header (steps : nat) (size : Z) (buffer : list Z)
  : M (world D) (Z * list Z) :=
  match steps with
  | O => out_of_fuel
  | S steps' =>
      if size <=? MAXBLOCKSIZE
      then
        buffer <- checkedread dv size buffer size ;;
        if le64 buffer 0 =? GPT_SIGNATURE then ret (size, buffer)
        else find_gpt_header steps' (u64 (size * 2)) buffer
      else ret (size, buffer)
  end.

(** Lines 336-387, entered when [buffer[450] == 0xEE]; the result is
    [blocksize] as these lines leave it. *)
Definition gpt (buffer : list Z) : M (world D) Z :=
  found <- find_gpt_header fuel MINBLOCKSIZE buffer ;;
  let '(size, buffer) := found in
  let blocksize := size in
  if MAXBLOCKSIZE <? size then ret blocksize
  else
    let backup := s64 (le64 buffer 32 * blocksize) in
    let ptable := s64 (le64 buffer 72 * blocksize) in
    let pcount := s32 (le32 buffer 80) in
    let psize := s32 (le32 buffer 84) in
    buffer <- checkedread dv ptable buffer blocksize ;;
    partitions dv blocksize partitions_buffer ptable pcount psize ;;;
    buffer <- checkedread dv backup buffer blocksize ;;
    if negb (le64 buffer 0 =? GPT_SIGNATURE) then ret blocksize
    else
      let ptable := s64 (le64 buffer 72 * blocksize) in
      let pcount := s32 (le32 buffer 80) in
      let psize := s32 (le32 buffer 84) in
      checkedread dv ptable buffer blocksize ;;;
      partitions dv blocksize partitions_buffer ptable pcount psize ;;;
      ret blocksize.

(** Lines 330-388: the master boot record and, for type 0xEE, the GPT. *)
Definition inspect (blocksize : Z) : M (world D) Z :=
  buffer <- checkedread dv 0 main_buffer MINBLOCKSIZE ;;
  if at_index buffer 450 =? 238 then gpt buffer else ret blocksize.

(** Lines 389-423: [/proc/mounts] and the two questions; [None] when
    [main] goes on to the size test. *)
Definition gate : option ending :=
  match mounts env with
  | None => Some (Stopped (-1) MountsNotOpened)
  | Some (chunks, at_eof) =>
      match scan_mounts filename false chunks at_eof with
      | Some e => Some e
      | None =>
          match confirm (first_answer env) with
          | inl e => Some e
          | inr false => Some (Stopped 0 Declined)
          | inr true =>
              match confirm (second_answer env) with
              | inl e => Some e
              | inr false => Some (Stopped 0 Declined)
              | inr true => None
              end
          end
      end
  end.

(** [main]. *)
Definition main (w : world D) : ending * world D :=
  match front with
  | inl e => (e, w)
  | inr (totalsize, blocksize) =>
      match inspect blocksize w with
      | (Ret blocksize, w1) =>
          match gate with
          | Some e => (e, w1)
          | None =>
              let '(r, w2) :=
                run_size_test dv blocksize junk totalsize fuel w1 in
              (Through r, w2)
          end
      | (Exit status site, w1) => (Through (Exit status site), w1)
      | (Fault, w1) => (Through Fault, w1)
      | (OutOfFuel, w1) => (Through OutOfFuel, w1)
      end
  end.

End Main.

(** ** Sizes in a form that is easy to read *)

(** [double sz = size]: the nearest number with 53 significant bits, ties
    going to the even one.  Such a number is an integer here, since [size]
    is one. *)
Definition to_double (n : Z) : Z :=
  let e := Z.log2 n - 52 in
  if e <=? 0 then n
  else
    let q := n / 2 ^ e in
    let r := n mod 2 ^ e in
    let half := 2 ^ (e - 1) in
    let q' :=
      if r <? half then q
      else if half <? r then q + 1
      else if Z.even q then q else q + 1 in
    q' * 2 ^ e.

Bind Scope string_scope with String.string.

(** A string constant. *)
Definition text (s : String.string) : String.string := s.

(** The table [names] of [human]. *)
Definition names : list String.string :=
  [text "bytes"; text "Kibytes"; text "Mibytes"; text "Gibytes";
   text "Tibytes"; text "Pibytes"; text "Xibytes"; text "Zibytes"].

(** The loop of line 43, [for ( ; (i < 8) && (sz > 9999); ++i) sz = sz / 1024],
    on the number [m] that [sz] started from: a division of a [double] by
    1024 is exact, so [sz] is [m / 1024 ^ i] throughout and [sz > 9999]
    says [9999 * 1024 ^ i < m].  The result is [i] after the loop. *)
Fixpoint human_loop (steps : nat) (m i : Z) : Z :=
  match steps with
  | O => i
  | S steps' =>
      if (i <? 8) && (9999 * 1024 ^ i <? m)
      then human_loop steps' m (i + 1)
      else i
  end.

(** The arguments of the [snprintf] of lines 48 and 50: the number of
    decimals of the format, the value [sz] as [numerator / 1024 ^ shift],
    and the entry of [names] ([None] would be an index outside the
    table). *)
Record readable : Type := Readable {
  decimals : Z;
  numerator : Z;
  shift : Z;
  unit_name : option String.string
}.

(** [human(size)]: [None] for the empty string of line 29.  The constant
    [99.9] of line 47 is the [double] 3514918771674317 / 2^45. *)
Definition human (size : Z) : option readable :=
  if size <=? 9999 then None
  else
    let m := to_double size in
    let i := human_loop 9 m 0 in
    Some (Readable
            (if 3514918771674317 * 1024 ^ i <? m * 2 ^ 45 then 0 else 1)
            m i (names !! Z.to_nat i)).

(** ** An environment for the examples *)

(** Root asks for [/dev/sdz], a device of 1 MiB with sectors of 512 bytes
    of which no partition is mounted, and answers both questions with
    [Y]. *)
Definition willing : environment := {|
  euid := 0;
  argv := [text "disksize"; text "/dev/sdz"];
  first_open := (3, 0);
  size_ioctl := (0, 0, 1048576);
  sector_ioctl := (0, 0, 512);
  first_close := 0;
  mounts := Some ([String.append (text "/dev/sda1 / ext4 rw 0 0")
                     (String.String char_newline String.EmptyString)], true);
  first_answer := Answer true (Some (text "Y"));
  second_answer := Answer true (Some (text "Yes"))
|}.

(** A disk whose master boot record has the type [0xEE] and which holds
    zeros elsewhere. *)
Definition protective_only : disk :=
  Disk (fun a => if a =? 450 then 238 else 0) 0.

(** ** The partition table on the disk *)

(** The two numbers at 32 and at 40 in the entry of a partition table
    that begins at [address], as [partitions] scales and stores them. *)
Definition table_entry (d : disk) (blocksize address : Z) : Z * Z :=
  (s64 (le64 (block d (address + 32) 8) 0 * blocksize),
   s64 (le64 (block d (address + 40) 8) 0 * blocksize)).

(** The [n] entries of [psize] bytes from [base] on, without those whose
    two numbers are equal. *)
Definition table (d : disk) (blocksize base psize : Z) (n : nat)
  : list (Z * Z) :=
  List.filter (fun se => negb (fst se =? snd se))
    (map (fun p : nat => table_entry d blocksize (base + Z.of_nat p * psize))
         (seq 0 n)).

(** The buffer holds the block of the disk at [currentblock]. *)
Definition holds_block (d : disk) (blocksize : Z) (buffer : list Z)
    (currentblock : Z) : Prop :=
  forall k : nat, Z.of_nat k < blocksize ->
    at_index buffer k = cells d (currentblock + Z.of_nat k).

(** A computation that returns or ends the program with [exit(-1)]: no
    division by zero and no loop cut short. *)
Definition ends_well {S A} (m : M S A) : Prop :=
  forall s, match fst (m s) with
            | Ret _ => True
            | Exit status _ => status = -1
            | _ => False
            end.

(** A disk for the example of a mounted device: one 0xAA everywhere. *)
Definition plain : disk := Disk (fun _ => 170) 0.

(** Root asks for [/dev/sdz] while [/dev/sdz1] is mounted. *)
Definition mounted : environment := {|
  euid := 0;
  argv := [text "disksize"; text "/dev/sdz"];
  first_open := (3, 0);
  size_ioctl := (0, 0, 1048576);
  sector_ioctl := (0, 0, 512);
  first_close := 0;
  mounts := Some ([String.append (text "/dev/sda1 / ext4 rw 0 0")
                     (String.String char_newline String.EmptyString);
                   String.append (text "/dev/sdz1 /mnt vfat rw 0 0")
                     (String.String char_newline String.EmptyString)], true);
  first_answer := Answer true (Some (text "Y"));
  second_answer := Answer true (Some (text "Y"))
|}.

(** A computation that returns, ends the program with [exit(-1)], or
    reads outside an array: no loop is cut short. *)
Definition ends_or_overruns {S A} (m : M S A) : Prop :=
  forall s, match fst (m s) with
            | Exit status _ => status = -1
            | OutOfFuel => False
            | _ => True
            end.

(** ** What the environment says *)

(** A line of [/proc/mounts] begins with the file name. *)
Definition is_mounted (env : environment) : Prop :=
  exists chunks at_eof chunk,
    mounts env = Some (chunks, at_eof) /\ In chunk chunks /\
    String.prefix (filename env) chunk = true.

(** A line typed at a terminal that begins with [Y], and one that does
    not. *)
Definition says_yes (a : answer) : Prop :=
  is_tty a = true /\ exists rest, line a = Some (String.String char_Y rest).

Definition says_no (a : answer) : Prop :=
  is_tty a = true /\
  exists s, line a = Some s /\ forall rest, s <> String.String char_Y rest.

(** ** The first transfer of a computation *)

(** The system calls of a transaction that is to read [size] bytes at
    [old], as far as it comes: the open fails, or the seek fails or does
    not arrive at [old], or the read at [old] is made. *)
Definition starts_with_read_at (old size : Z) (new : list event) : Prop :=
  (exists fd errno, new = [EvOpen fd errno] /\ fd < 0) \/
  (exists fd errno n,
      new = [EvOpen fd errno; EvSeek old n] /\ (n < 0 \/ n <> old)) \/
  (exists fd errno got rest,
      new = EvOpen fd errno :: EvSeek old old :: EvRead old size got :: rest).

(** A computation whose first transfer is a read of [size] bytes at
    [old]: it makes this read unless the open or the seek before it fails,
    and it has made it when it returns. *)
Definition begins_with_read {D A} (old size : Z) (m : M (world D) A) : Prop :=
  forall w, exists new,
    history (snd (m w)) = history w ++ new /\
    starts_with_read_at old size new /\
    forall a, fst (m w) = Ret a ->
      exists fd errno got rest,
        new = EvOpen fd errno :: EvSeek old old :: EvRead old size got :: rest.

(** ** Probes that pass *)

(** The calls of a list made one after the other from the state [w] to the
    state [w'], every probe getting through its transfers with both
    counters at zero. *)
Fixpoint all_passed {D} (dv : device D) (blocksize : Z) (junk : Z -> frame)
    (l : list call) (w w' : world D) : Prop :=
  match l with
  | [] => w' = w
  | c :: l' =>
      exists w1,
        readbacktest_counts dv blocksize (junk (c_sequence c)) (c_address c)
          (c_modulo c) (c_sequence c) w
        = (Ret (0, 0), w1) /\
        all_passed dv blocksize junk l' w1 w'
  end.

(** * Properties *)

(** ** C integer conversions in range *)

Lemma u64_small x : 0 <= x < 2 ^ 64 -> u64 x = x.
Proof. intros H. unfold u64. apply Z.mod_small. exact H. Qed.

Lemma s64_small x : - 2 ^ 63 <= x < 2 ^ 63 -> s64 x = x.
Proof. intros H. unfold s64. rewrite Z.mod_small; lia. Qed.

Lemma s32_small x : - 2 ^ 31 <= x < 2 ^ 31 -> s32 x = x.
Proof. intros H. unfold s32. rewrite Z.mod_small; lia. Qed.

Lemma u64_negative x : - 2 ^ 64 <= x < 0 -> u64 x = x + 2 ^ 64.
Proof.
  intros H. unfold u64.
  replace x with (x + 2 ^ 64 + (-1) * 2 ^ 64) at 1 by lia.
  rewrite Z.mod_add by lia. apply Z.mod_small. lia.
Qed.

Lemma pow2_S k : pow2 (S k) = 2 * pow2 k.
Proof. unfold pow2. rewrite Nat2Z.inj_succ, Z.pow_succ_r; lia. Qed.

Lemma pow2_pos k : 0 < pow2 k.
Proof. unfold pow2. apply Z.pow_pos_nonneg; lia. Qed.

Lemma pow2_le j k : (j <= k)%nat -> pow2 j <= pow2 k.
Proof. intros H. unfold pow2. apply Z.pow_le_mono_r; lia. Qed.

Lemma MiB_pow2_bound k : (k <= 42)%nat -> 0 < MiB * pow2 k <= 2 ^ 62.
Proof.
  intros Hk. assert (Hp := pow2_pos k). assert (Hle := pow2_le k 42 Hk).
  change (pow2 42) with (2 ^ 42) in Hle. change MiB with (2 ^ 20).
  change (2 ^ 62) with (2 ^ 20 * 2 ^ 42). split; [lia|].
  apply Z.mul_le_mono_nonneg_l; lia.
Qed.

(** ** The monad *)

Lemma bind_assoc {S A B C} (m : M S A) (f : A -> M S B) (g : B -> M S C) s :
  bind (bind m f) g s = bind m (fun a => bind (f a) g) s.
Proof. unfold bind. destruct (m s) as [[a| | |] s']; reflexivity. Qed.

Lemma bind_ext {S A B} (m : M S A) (f g : A -> M S B) s :
  (forall a s', f a s' = g a s') -> bind m f s = bind m g s.
Proof. intros H. unfold bind. destruct (m s) as [[a| | |] s']; auto. Qed.

Lemma bind_cong {S A B} (m m' : M S A) (f : A -> M S B) s :
  m s = m' s -> bind m f s = bind m' f s.
Proof. intros H. unfold bind. rewrite H. reflexivity. Qed.

Lemma bind_ret_l {S A B} (a : A) (f : A -> M S B) s : bind (ret a) f s = f a s.
Proof. reflexivity. Qed.

Lemma run_calls_app {S} (probe : Z -> Z -> Z -> M S unit) l1 l2 s :
  run_calls probe (l1 ++ l2) s
  = bind (run_calls probe l1) (fun _ => run_calls probe l2) s.
Proof.
  revert s. induction l1 as [|c l1 IH]; intros s; cbn [run_calls app].
  - reflexivity.
  - rewrite bind_assoc. apply bind_ext. intros _ s'. apply IH.
Qed.

Lemma run_calls_record l w : run_calls record_call l w = (Ret tt, w ++ l).
Proof.
  revert w. induction l as [|[a m i] l IH]; intros w; cbn [run_calls].
  - unfold ret. rewrite app_nil_r. reflexivity.
  - unfold bind, record_call at 1. cbn [c_address c_modulo c_sequence].
    rewrite IH, <- app_assoc. reflexivity.
Qed.

(** ** Phase 1 *)

(** From the [k]-th doubling on, phase 1 makes the calls [doubling k n]
    whatever the probe does, for the [n] at which the address first
    exceeds [totalsize]. *)
Lemma phase1_calls T fuel :
  0 <= T < 2 ^ 62 ->
  forall k : nat,
    (k <= 42)%nat -> (43 <= k + fuel)%nat ->
    exists n : nat,
      T < MiB * pow2 (k + n) /\
      (forall j, (k <= j < k + n)%nat -> MiB * pow2 j <= T) /\
      forall S (probe : Z -> Z -> Z -> M S unit) (s : S),
        phase1 probe T fuel (MiB * pow2 k) (Z.of_nat k) s
        = bind (run_calls probe (doubling k n))
               (fun _ => ret (MiB * pow2 (k + n), Z.of_nat (k + n))) s.
Proof.
  intros HT. induction fuel as [|fuel IH]; intros k Hk Hf; [lia|].
  assert (Ho := MiB_pow2_bound k Hk).
  destruct (Z.leb_spec (MiB * pow2 k) T) as [Hin|Hout].
  - assert (Hk' : (k < 42)%nat).
    { destruct (Nat.eq_dec k 42%nat) as [->|]; [|lia].
      change (MiB * pow2 42) with (2 ^ 62) in Hin. lia. }
    destruct (IH (S k)) as (n & Hstop & Hall & Hrun); [lia|lia|].
    exists (S n). replace (k + S n)%nat with (S k + n)%nat by lia.
    split; [exact Hstop|]. split.
    + intros j Hj. destruct (Nat.eq_dec j k) as [->|]; [exact Hin|].
      apply Hall. lia.
    + intros S probe s. cbn [phase1].
      rewrite u64_small by lia.
      destruct (Z.leb_spec (MiB * pow2 k) T) as [_|]; [|lia].
      rewrite s64_small by lia. rewrite s32_small by lia.
      replace (MiB * pow2 k * 2) with (MiB * pow2 (Datatypes.S k))
        by (rewrite pow2_S; lia).
      replace (Z.of_nat k + 1) with (Z.of_nat (Datatypes.S k)) by lia.
      unfold doubling. cbn [seq map run_calls c_address c_modulo c_sequence].
      rewrite bind_assoc. rewrite Z.quot_div_nonneg by lia.
      apply bind_ext. intros _ s'. apply Hrun.
  - exists 0%nat. rewrite Nat.add_0_r. split; [lia|]. split; [lia|].
    intros S probe s. cbn [phase1]. rewrite u64_small by lia.
    destruct (Z.leb_spec (MiB * pow2 k) T) as [|_]; [lia|]. reflexivity.
Qed.

(** ** Phase 2 *)

(** Bisection from a lower bound at most [totalsize]. *)
Lemma phase2_calls T P fuel :
  0 <= T < 2 ^ 62 ->
  forall (m : nat) (o i : Z),
    (m < fuel)%nat -> 0 <= o <= T -> T - o <= MiB * pow2 m ->
    0 <= i -> i + Z.of_nat m < 2 ^ 31 ->
    exists l : list call,
      (length l <= m)%nat /\
      bisection T P o l /\
      Forall (fun c => o <= c_address c <= T) l /\
      forall S (probe : Z -> Z -> Z -> M S unit) (s : S),
        phase2 probe T fuel P o i s = run_calls probe l s.
Proof.
  intros HT. induction fuel as [|fuel IH]; intros m o i Hf Ho Hm Hi Him; [lia|].
  assert (Hsub : u64 (T - u64 o) = T - o).
  { rewrite (u64_small o) by lia. apply u64_small. lia. }
  destruct (Z.ltb_spec MiB (T - o)) as [Hfar|Hnear].
  - destruct m as [|m].
    { change (pow2 0) with 1 in Hm. lia. }
    rewrite pow2_S in Hm.
    assert (Hmid : o <= (o + T) / 2 <= T /\ T - (o + T) / 2 < T - o
                   /\ T - (o + T) / 2 <= MiB * pow2 m).
    { assert (H2 := Z.div_mod (o + T) 2 ltac:(lia)).
      assert (H3 := Z.mod_pos_bound (o + T) 2 ltac:(lia)).
      change MiB with 1048576 in *. lia. }
    destruct (IH m ((o + T) / 2) (i + 1)) as (l & Hlen & Hbis & Hrange & Hrun);
      try lia.
    exists (Call ((o + T) / 2) P (i + 1) :: l).
    split; [cbn [length]; lia|]. split.
    + cbn [bisection c_address c_modulo]. repeat split; try lia. exact Hbis.
    + split.
      * constructor; [cbn [c_address]; lia|].
        eapply Forall_impl; [exact Hrange|]. cbn beta. intros c Hc. lia.
      * intros S probe s. cbn [phase2 run_calls c_address c_modulo c_sequence].
        rewrite Hsub.
        destruct (Z.gtb_spec (T - o) MiB) as [_|]; [|lia].
        rewrite (u64_small o) by lia. rewrite (u64_small (o + T)) by lia.
        rewrite s64_small by lia. rewrite s32_small by lia.
        apply bind_ext. intros _ s'. apply Hrun.
  - exists []. split; [cbn; lia|]. split; [exact Hnear|]. split; [constructor|].
    intros S probe s. cbn [phase2 run_calls]. rewrite Hsub.
    destruct (Z.gtb_spec (T - o) MiB) as [|_]; [lia|]. reflexivity.
Qed.

(** Bisection from a bound above [totalsize]: the difference computed in
    [unsigned long long] wraps around and the loop runs until the bound has
    come down to [totalsize]. *)
Lemma phase2_calls_wrapped T P fuel :
  0 <= T < 2 ^ 62 ->
  forall (m : nat) (o i : Z),
    (m < fuel)%nat -> T <= o < 2 ^ 62 -> o - T < pow2 m ->
    0 <= i -> i + Z.of_nat m < 2 ^ 31 ->
    exists l : list call,
      (length l <= m)%nat /\
      Forall (fun c => T <= c_address c < o /\ c_modulo c = P) l /\
      (T < o -> l <> []) /\
      forall S (probe : Z -> Z -> Z -> M S unit) (s : S),
        phase2 probe T fuel P o i s = run_calls probe l s.
Proof.
  intros HT. induction fuel as [|fuel IH]; intros m o i Hf Ho Hm Hi Him; [lia|].
  destruct (Z.eq_dec o T) as [->|Hne].
  - exists []. split; [cbn; lia|]. split; [constructor|]. split; [lia|].
    intros S probe s. cbn [phase2 run_calls].
    rewrite (u64_small T) by lia. rewrite Z.sub_diag. reflexivity.
  - destruct m as [|m].
    { change (pow2 0) with 1 in Hm. lia. }
    rewrite pow2_S in Hm.
    assert (Hmid : T <= (o + T) / 2 < o /\ (o + T) / 2 - T < pow2 m).
    { assert (H2 := Z.div_mod (o + T) 2 ltac:(lia)).
      assert (H3 := Z.mod_pos_bound (o + T) 2 ltac:(lia)). lia. }
    destruct (IH m ((o + T) / 2) (i + 1)) as (l & Hlen & Hrange & _ & Hrun);
      try lia.
    exists (Call ((o + T) / 2) P (i + 1) :: l).
    split; [cbn [length]; lia|]. split; [|split; [discriminate|]].
    + constructor; [cbn [c_address c_modulo]; split; [lia|reflexivity]|].
      eapply Forall_impl; [exact Hrange|]. cbn beta. intros c Hc. lia.
    + intros S probe s. cbn [phase2 run_calls c_address c_modulo c_sequence].
      rewrite (u64_small o) by lia. rewrite (u64_negative (T - o)) by lia.
      destruct (Z.gtb_spec (T - o + 2 ^ 64) MiB) as [_|Hle];
        [|change MiB with 1048576 in Hle; lia].
      rewrite (u64_small (o + T)) by lia.
      rewrite s64_small by lia. rewrite s32_small by lia.
      apply bind_ext. intros _ s'. apply Hrun.
Qed.

Lemma bisection_modulo T P o l :
  bisection T P o l -> Forall (fun c => c_modulo c = P) l.
Proof.
  revert o. induction l as [|c l IH]; intros o H; [constructor|].
  destruct H as (_ & _ & Hm & _ & Hrest). constructor; [exact Hm|].
  exact (IH _ Hrest).
Qed.

(** ** The whole schedule *)

(** The calls of [main] for a device of less than 2^62 bytes: [n]
    doublings, then a list [l2] of bisections; the same calls whatever the
    probe does, as long as it returns. *)
Lemma size_test_calls T fuel :
  0 <= T < 2 ^ 62 -> (64 <= fuel)%nat ->
  exists (n : nat) (l2 : list call),
    (n <= 42)%nat /\
    T < MiB * pow2 n /\
    (forall j, (j < n)%nat -> MiB * pow2 j <= T) /\
    Forall (fun c => c_modulo c = MiB * pow2 n / 2) l2 /\
    (MiB / 2 <= T ->
     (length l2 <= n - 1)%nat /\
     bisection T (MiB * pow2 n / 2) (MiB * pow2 n / 2) l2 /\
     Forall (fun c => MiB * pow2 n / 2 <= c_address c <= T) l2) /\
    (T < MiB / 2 -> l2 <> [] /\ Forall (fun c => T <= c_address c < MiB / 2) l2) /\
    forall S (probe : Z -> Z -> Z -> M S unit) (s : S),
      size_test probe T fuel s
      = bind (run_calls probe (doubling 0 n ++ l2))
             (fun _ => exit 0 Finished) s.
Proof.
  intros HT Hfuel.
  destruct (phase1_calls T fuel HT 0) as (n & Hstop & Hall & Hrun1); [lia|lia|].
  cbn [Nat.add] in Hstop, Hall, Hrun1.
  assert (Hn : (n <= 42)%nat).
  { destruct (le_lt_dec n 42) as [|Hbig]; [assumption|].
    specialize (Hall 42%nat ltac:(lia)).
    change (MiB * pow2 42) with (2 ^ 62) in Hall. lia. }
  assert (Ho := MiB_pow2_bound n Hn).
  set (P := MiB * pow2 n / 2).
  assert (Hquot : Z.quot (MiB * pow2 n) 2 = P).
  { apply Z.quot_div_nonneg; lia. }
  assert (HP : 2 * P = MiB * pow2 n).
  { unfold P. destruct n as [|n].
    - reflexivity.
    - rewrite pow2_S. replace (MiB * (2 * pow2 n)) with (MiB * pow2 n * 2) by lia.
      rewrite Z.div_mul by lia. lia. }
  assert (HPdef : P = MiB * pow2 n / 2) by reflexivity.
  clearbody P.
  assert (Hrun : forall l2,
    (forall S (probe : Z -> Z -> Z -> M S unit) (s : S),
        phase2 probe T fuel P P (Z.of_nat n) s = run_calls probe l2 s) ->
    forall S (probe : Z -> Z -> Z -> M S unit) (s : S),
      size_test probe T fuel s
      = bind (run_calls probe (doubling 0 n ++ l2)) (fun _ => exit 0 Finished) s).
  { intros l2 Hrun2 S probe s. unfold size_test.
    rewrite (bind_cong _ _ _ s (Hrun1 S probe s)).
    rewrite bind_assoc. rewrite (bind_cong _ _ _ s (run_calls_app probe _ _ s)).
    rewrite bind_assoc. apply bind_ext. intros _ s'. rewrite bind_ret_l.
    rewrite (u64_small (MiB * pow2 n)) by lia.
    destruct (Z.eqb_spec (MiB * pow2 n) T) as [|_]; [lia|]. cbn [negb].
    rewrite Hquot. apply bind_cong. apply Hrun2. }
  destruct (Z.le_gt_cases (MiB / 2) T) as [Hbig|Hsmall].
  - assert (HPT : P <= T /\ T - P <= MiB * pow2 (n - 1)).
    { destruct n as [|n].
      - change (MiB / 2) with 524288 in Hbig. change MiB with 1048576 in *.
        change (pow2 0) with 1 in *. cbn [Nat.sub]. change (pow2 0) with 1. lia.
      - specialize (Hall n ltac:(lia)). rewrite pow2_S in HP, Hstop.
        replace (Datatypes.S n - 1)%nat with n by lia.
        change MiB with 1048576 in *. lia. }
    destruct (phase2_calls T P fuel HT (n - 1) P (Z.of_nat n))
      as (l2 & Hlen & Hbis & Hrange & Hrun2); try lia.
    exists n, l2. rewrite <- HPdef. split; [exact Hn|]. split; [exact Hstop|].
    split; [intros j Hj; apply Hall; lia|].
    split; [exact (bisection_modulo _ _ _ _ Hbis)|].
    split; [intros _; auto|]. split; [lia|]. exact (Hrun l2 Hrun2).
  - assert (Hn0 : n = 0%nat).
    { destruct n as [|n]; [reflexivity|]. specialize (Hall 0%nat ltac:(lia)).
      change (MiB * pow2 0) with 1048576 in Hall.
      change (MiB / 2) with 524288 in Hsmall. lia. }
    subst n. change (MiB * pow2 0 / 2) with 524288 in *.
    change (MiB / 2) with 524288 in *. subst P.
    destruct (phase2_calls_wrapped T 524288 fuel HT 20 524288 0)
      as (l2 & Hlen & Hrange & Hne & Hrun2); try lia.
    { change (pow2 20) with 1048576. lia. }
    exists 0%nat, l2. split; [lia|]. split; [exact Hstop|].
    split; [intros j Hj; lia|]. split.
    { eapply Forall_impl; [exact Hrange|]. cbn beta. intros c Hc. apply Hc. }
    split; [lia|]. split.
    { intros _. split; [apply Hne; lia|].
      eapply Forall_impl; [exact Hrange|]. cbn beta. intros c Hc. apply Hc. }
    exact (Hrun l2 Hrun2).
Qed.

(** ** The device transactions *)

Lemma bind_Ret_inv {S A B} (m : M S A) (f : A -> M S B) s b s' :
  bind m f s = (Ret b, s') ->
  exists a s1, m s = (Ret a, s1) /\ f a s1 = (Ret b, s').
Proof.
  unfold bind. destruct (m s) as [[a| | |] s1]; intros H; try discriminate.
  exists a, s1. split; [reflexivity|exact H].
Qed.

Lemma ret_pair_inv {S A B} (a a' : A) (b b' : B) (s s' : S) :
  ret (a, b) s = (Ret (a', b'), s') -> a = a' /\ b = b' /\ s = s'.
Proof. unfold ret. intros H. injection H. auto. Qed.

(** Unfolds one monadic step of a hypothesis [H : _ = (Ret _, _)]. *)
Ltac step_ret H :=
  let a := fresh "a" in
  let s1 := fresh "w" in
  let H1 := fresh "H" in
  apply bind_Ret_inv in H; destruct H as (a & s1 & H1 & H).

Section EngineFacts.
Context {D : Type} (dv : device D).

Lemma open_and_seek_ret address w fd w' :
  open_and_seek dv address w = (Ret fd, w') ->
  exists errno,
    log w' = EvSeek address address :: EvOpen fd errno :: log w.
Proof.
  unfold open_and_seek. intros H. step_ret H.
  unfold do_open in H0. destruct (sys_open dv (dev w)) as [[fd0 errno] d].
  injection H0 as <- <-.
  destruct (fd0 <? 0); [discriminate|]. step_ret H.
  unfold do_lseek in H0. cbn [dev log] in H0.
  destruct (sys_lseek dv fd0 address d) as [n d'].
  injection H0 as <- <-.
  destruct (n <? 0); [discriminate|].
  destruct (Z.eqb_spec n address) as [->|]; [|discriminate].
  cbn [negb] in H. injection H as <- <-. exists errno. reflexivity.
Qed.

Lemma sync_and_close_ret fd w u w' :
  sync_and_close dv fd w = (Ret u, w') ->
  log w' = EvClose 0 :: EvFsync 0 :: log w.
Proof.
  unfold sync_and_close. intros H. step_ret H.
  unfold do_fsync in H0. destruct (sys_fsync dv fd (dev w)) as [r d].
  injection H0 as <- <-.
  destruct (Z.eqb_spec r 0) as [->|]; [|discriminate]. cbn [negb] in H.
  step_ret H. unfold do_close in H0. cbn [dev log] in H0.
  destruct (sys_close dv fd d) as [r d'].
  injection H0 as <- <-.
  destruct (Z.eqb_spec r 0) as [->|]; [|discriminate]. cbn [negb] in H.
  injection H as _ <-. reflexivity.
Qed.

(** A read that returns has made its five system calls, each with the
    answer the program insists on, and has filled the buffer. *)
Lemma checkedread_ret address buf size w buf' w' :
  checkedread dv address buf size w = (Ret buf', w') ->
  exists fd errno data,
    Z.of_nat (length data) = size /\
    buf' = stored data buf /\
    log w' = EvClose 0 :: EvFsync 0 :: EvRead address size (Some data)
               :: EvSeek address address :: EvOpen fd errno :: log w.
Proof.
  unfold checkedread. intros H. step_ret H.
  apply open_and_seek_ret in H0. destruct H0 as (errno & Hlog).
  step_ret H. unfold do_read in H0.
  destruct (sys_read dv a size (dev w0)) as [got d].
  injection H0 as <- <-.
  destruct got as [data|]; [|discriminate].
  destruct (Z.eqb_spec (Z.of_nat (length data)) size) as [Hlen|]; [|discriminate].
  cbn [negb] in H. step_ret H. apply sync_and_close_ret in H0.
  injection H as <- <-. exists a, errno, data.
  split; [exact Hlen|]. split; [reflexivity|].
  rewrite H0. cbn [log]. rewrite Hlog. reflexivity.
Qed.

Lemma checkedwrite_ret address buf size w u w' :
  checkedwrite dv address buf size w = (Ret u, w') ->
  exists fd errno,
    log w' = EvClose 0 :: EvFsync 0
               :: EvWrite address size (take (Z.to_nat size) buf) size
               :: EvSeek address address :: EvOpen fd errno :: log w.
Proof.
  unfold checkedwrite. intros H. step_ret H.
  apply open_and_seek_ret in H0. destruct H0 as (errno & Hlog).
  step_ret H. unfold do_write in H0.
  destruct (sys_write dv a (take (Z.to_nat size) buf) (dev w0)) as [nn d].
  injection H0 as <- <-.
  destruct (nn <? 0); [discriminate|].
  destruct (Z.eqb_spec nn size) as [->|]; [|discriminate]. cbn [negb] in H.
  apply sync_and_close_ret in H. exists a, errno.
  rewrite H. cbn [log]. rewrite Hlog. reflexivity.
Qed.

Lemma take_stored (data buf : list Z) size :
  Z.of_nat (length data) = size -> take (Z.to_nat size) (stored data buf) = data.
Proof.
  intros <-. rewrite Nat2Z.id. unfold stored. apply take_app_length.
Qed.

(** The reads and writes of a probe that got through all of them, in the
    order they were made, and the two counters. *)
Lemma readbacktest_counts_ret blocksize fr address modulo i w mismatch corruption w' :
  readbacktest_counts dv blocksize fr address modulo i w
  = (Ret (mismatch, corruption), w') ->
  exists prev orig back again : list Z,
    Z.of_nat (length prev) = blocksize /\
    Z.of_nat (length orig) = blocksize /\
    Z.of_nat (length back) = blocksize /\
    Z.of_nat (length again) = blocksize /\
    modulo <> 0 /\
    mismatch
    = differ_loop (Z.to_nat MAXBLOCKSIZE) 0 (stored back (readbackdata0 fr))
        (fill_pattern blocksize i (writedata0 fr)) 0 /\
    corruption
    = differ_loop (Z.to_nat blocksize) 0
        (stored again (stored back (readbackdata0 fr)))
        (stored prev (prevdata0 fr)) 0 /\
    transfers (history w')
    = transfers (history w) ++
      [EvRead (shadow_address blocksize address modulo) blocksize (Some prev);
       EvRead (probed_address blocksize address) blocksize (Some orig);
       EvWrite (probed_address blocksize address) blocksize
         (take (Z.to_nat blocksize) (fill_pattern blocksize i (writedata0 fr)))
         blocksize;
       EvRead (probed_address blocksize address) blocksize (Some back);
       EvWrite (probed_address blocksize address) blocksize orig blocksize;
       EvRead (shadow_address blocksize address modulo) blocksize (Some again)]
      ++ (if corruption =? 0 then []
          else [EvWrite (probed_address blocksize address) blocksize prev
                  blocksize]).
Proof.
  unfold readbacktest_counts, shadow_address. intros H.
  set (A := probed_address blocksize address) in *.
  set (old := Z.rem A modulo) in *.
  destruct (Z.eqb_spec modulo 0) as [|Hmod]; [discriminate|].
  cbn [orb] in H.
  destruct ((A =? - 2 ^ 63) && (modulo =? -1)); [discriminate|].
  step_ret H. apply checkedread_ret in H0.
  destruct H0 as (fd1 & e1 & prev & Lprev & -> & Hlog1).
  step_ret H. apply checkedread_ret in H0.
  destruct H0 as (fd2 & e2 & orig & Lorig & -> & Hlog2).
  step_ret H. apply checkedwrite_ret in H0.
  destruct H0 as (fd3 & e3 & Hlog3).
  step_ret H. apply checkedread_ret in H0.
  destruct H0 as (fd4 & e4 & back & Lback & -> & Hlog4).
  step_ret H. apply checkedwrite_ret in H0.
  destruct H0 as (fd5 & e5 & Hlog5).
  step_ret H. apply checkedread_ret in H0.
  destruct H0 as (fd6 & e6 & again & Lagain & -> & Hlog6).
  step_ret H. apply ret_pair_inv in H. destruct H as (Hmm & Hcc & <-).
  rewrite (take_stored orig _ _ Lorig) in Hlog5.
  exists prev, orig, back, again.
  split; [exact Lprev|]. split; [exact Lorig|]. split; [exact Lback|].
  split; [exact Lagain|]. split; [exact Hmod|].
  split; [symmetry; exact Hmm|]. split; [symmetry; exact Hcc|].
  rewrite Hcc in H0. clear Hmm Hcc.
  destruct (Z.eqb_spec corruption 0) as [Hc|Hc]; cbn [negb] in H0.
  - injection H0 as _ <-. unfold history.
    rewrite Hlog6, Hlog5, Hlog4, Hlog3, Hlog2, Hlog1.
    cbn [rev app]. unfold transfers. rewrite !List.filter_app.
    cbn [List.filter is_transfer app].
    rewrite <- !app_assoc. reflexivity.
  - apply checkedwrite_ret in H0. destruct H0 as (fd7 & e7 & Hlog7).
    rewrite (take_stored prev _ _ Lprev) in Hlog7. unfold history.
    rewrite Hlog7, Hlog6, Hlog5, Hlog4, Hlog3, Hlog2, Hlog1.
    cbn [rev app]. unfold transfers. rewrite !List.filter_app.
    cbn [List.filter is_transfer app].
    rewrite <- !app_assoc. reflexivity.
Qed.

End EngineFacts.

(** ** Short transfers end the program *)

Lemma no_short_cons e l :
  ~ short_transfer e -> no_short_transfer l -> no_short_transfer (e :: l).
Proof.
  intros He Hl e' [<-|Hin]; [exact He|]. apply Hl. exact Hin.
Qed.

Section Careful.
Context {D : Type} (dv : device D).

Lemma careful_ret {A} (a : A) : careful (ret (S:=world D) a).
Proof. intros w Hw. left. exact Hw. Qed.

Lemma careful_exit {A} status site : careful (exit (S:=world D) (A:=A) status site).
Proof. intros w Hw. left. exact Hw. Qed.

Lemma careful_fault {A} : careful (fault (S:=world D) (A:=A)).
Proof. intros w Hw. left. exact Hw. Qed.

Lemma careful_out_of_fuel {A} : careful (out_of_fuel (S:=world D) (A:=A)).
Proof. intros w Hw. left. exact Hw. Qed.

Lemma careful_bind {A B} (m : M (world D) A) (f : A -> M (world D) B) :
  careful m -> (forall a, careful (f a)) -> careful (bind m f).
Proof.
  intros Hm Hf w Hw. specialize (Hm w Hw). unfold bind.
  destruct (m w) as [r w1]. destruct Hm as [Hclean|(e & rest & Hlog & He & Hrest & Hr)].
  - cbn [snd] in Hclean. destruct r as [a| | |].
    + apply Hf. exact Hclean.
    + left. exact Hclean.
    + left. exact Hclean.
    + left. exact Hclean.
  - cbn [fst snd] in Hlog, Hr.
    destruct Hr as [-> | ->]; right; exists e, rest; cbn [fst snd]; auto.
Qed.

Lemma careful_do_open : careful (do_open dv).
Proof.
  intros w Hw. left. unfold do_open.
  destruct (sys_open dv (dev w)) as [[fd errno] d]. cbn [snd log].
  apply no_short_cons; [intros []|exact Hw].
Qed.

Lemma careful_do_lseek fd address : careful (do_lseek dv fd address).
Proof.
  intros w Hw. left. unfold do_lseek.
  destruct (sys_lseek dv fd address (dev w)) as [n d]. cbn [snd log].
  apply no_short_cons; [intros []|exact Hw].
Qed.

Lemma careful_do_fsync fd : careful (do_fsync dv fd).
Proof.
  intros w Hw. left. unfold do_fsync.
  destruct (sys_fsync dv fd (dev w)) as [n d]. cbn [snd log].
  apply no_short_cons; [intros []|exact Hw].
Qed.

Lemma careful_do_close fd : careful (do_close dv fd).
Proof.
  intros w Hw. left. unfold do_close.
  destruct (sys_close dv fd (dev w)) as [n d]. cbn [snd log].
  apply no_short_cons; [intros []|exact Hw].
Qed.

Lemma careful_open_and_seek address : careful (open_and_seek dv address).
Proof.
  unfold open_and_seek. apply careful_bind; [apply careful_do_open|].
  intros [fd errno]. destruct (fd <? 0); [apply careful_exit|].
  apply careful_bind; [apply careful_do_lseek|]. intros n.
  destruct (n <? 0); [apply careful_exit|].
  destruct (negb (n =? address)); [apply careful_exit|apply careful_ret].
Qed.

Lemma careful_sync_and_close fd : careful (sync_and_close dv fd).
Proof.
  unfold sync_and_close. apply careful_bind; [apply careful_do_fsync|].
  intros r. destruct (negb (r =? 0)); [apply careful_exit|].
  apply careful_bind; [apply careful_do_close|]. intros r'.
  destruct (negb (r' =? 0)); [apply careful_exit|apply careful_ret].
Qed.

Lemma careful_checkedread address buf size :
  careful (checkedread dv address buf size).
Proof.
  unfold checkedread. apply careful_bind; [apply careful_open_and_seek|].
  intros fd w Hw. unfold bind at 1, do_read.
  destruct (sys_read dv fd size (dev w)) as [[data|] d].
  - destruct (Z.eqb_spec (Z.of_nat (length data)) size) as [Hlen|Hlen];
      cbn [negb].
    + apply (careful_bind (sync_and_close dv fd) (fun _ => ret (stored data buf))).
      * apply careful_sync_and_close.
      * intros _. apply careful_ret.
      * cbn [log]. apply no_short_cons; [|exact Hw]. cbn. lia.
    + unfold exit. destruct (Z.lt_ge_cases (Z.of_nat (length data)) size) as [Hlt|Hge].
      * right. exists (EvRead address size (Some data)), (log w).
        cbn [fst snd log]. repeat split; auto.
      * left. cbn [snd log]. apply no_short_cons; [|exact Hw]. cbn. lia.
  - left. cbn [snd log]. apply no_short_cons; [|exact Hw]. intros [].
Qed.

Lemma careful_checkedwrite address buf size :
  careful (checkedwrite dv address buf size).
Proof.
  unfold checkedwrite. apply careful_bind; [apply careful_open_and_seek|].
  intros fd w Hw. unfold bind at 1, do_write.
  destruct (sys_write dv fd (take (Z.to_nat size) buf) (dev w)) as [nn d].
  destruct (Z.ltb_spec nn 0) as [Hneg|Hpos].
  - left. cbn [snd log]. apply no_short_cons; [|exact Hw]. cbn. lia.
  - destruct (Z.eqb_spec nn size) as [->|Hne]; cbn [negb].
    + apply careful_sync_and_close. cbn [log].
      apply no_short_cons; [|exact Hw]. cbn. lia.
    + unfold exit. destruct (Z.lt_ge_cases nn size) as [Hlt|Hge].
      * right. exists (EvWrite address size (take (Z.to_nat size) buf) nn), (log w).
        cbn [fst snd log]. repeat split; auto.
      * left. cbn [snd log]. apply no_short_cons; [|exact Hw]. cbn. lia.
Qed.

Lemma careful_readbacktest blocksize fr address modulo i :
  careful (readbacktest dv blocksize fr address modulo i).
Proof.
  unfold readbacktest. apply careful_bind.
  - unfold readbacktest_counts.
    destruct ((modulo =? 0) || _); [apply careful_fault|].
    apply careful_bind; [apply careful_checkedread|]. intros prevdata.
    apply careful_bind; [apply careful_checkedread|]. intros originalreaddata.
    apply careful_bind; [apply careful_checkedwrite|]. intros _.
    apply careful_bind; [apply careful_checkedread|]. intros readbackdata.
    apply careful_bind; [apply careful_checkedwrite|]. intros _.
    apply careful_bind; [apply careful_checkedread|]. intros readbackdata'.
    apply careful_bind; [|intros _; apply careful_ret].
    destruct (negb _); [apply careful_checkedwrite|apply careful_ret].
  - intros [mismatch corruption].
    destruct (_ || _); [apply careful_exit|apply careful_ret].
Qed.

(** The scheduler keeps what the probe keeps. *)
Lemma careful_phase1 (probe : Z -> Z -> Z -> M (world D) unit) T fuel :
  (forall a m i, careful (probe a m i)) ->
  forall offset i, careful (phase1 probe T fuel offset i).
Proof.
  intros Hp. induction fuel as [|fuel IH]; intros offset i; cbn [phase1].
  - apply careful_out_of_fuel.
  - destruct (u64 offset <=? T); [|apply careful_ret].
    apply careful_bind; [apply Hp|]. intros _. apply IH.
Qed.

Lemma careful_phase2 (probe : Z -> Z -> Z -> M (world D) unit) T fuel :
  (forall a m i, careful (probe a m i)) ->
  forall modulo offset i, careful (phase2 probe T fuel modulo offset i).
Proof.
  intros Hp. induction fuel as [|fuel IH]; intros modulo offset i; cbn [phase2].
  - apply careful_out_of_fuel.
  - destruct (_ >? MiB); [|apply careful_ret].
    apply careful_bind; [apply Hp|]. intros _. apply IH.
Qed.

Lemma careful_size_test (probe : Z -> Z -> Z -> M (world D) unit) T fuel :
  (forall a m i, careful (probe a m i)) ->
  careful (size_test probe T fuel).
Proof.
  intros Hp. unfold size_test.
  apply careful_bind; [apply careful_phase1; exact Hp|]. intros [offset i].
  apply careful_bind; [|intros _; apply careful_exit].
  destruct (negb _); [apply careful_phase2; exact Hp|apply careful_ret].
Qed.

End Careful.

(** ** The test pattern and the counting loops *)

Lemma uchar_rem x : uchar (Z.rem x 256) = x mod 256.
Proof.
  unfold uchar. rewrite (Z.quot_rem' x 256) at 2.
  rewrite Z.add_comm, Z.mul_comm, Z.mod_add by lia. reflexivity.
Qed.

Lemma fill_loop_length steps n i wd :
  length (fill_loop steps n i wd) = length wd.
Proof.
  revert n wd. induction steps as [|steps IH]; intros n wd; cbn [fill_loop].
  - reflexivity.
  - rewrite IH. apply length_insert.
Qed.

Lemma fill_loop_lookup steps n i (wd : list Z) (j : nat) :
  (n + steps <= length wd)%nat ->
  fill_loop steps n i wd !! j
  = if decide (n <= j < n + steps)%nat
    then Some ((i + Z.of_nat j) mod 256)
    else wd !! j.
Proof.
  revert n wd. induction steps as [|steps IH]; intros n wd Hlen; cbn [fill_loop].
  - destruct (decide _) as [H|H]; [lia|reflexivity].
  - rewrite IH by (rewrite length_insert; lia).
    destruct (decide (S n <= j < S n + steps)%nat) as [H1|H1];
      destruct (decide (n <= j < n + S steps)%nat) as [H2|H2];
      try reflexivity; try lia.
    + assert (j = n) as -> by lia.
      rewrite list_lookup_insert_eq by lia. rewrite uchar_rem. reflexivity.
    + rewrite list_lookup_insert_ne by lia. reflexivity.
Qed.

Lemma differ_loop_count steps n a b count :
  differ_loop steps n a b count
  = count
    + Z.of_nat
        (length
           (List.filter (fun k : nat => negb (at_index a k =? at_index b k))
              (seq n steps))).
Proof.
  revert n count. induction steps as [|steps IH]; intros n count;
    cbn [differ_loop seq List.filter].
  - cbn [length]. lia.
  - rewrite IH. destruct (at_index a n =? at_index b n); cbn [negb length]; lia.
Qed.

Lemma differ_loop_split s1 s2 n a b count :
  differ_loop (s1 + s2) n a b count
  = differ_loop s2 (n + s1) a b (differ_loop s1 n a b count).
Proof.
  revert n count. induction s1 as [|s1 IH]; intros n count.
  - cbn [Nat.add differ_loop]. rewrite Nat.add_0_r. reflexivity.
  - cbn [Nat.add differ_loop]. rewrite IH. f_equal. lia.
Qed.

Lemma differ_loop_bounds steps n a b count :
  count <= differ_loop steps n a b count <= count + Z.of_nat steps.
Proof.
  revert n count. induction steps as [|steps IH]; intros n count;
    cbn [differ_loop].
  - lia.
  - specialize (IH (S n) (if at_index a n =? at_index b n then count else count + 1)).
    destruct (at_index a n =? at_index b n); lia.
Qed.

(** The counter depends on the bytes in the range of the loop only. *)
Lemma differ_loop_ext steps n a b a' b' count :
  (forall k, (n <= k < n + steps)%nat ->
             at_index a k = at_index a' k /\ at_index b k = at_index b' k) ->
  differ_loop steps n a b count = differ_loop steps n a' b' count.
Proof.
  revert n count. induction steps as [|steps IH]; intros n count H;
    cbn [differ_loop]; [reflexivity|].
  destruct (H n ltac:(lia)) as [-> ->]. apply IH. intros k Hk. apply H. lia.
Qed.

Lemma differ_loop_same steps n a count :
  differ_loop steps n a a count = count.
Proof.
  revert n count. induction steps as [|steps IH]; intros n count;
    cbn [differ_loop]; [reflexivity|].
  rewrite Z.eqb_refl. apply IH.
Qed.

Lemma at_index_stored_lt data buf k :
  (k < length data)%nat -> at_index (stored data buf) k = at_index data k.
Proof.
  intros H. unfold at_index, stored. rewrite !list_lookup_total_alt.
  rewrite lookup_app_l by exact H. reflexivity.
Qed.

Lemma at_index_stored_ge data buf k :
  (length data <= k)%nat -> (length data <= length buf)%nat ->
  at_index (stored data buf) k = at_index buf k.
Proof.
  intros H Hb. unfold at_index, stored. rewrite !list_lookup_total_alt.
  rewrite lookup_app_r by exact H. rewrite lookup_drop.
  replace (length data + (k - length data))%nat with k by lia. reflexivity.
Qed.

(** ** The addresses a computation touches *)

Section Confined.
Context {D : Type} (dv : device D).

Lemma confined_weaken {A} (P Q : Z -> Prop) (m : M (world D) A) :
  (forall a, P a -> Q a) -> confined P m -> confined Q m.
Proof.
  intros HPQ Hm w. destruct (Hm w) as (new & Hlog & Hall).
  exists new. split; [exact Hlog|]. intros e a He Ha. apply HPQ. eauto.
Qed.

Lemma confined_ret {A} P (a : A) : confined P (ret (S:=world D) a).
Proof. intros w. exists []. split; [reflexivity|]. intros e a' []. Qed.

Lemma confined_exit {A} P status site :
  confined P (exit (S:=world D) (A:=A) status site).
Proof. intros w. exists []. split; [reflexivity|]. intros e a' []. Qed.

Lemma confined_fault {A} P : confined P (fault (S:=world D) (A:=A)).
Proof. intros w. exists []. split; [reflexivity|]. intros e a' []. Qed.

Lemma confined_out_of_fuel {A} P : confined P (out_of_fuel (S:=world D) (A:=A)).
Proof. intros w. exists []. split; [reflexivity|]. intros e a' []. Qed.

Lemma confined_bind {A B} P (m : M (world D) A) (f : A -> M (world D) B) :
  confined P m -> (forall a, confined P (f a)) -> confined P (bind m f).
Proof.
  intros Hm Hf w. destruct (Hm w) as (new & Hlog & Hall). unfold bind.
  destruct (m w) as [r w1]. cbn [snd] in Hlog.
  destruct r as [a| | |]; try (exists new; split; [exact Hlog|exact Hall]).
  destruct (Hf a w1) as (new' & Hlog' & Hall').
  exists (new' ++ new). split.
  - rewrite Hlog', Hlog, app_assoc. reflexivity.
  - intros e a' He. apply in_app_or in He. destruct He; eauto.
Qed.

(** One logged system call. *)
Lemma confined_one {A} P (m : M (world D) A) :
  (forall w, exists e, log (snd (m w)) = e :: log w /\
                       forall a, event_address e = Some a -> P a) ->
  confined P m.
Proof.
  intros H w. destruct (H w) as (e & Hlog & He). exists [e].
  split; [exact Hlog|]. intros e' a [<-|[]]. apply He.
Qed.

Lemma confined_do_open P : confined P (do_open dv).
Proof.
  apply confined_one. intros w. unfold do_open.
  destruct (sys_open dv (dev w)) as [[fd errno] d].
  eexists. split; [reflexivity|]. discriminate.
Qed.

Lemma confined_do_lseek (P : Z -> Prop) fd address :
  P address -> confined P (do_lseek dv fd address).
Proof.
  intros HP. apply confined_one. intros w. unfold do_lseek.
  destruct (sys_lseek dv fd address (dev w)) as [n d].
  eexists. split; [reflexivity|]. intros a [= <-]. exact HP.
Qed.

Lemma confined_do_read (P : Z -> Prop) fd address size :
  P address -> confined P (do_read dv fd address size).
Proof.
  intros HP. apply confined_one. intros w. unfold do_read.
  destruct (sys_read dv fd size (dev w)) as [got d].
  eexists. split; [reflexivity|]. intros a [= <-]. exact HP.
Qed.

Lemma confined_do_write (P : Z -> Prop) fd address size data :
  P address -> confined P (do_write dv fd address size data).
Proof.
  intros HP. apply confined_one. intros w. unfold do_write.
  destruct (sys_write dv fd data (dev w)) as [nn d].
  eexists. split; [reflexivity|]. intros a [= <-]. exact HP.
Qed.

Lemma confined_do_fsync P fd : confined P (do_fsync dv fd).
Proof.
  apply confined_one. intros w. unfold do_fsync.
  destruct (sys_fsync dv fd (dev w)) as [r d].
  eexists. split; [reflexivity|]. discriminate.
Qed.

Lemma confined_do_close P fd : confined P (do_close dv fd).
Proof.
  apply confined_one. intros w. unfold do_close.
  destruct (sys_close dv fd (dev w)) as [r d].
  eexists. split; [reflexivity|]. discriminate.
Qed.

Lemma confined_open_and_seek (P : Z -> Prop) address :
  P address -> confined P (open_and_seek dv address).
Proof.
  intros HP. unfold open_and_seek.
  apply confined_bind; [apply confined_do_open|].
  intros [fd errno]. destruct (fd <? 0); [apply confined_exit|].
  apply confined_bind; [apply confined_do_lseek; exact HP|]. intros n.
  destruct (n <? 0); [apply confined_exit|].
  destruct (negb (n =? address)); [apply confined_exit|apply confined_ret].
Qed.

Lemma confined_sync_and_close P fd : confined P (sync_and_close dv fd).
Proof.
  unfold sync_and_close. apply confined_bind; [apply confined_do_fsync|].
  intros r. destruct (negb (r =? 0)); [apply confined_exit|].
  apply confined_bind; [apply confined_do_close|]. intros r'.
  destruct (negb (r' =? 0)); [apply confined_exit|apply confined_ret].
Qed.

Lemma confined_checkedread (P : Z -> Prop) address buf size :
  P address -> confined P (checkedread dv address buf size).
Proof.
  intros HP. unfold checkedread.
  apply confined_bind; [apply confined_open_and_seek; exact HP|]. intros fd.
  apply confined_bind; [apply confined_do_read; exact HP|]. intros [data|];
    [|apply confined_exit].
  destruct (negb _); [apply confined_exit|].
  apply confined_bind; [apply confined_sync_and_close|].
  intros _. apply confined_ret.
Qed.

Lemma confined_checkedwrite (P : Z -> Prop) address buf size :
  P address -> confined P (checkedwrite dv address buf size).
Proof.
  intros HP. unfold checkedwrite.
  apply confined_bind; [apply confined_open_and_seek; exact HP|]. intros fd.
  apply confined_bind; [apply confined_do_write; exact HP|]. intros nn.
  destruct (nn <? 0); [apply confined_exit|].
  destruct (negb _); [apply confined_exit|apply confined_sync_and_close].
Qed.

(** Whatever happens to it, a probe seeks, reads and writes at two
    addresses only. *)
Lemma confined_readbacktest blocksize fr address modulo i :
  confined (fun a => a = probed_address blocksize address \/
                     a = shadow_address blocksize address modulo)
           (readbacktest dv blocksize fr address modulo i).
Proof.
  unfold readbacktest. apply confined_bind.
  - unfold readbacktest_counts, shadow_address.
    destruct ((modulo =? 0) || _); [apply confined_fault|].
    apply confined_bind; [apply confined_checkedread; auto|]. intros prevdata.
    apply confined_bind; [apply confined_checkedread; auto|]. intros orig.
    apply confined_bind; [apply confined_checkedwrite; auto|]. intros _.
    apply confined_bind; [apply confined_checkedread; auto|]. intros back.
    apply confined_bind; [apply confined_checkedwrite; auto|]. intros _.
    apply confined_bind; [apply confined_checkedread; auto|]. intros again.
    apply confined_bind; [|intros _; apply confined_ret].
    destruct (negb _); [apply confined_checkedwrite; auto|apply confined_ret].
  - intros [mismatch corruption].
    destruct (_ || _); [apply confined_exit|apply confined_ret].
Qed.

Lemma confined_run_calls (P : Z -> Prop) (probe : Z -> Z -> Z -> M (world D) unit) l :
  Forall (fun c => confined P (probe (c_address c) (c_modulo c) (c_sequence c))) l ->
  confined P (run_calls probe l).
Proof.
  induction 1 as [|c l Hc _ IH]; cbn [run_calls].
  - apply confined_ret.
  - apply confined_bind; [exact Hc|]. intros _. exact IH.
Qed.

End Confined.

Lemma shadow_address_below blocksize address modulo :
  0 < modulo -> shadow_address blocksize address modulo < modulo.
Proof.
  intros Hm. unfold shadow_address.
  assert (H := Z.rem_bound_abs (probed_address blocksize address) modulo ltac:(lia)).
  lia.
Qed.

Lemma probed_address_exact blocksize address :
  0 <= blocksize <= address -> address < 2 ^ 63 ->
  probed_address blocksize address = address - blocksize.
Proof.
  intros H1 H2. unfold probed_address.
  rewrite u64_small by lia. apply s64_small. lia.
Qed.

Lemma shadow_address_exact blocksize address modulo :
  0 <= blocksize <= address -> address < 2 ^ 63 -> 0 < modulo ->
  shadow_address blocksize address modulo = (address - blocksize) mod modulo.
Proof.
  intros H1 H2 H3. unfold shadow_address.
  rewrite probed_address_exact by lia. apply Z.rem_mod_nonneg; lia.
Qed.

(** * The claims of the specification *)

(** Splits a conjunction of closed equations and comparisons and settles
    each one by evaluation. *)
Ltac split_evaluate :=
  repeat match goal with |- _ /\ _ => split end; vm_compute; reflexivity.

(** The first [blocksize] bytes of the buffer after the pattern loop, in
    closed form. *)
Lemma fill_pattern_take blocksize i (writedata : list Z) :
  0 <= blocksize <= MAXBLOCKSIZE -> array_ok writedata ->
  take (Z.to_nat blocksize) (fill_pattern blocksize i writedata)
  = map (fun n : nat => (i + Z.of_nat n) mod 256) (seq 0 (Z.to_nat blocksize)).
Proof.
  intros Hb Hw. unfold array_ok in Hw. unfold fill_pattern.
  assert (Hle : (Z.to_nat blocksize <= length writedata)%nat).
  { rewrite Hw. apply Z2Nat.inj_le; lia. }
  apply list_eq. intros j.
  destruct (decide (j < Z.to_nat blocksize)%nat) as [Hj|Hj].
  - rewrite lookup_take_lt by exact Hj.
    rewrite fill_loop_lookup by (cbn [Nat.add]; exact Hle).
    destruct (decide _) as [_|Hn]; [|lia].
    change (map ?f ?l) with (f <$> l). rewrite list_lookup_fmap.
    rewrite lookup_seq_lt by exact Hj. reflexivity.
  - rewrite lookup_take_ge by lia.
    change (map ?f ?l) with (f <$> l). rewrite list_lookup_fmap.
    rewrite lookup_seq_ge by lia. reflexivity.
Qed.

(** C9: for every sequence value the pattern generated by the loop of
    [readbacktest] has byte [n] equal to [(sequence + n) mod 256] for every
    [n] below [blocksize], and the bytes that are written to the device are
    the same for any two calls with the same sequence value and block size,
    whatever the stack held before. *)
Theorem pattern_is_sequence_plus_index blocksize i (writedata other : list Z) :
  0 <= blocksize <= MAXBLOCKSIZE -> array_ok writedata -> array_ok other ->
  (forall n : nat,
      Z.of_nat n < blocksize ->
      fill_pattern blocksize i writedata !! n
      = Some ((i + Z.of_nat n) mod 256)) /\
  take (Z.to_nat blocksize) (fill_pattern blocksize i writedata)
  = take (Z.to_nat blocksize) (fill_pattern blocksize i other).
Proof.
  intros Hb Hw Ho. split.
  - intros n Hn. unfold fill_pattern.
    rewrite fill_loop_lookup.
    + destruct (decide _) as [_|Hbad]; [reflexivity|lia].
    + unfold array_ok in Hw. rewrite Hw. cbn [Nat.add].
      apply Z2Nat.inj_le; lia.
  - rewrite !fill_pattern_take by assumption. reflexivity.
Qed.

Lemma pattern_is_sequence_plus_index_witness :
  (forall n : nat,
      Z.of_nat n < 512 ->
      fill_pattern 512 7 zeros !! n = Some ((7 + Z.of_nat n) mod 256)) /\
  take (Z.to_nat 512) (fill_pattern 512 7 zeros)
  = take (Z.to_nat 512) (fill_pattern 512 7 (readbackdata0 dirty_frame)).
Proof.
  apply pattern_is_sequence_plus_index.
  - unfold MAXBLOCKSIZE. lia.
  - reflexivity.
  - vm_compute. reflexivity.
Defined.

Lemma doubling_lookup k n (j : nat) c :
  doubling k n !! j = Some c ->
  (j < n)%nat /\
  c = Call (MiB * pow2 (k + j)) (MiB * pow2 (k + j) / 2) (Z.of_nat (k + j)).
Proof.
  unfold doubling. change (map ?f ?l) with (f <$> l).
  rewrite list_lookup_fmap. intros H.
  destruct (seq k n !! j) as [x|] eqn:Hx; [|discriminate].
  apply lookup_seq in Hx. destruct Hx as [-> Hj]. cbn in H.
  injection H as <-. split; [exact Hj|reflexivity].
Qed.

Lemma doubling_length k n : length (doubling k n) = n.
Proof. unfold doubling. rewrite length_map. apply length_seq. Qed.



(** For [totalsize] from 1 MiB up to 2^62, phase 2 runs with the
    modulus fixed at the address [P] of the last probe of phase 1; every
    iteration is entered with more than 1 MiB between the lower bound and
    [totalsize], probes the midpoint of the two, and leaves a strictly
    smaller interval; the loop stops with at most 1 MiB left, after at most
    [log2 (totalsize / 1 MiB)] iterations. *)
Theorem phase2_bisects_and_converges T fuel :
  MiB <= T < 2 ^ 62 -> (64 <= fuel)%nat ->
  exists (n : nat) (l2 : list call),
    let P := MiB * pow2 n in
    (forall S (probe : Z -> Z -> Z -> M S unit) (s : S),
        size_test probe T fuel s
        = bind (run_calls probe (doubling 0 (Datatypes.S n) ++ l2))
               (fun _ => exit 0 Finished) s) /\
    (c_address <$> last (doubling 0 (Datatypes.S n))) = Some P /\
    bisection T P P l2 /\
    Z.of_nat (length l2) <= Z.log2 (T / MiB).
Proof.
  intros HT Hfuel.
  destruct (size_test_calls T fuel ltac:(unfold MiB in HT; lia) Hfuel)
    as (n & l2 & Hn & Hstop & Hall & _ & Hbig & _ & Hrun).
  destruct n as [|n].
  { change (MiB * pow2 0) with MiB in Hstop. lia. }
  assert (HP : MiB * pow2 (Datatypes.S n) / 2 = MiB * pow2 n).
  { rewrite pow2_S. replace (MiB * (2 * pow2 n)) with (MiB * pow2 n * 2) by lia.
    apply Z.div_mul. lia. }
  rewrite HP in Hbig.
  destruct Hbig as (Hlen & Hbis & _).
  { change (MiB / 2) with 524288. change MiB with 1048576 in HT. lia. }
  exists n, l2. cbv zeta. split; [exact Hrun|]. split; [|split; [exact Hbis|]].
  - unfold doubling. change (map ?f ?l) with (f <$> l).
    rewrite fmap_last. rewrite seq_S, last_snoc. reflexivity.
  - specialize (Hall n ltac:(lia)).
    assert (Hp := pow2_pos n).
    assert (Hdiv : pow2 n <= T / MiB).
    { apply Z.div_le_lower_bound; [reflexivity|lia]. }
    assert (Hlog : Z.log2 (pow2 n) = Z.of_nat n).
    { unfold pow2. apply Z.log2_pow2. lia. }
    assert (Hmono := Z.log2_le_mono _ _ Hdiv). lia.
Qed.

Lemma phase2_bisects_and_converges_witness :
  exists (n : nat) (l2 : list call),
    let P := MiB * pow2 n in
    (forall S (probe : Z -> Z -> Z -> M S unit) (s : S),
        size_test probe (7 * MiB) 64 s
        = bind (run_calls probe (doubling 0 (Datatypes.S n) ++ l2))
               (fun _ => exit 0 Finished) s) /\
    (c_address <$> last (doubling 0 (Datatypes.S n))) = Some P /\
    bisection (7 * MiB) P P l2 /\
    Z.of_nat (length l2) <= Z.log2 (7 * MiB / MiB).
Proof.
  apply phase2_bisects_and_converges.
  - unfold MiB. lia.
  - lia.
Defined.

(** ** The first transfer of a probe *)

Section FirstTransfer.
Context {D : Type} (dv : device D).

Lemma begins_with_read_bind {A B} old size (m : M (world D) A)
    (f : A -> M (world D) B) :
  begins_with_read old size m ->
  (forall a, confined (fun _ => True) (f a)) ->
  begins_with_read old size (bind m f).
Proof.
  intros Hm Hf w. destruct (Hm w) as (new & Hlog & Hstart & Hret).
  unfold bind. destruct (m w) as [[a| | |] w1]; cbn [fst snd] in *;
    try (exists new; split; [exact Hlog|]; split; [exact Hstart|];
         intros b Hb; discriminate Hb).
  destruct (Hret a eq_refl) as (fd & errno & got & rest & ->).
  destruct (Hf a w1) as (more & Hmore & _).
  exists (EvOpen fd errno :: EvSeek old old :: EvRead old size got
            :: rest ++ rev more).
  assert (Hall : history (snd (f a w1))
                 = history w ++ EvOpen fd errno :: EvSeek old old
                     :: EvRead old size got :: rest ++ rev more).
  { unfold history in *. rewrite Hmore, rev_app_distr, Hlog, <- app_assoc.
    reflexivity. }
  split; [exact Hall|]. split.
  - right. right. eauto.
  - intros b _. eauto.
Qed.

Lemma checkedread_begins address buf size (w : world D) :
  match checkedread dv address buf size w with
  | (r, w') =>
      exists new,
        history w' = history w ++ new /\
        starts_with_read_at address size new /\
        forall a, r = Ret a ->
          exists fd errno got rest,
            new = EvOpen fd errno :: EvSeek address address
                    :: EvRead address size got :: rest
  end.
Proof.
  assert (Hafter : forall fd got,
            confined (fun _ => True)
              (match got with
               | None => exit (-1) ReadFailed
               | Some data =>
                   if negb (Z.of_nat (length data) =? size)
                   then exit (-1) ShortRead
                   else bind (sync_and_close dv fd)
                          (fun _ => ret (stored data buf))
               end : M (world D) (list Z))).
  { intros fd [data|]; [|apply confined_exit].
    destruct (negb _); [apply confined_exit|].
    apply confined_bind; [apply confined_sync_and_close|].
    intros _. apply confined_ret. }
  unfold checkedread, open_and_seek, do_open, do_lseek, do_read.
  unfold bind at 1. unfold bind at 1.
  cbv beta iota; cbn [dev log].
  destruct (sys_open dv (dev w)) as [[fd errno] d]. cbv beta iota; cbn [dev log].
  destruct (Z.ltb_spec fd 0) as [Hfd|Hfd].
  { cbv beta iota. unfold exit. exists [EvOpen fd errno].
    split; [reflexivity|]. split; [left; eauto|]. intros a Ha. discriminate Ha. }
  unfold bind at 1. cbv beta iota; cbn [dev log].
  destruct (sys_lseek dv fd address d) as [n d']. cbv beta iota; cbn [dev log].
  destruct (Z.ltb_spec n 0) as [Hn|Hn].
  { cbv beta iota. unfold exit.
    exists [EvOpen fd errno; EvSeek address n].
    split; [unfold history; cbn [log rev]; rewrite <- app_assoc; reflexivity|].
    split; [|intros a Ha; discriminate Ha].
    right. left. exists fd, errno, n. split; [reflexivity|left; exact Hn]. }
  destruct (Z.eqb_spec n address) as [->|Hne]; cbn [negb].
  2: { cbv beta iota. unfold exit.
       exists [EvOpen fd errno; EvSeek address n].
       split; [unfold history; cbn [log rev]; rewrite <- app_assoc; reflexivity|].
       split; [|intros a Ha; discriminate Ha].
       right. left. exists fd, errno, n. split; [reflexivity|right; exact Hne]. }
  unfold ret at 1. cbv beta iota. unfold bind at 1.
  cbv beta iota; cbn [dev log].
  destruct (sys_read dv fd size d') as [got d'']. cbv beta iota; cbn [dev log].
  destruct (Hafter fd got
              (World d'' (EvRead address size got :: EvSeek address address
                            :: EvOpen fd errno :: log w)))
    as (more & Hmore & _).
  cbn [log] in Hmore.
  match goal with
  | |- match ?run with _ => _ end => destruct run as [r w'] eqn:Hrun
  end.
  cbn [snd] in Hmore.
  exists (EvOpen fd errno :: EvSeek address address :: EvRead address size got
            :: rev more).
  split.
  - unfold history. rewrite Hmore, rev_app_distr. cbn [rev].
    rewrite <- !app_assoc. reflexivity.
  - split; [right; right; eauto|]. intros a _. eauto.
Qed.

Lemma begins_with_read_checkedread address buf size :
  begins_with_read address size (checkedread dv address buf size).
Proof.
  intros w. pose proof (checkedread_begins address buf size w) as H.
  destruct (checkedread dv address buf size w) as [r w']. exact H.
Qed.

Lemma begins_with_read_readbacktest blocksize fr address modulo i :
  0 < modulo ->
  begins_with_read (shadow_address blocksize address modulo) blocksize
    (readbacktest dv blocksize fr address modulo i).
Proof.
  intros Hmodulo w.
  assert (Hsame :
    readbacktest dv blocksize fr address modulo i w
    = bind (checkedread dv (shadow_address blocksize address modulo)
              (prevdata0 fr) blocksize)
        (fun prevdata =>
           bind
             (bind (checkedread dv (probed_address blocksize address)
                      (originalreaddata0 fr) blocksize)
                (fun originalreaddata =>
                   bind (checkedwrite dv (probed_address blocksize address)
                           (fill_pattern blocksize i (writedata0 fr)) blocksize)
                     (fun _ =>
                        bind (checkedread dv (probed_address blocksize address)
                                (readbackdata0 fr) blocksize)
                          (fun readbackdata =>
                             bind (checkedwrite dv
                                     (probed_address blocksize address)
                                     originalreaddata blocksize)
                               (fun _ =>
                                  bind (checkedread dv
                                          (shadow_address blocksize address modulo)
                                          readbackdata blocksize)
                                    (fun readbackdata' =>
                                       bind
                                         (if negb
                                               (differ_loop (Z.to_nat blocksize) 0
                                                  readbackdata' prevdata 0 =? 0)
                                          then checkedwrite dv
                                                 (probed_address blocksize address)
                                                 prevdata blocksize
                                          else ret tt)
                                         (fun _ =>
                                            ret
                                              (differ_loop
                                                 (Z.to_nat MAXBLOCKSIZE) 0
                                                 readbackdata
                                                 (fill_pattern blocksize i
                                                    (writedata0 fr)) 0,
                                               differ_loop (Z.to_nat blocksize) 0
                                                 readbackdata' prevdata 0))))))))
             (fun counts =>
                let '(mismatch, corruption) := counts in
                if negb (mismatch =? 0) || negb (corruption =? 0)
                then exit (-1) ProbeFailed
                else ret tt)) w).
  { unfold readbacktest, readbacktest_counts, shadow_address.
    destruct (Z.eqb_spec modulo 0) as [|_]; [lia|].
    destruct (Z.eqb_spec modulo (-1)) as [|_]; [lia|].
    rewrite andb_false_r. cbn [orb]. rewrite bind_assoc. reflexivity. }
  rewrite Hsame.
  apply begins_with_read_bind; [apply begins_with_read_checkedread|].
  intros prevdata.
  apply confined_bind.
  - apply confined_bind; [apply confined_checkedread; exact I|]. intros orig.
    apply confined_bind; [apply confined_checkedwrite; exact I|]. intros _.
    apply confined_bind; [apply confined_checkedread; exact I|]. intros back.
    apply confined_bind; [apply confined_checkedwrite; exact I|]. intros _.
    apply confined_bind; [apply confined_checkedread; exact I|]. intros again.
    apply confined_bind; [|intros _; apply confined_ret].
    destruct (negb _); [apply confined_checkedwrite; exact I|apply confined_ret].
  - intros [mismatch corruption].
    destruct (_ || _); [apply confined_exit|apply confined_ret].
Qed.

Lemma confined_anywhere_run_calls blocksize junk l :
  confined (fun _ => True)
    (run_calls (fun address modulo i =>
                  readbacktest dv blocksize (junk i) address modulo i) l).
Proof.
  apply confined_run_calls. apply Forall_forall. intros c _.
  eapply confined_weaken; [|apply confined_readbacktest]. intros a _. exact I.
Qed.

End FirstTransfer.

(** C10: the shadow address of a probe is below the modulus of the probe
    whenever that modulus is positive, which it is for every call the
    scheduler makes, and it is the address of the first transfer of the
    probe: after the open and the seek to it, the device is read there; a
    probe reads and writes nowhere but at that address and at the probed
    one.  The first probe of phase 1, with address 1 MiB and modulus
    512 KiB, has its shadow at 512 KiB less one block, so the first
    transfer of the size test is a read of the device below the floor of
    1 MiB. *)
Theorem shadow_address_below_modulus blocksize T fuel :
  0 < blocksize <= MAXBLOCKSIZE -> 0 <= T < 2 ^ 62 -> (64 <= fuel)%nat ->
  (forall address modulo,
      0 < modulo -> shadow_address blocksize address modulo < modulo) /\
  (forall D (dv : device D) fr address modulo i,
      confined (fun a => a = probed_address blocksize address \/
                         a = shadow_address blocksize address modulo)
               (readbacktest dv blocksize fr address modulo i)) /\
  (forall D (dv : device D) fr address modulo i,
      0 < modulo ->
      begins_with_read (shadow_address blocksize address modulo) blocksize
        (readbacktest dv blocksize fr address modulo i)) /\
  exists l : list call,
    schedule T fuel = (Exit 0 Finished, l) /\
    Forall (fun c =>
              0 < c_modulo c /\
              shadow_address blocksize (c_address c) (c_modulo c) < c_modulo c)
           l /\
    (MiB <= T ->
     l !! 0%nat = Some (Call MiB 524288 0) /\
     shadow_address blocksize MiB 524288 = 524288 - blocksize /\
     524288 - blocksize < MiB /\
     forall D (dv : device D) junk,
       begins_with_read (524288 - blocksize) blocksize
         (run_size_test dv blocksize junk T fuel)).
Proof.
  intros Hb HT Hfuel.
  split; [intros address modulo; apply shadow_address_below|].
  split; [intros D dv fr address modulo i; apply confined_readbacktest|].
  split; [intros D dv fr address modulo i; apply begins_with_read_readbacktest|].
  destruct (size_test_calls T fuel HT Hfuel)
    as (n & l2 & Hn & Hstop & Hall & Hmod & _ & _ & Hrun).
  exists (doubling 0 n ++ l2). split; [|split].
  - unfold schedule. rewrite Hrun. unfold bind. rewrite run_calls_record.
    reflexivity.
  - assert (Hpos : forall c, 0 < c_modulo c ->
                 0 < c_modulo c /\
                 shadow_address blocksize (c_address c) (c_modulo c) < c_modulo c).
    { intros c Hc. split; [exact Hc|]. apply shadow_address_below. exact Hc. }
    apply Forall_app. split.
    + apply Forall_lookup. intros j c Hc. apply Hpos.
      apply doubling_lookup in Hc. destruct Hc as [_ ->]. cbn [c_modulo Nat.add].
      assert (Hp := pow2_pos j). change MiB with (2 * 524288).
      rewrite <- Z.mul_assoc, Z.mul_comm, Z.div_mul by lia. lia.
    + eapply Forall_impl; [exact Hmod|]. cbn beta. intros c Hc. apply Hpos.
      rewrite Hc. assert (Hp := pow2_pos n). change MiB with (2 * 524288).
      rewrite <- Z.mul_assoc, Z.mul_comm, Z.div_mul by lia. lia.
  - intros Hbig. destruct n as [|n].
    { change (MiB * pow2 0) with MiB in Hstop. lia. }
    split; [reflexivity|].
    assert (Hshadow : shadow_address blocksize MiB 524288 = 524288 - blocksize).
    { rewrite shadow_address_exact;
        [|change MiB with 1048576; unfold MAXBLOCKSIZE in Hb; lia
         |reflexivity|reflexivity].
      change MiB with 1048576. unfold MAXBLOCKSIZE in Hb.
      replace (1048576 - blocksize) with (524288 - blocksize + 1 * 524288) by lia.
      rewrite Z.mod_add by lia. apply Z.mod_small. lia. }
    split; [exact Hshadow|].
    split; [change MiB with 1048576; unfold MAXBLOCKSIZE in Hb; lia|].
    intros D dv junk w. unfold run_size_test. rewrite Hrun.
    change (doubling 0 (S n) ++ l2)
      with (Call MiB 524288 0 :: (doubling 1 n ++ l2)).
    cbn [run_calls c_address c_modulo c_sequence]. rewrite bind_assoc.
    rewrite <- Hshadow.
    apply (begins_with_read_bind (shadow_address blocksize MiB 524288) blocksize
             (readbacktest dv blocksize (junk 0) MiB 524288 0)).
    + apply begins_with_read_readbacktest. lia.
    + intros _. apply confined_bind; [apply confined_anywhere_run_calls|].
      intros _. apply confined_exit.
Qed.

Lemma shadow_address_below_modulus_witness :
  (forall address modulo,
      0 < modulo -> shadow_address 512 address modulo < modulo) /\
  (forall D (dv : device D) fr address modulo i,
      confined (fun a => a = probed_address 512 address \/
                         a = shadow_address 512 address modulo)
               (readbacktest dv 512 fr address modulo i)) /\
  (forall D (dv : device D) fr address modulo i,
      0 < modulo ->
      begins_with_read (shadow_address 512 address modulo) 512
        (readbacktest dv 512 fr address modulo i)) /\
  exists l : list call,
    schedule (5 * MiB) 64 = (Exit 0 Finished, l) /\
    Forall (fun c =>
              0 < c_modulo c /\
              shadow_address 512 (c_address c) (c_modulo c) < c_modulo c)
           l /\
    (MiB <= 5 * MiB ->
     l !! 0%nat = Some (Call MiB 524288 0) /\
     shadow_address 512 MiB 524288 = 524288 - 512 /\
     524288 - 512 < MiB /\
     forall D (dv : device D) junk,
       begins_with_read (524288 - 512) 512
         (run_size_test dv 512 junk (5 * MiB) 64)).
Proof.
  apply shadow_address_below_modulus.
  - unfold MAXBLOCKSIZE. lia.
  - unfold MiB. lia.
  - lia.
Defined.

(** C8: in a run of the size test, a read or a write that transfers fewer
    bytes than it was asked for is the last system call of the process,
    so that no probe is started after it, and the process ends with
    [exit(-1)], whose status 255 is not zero. *)
Theorem short_transfer_is_fatal D (dv : device D) blocksize junk T fuel
    (w : world D) (e : event) :
  no_short_transfer (log w) ->
  In e (log (snd (run_size_test dv blocksize junk T fuel w))) ->
  short_transfer e ->
  (exists rest,
      log (snd (run_size_test dv blocksize junk T fuel w)) = e :: rest /\
      no_short_transfer rest) /\
  (fst (run_size_test dv blocksize junk T fuel w) = Exit (-1) ShortRead \/
   fst (run_size_test dv blocksize junk T fuel w) = Exit (-1) ShortWrite) /\
  exit_status (-1) <> 0.
Proof.
  intros Hw Hin Hshort.
  assert (Hcareful : careful (run_size_test dv blocksize junk T fuel)).
  { unfold run_size_test. apply careful_size_test.
    intros a m i. apply careful_readbacktest. }
  destruct (Hcareful w Hw) as [Hnone|(e0 & rest & Hlog & He0 & Hrest & Hr)].
  - exfalso. exact (Hnone e Hin Hshort).
  - rewrite Hlog in Hin. destruct Hin as [->|Hin].
    + split; [exists rest; auto|]. split; [exact Hr|]. discriminate.
    + exfalso. exact (Hrest e Hin Hshort).
Qed.

Lemma short_transfer_is_fatal_witness :
  (exists rest,
      log (snd (run_size_test (bounded 262144) 512 (fun _ => clean_frame)
                  262144 64 (World two_tone [])))
      = EvRead 392704 512 (Some []) :: rest /\
      no_short_transfer rest) /\
  (fst (run_size_test (bounded 262144) 512 (fun _ => clean_frame)
          262144 64 (World two_tone [])) = Exit (-1) ShortRead \/
   fst (run_size_test (bounded 262144) 512 (fun _ => clean_frame)
          262144 64 (World two_tone [])) = Exit (-1) ShortWrite) /\
  exit_status (-1) <> 0.
Proof.
  apply short_transfer_is_fatal.
  - intros e H. destruct H.
  - vm_compute. left. reflexivity.
  - vm_compute. reflexivity.
Defined.

(** A run is its outcome and the state it leaves. *)
Lemma outcome_and_state {A B} (run : A * B) (a : A) :
  fst run = a -> run = (a, snd run).
Proof. intros <-. destruct run. reflexivity. Qed.

(** C2, as the code has it: a probe called with [address], [modulus] and
    [sequence] (with [blocksize <= address] and a positive modulus) that
    gets through its transfers writes the test pattern, byte [n] being
    [(sequence + n) mod 256], at byte offset [address - blocksize], one
    block below [address]; the shadow address that is read before and read
    again after is [(address - blocksize) mod modulus]. *)
Theorem probe_writes_one_block_below D (dv : device D) blocksize fr
    address modulo i (w w' : world D) mismatch corruption :
  0 <= blocksize <= address -> blocksize <= MAXBLOCKSIZE ->
  address < 2 ^ 63 -> 0 < modulo -> array_ok (writedata0 fr) ->
  readbacktest_counts dv blocksize fr address modulo i w
  = (Ret (mismatch, corruption), w') ->
  exists prev orig back again : list Z,
    transfers (history w')
    = transfers (history w) ++
      [EvRead ((address - blocksize) mod modulo) blocksize (Some prev);
       EvRead (address - blocksize) blocksize (Some orig);
       EvWrite (address - blocksize) blocksize
         (map (fun n : nat => (i + Z.of_nat n) mod 256)
              (seq 0 (Z.to_nat blocksize)))
         blocksize;
       EvRead (address - blocksize) blocksize (Some back);
       EvWrite (address - blocksize) blocksize orig blocksize;
       EvRead ((address - blocksize) mod modulo) blocksize (Some again)]
      ++ (if corruption =? 0 then []
          else [EvWrite (address - blocksize) blocksize prev blocksize]).
Proof.
  intros Hb Hmax Ha Hm Hwd Hrun.
  apply readbacktest_counts_ret in Hrun.
  destruct Hrun as (prev & orig & back & again & _ & _ & _ & _ & _ & _ & _ & Hlog).
  exists prev, orig, back, again.
  rewrite Hlog. rewrite shadow_address_exact by lia.
  rewrite probed_address_exact by lia.
  rewrite fill_pattern_take by (auto; lia). reflexivity.
Qed.

Lemma probe_writes_one_block_below_witness :
  exists prev orig back again : list Z,
    transfers
      (history
         (snd (readbacktest_counts ideal 512 clean_frame 1048576 524288 0
                 (World two_tone []))))
    = transfers (history (World two_tone [])) ++
      [EvRead ((1048576 - 512) mod 524288) 512 (Some prev);
       EvRead (1048576 - 512) 512 (Some orig);
       EvWrite (1048576 - 512) 512
         (map (fun n : nat => (0 + Z.of_nat n) mod 256) (seq 0 (Z.to_nat 512)))
         512;
       EvRead (1048576 - 512) 512 (Some back);
       EvWrite (1048576 - 512) 512 orig 512;
       EvRead ((1048576 - 512) mod 524288) 512 (Some again)]
      ++ (if 0 =? 0 then []
          else [EvWrite (1048576 - 512) 512 prev 512]).
Proof.
  apply (probe_writes_one_block_below disk ideal 512 clean_frame 1048576
           524288 0 (World two_tone []) _ 0 0).
  - lia.
  - unfold MAXBLOCKSIZE. lia.
  - lia.
  - lia.
  - reflexivity.
  - refine (outcome_and_state (readbacktest_counts ideal 512 clean_frame 1048576 524288 0 (World two_tone [])) (Ret (0, 0)) _). vm_compute. reflexivity.
Defined.

Lemma no_write_at address (l : list event) :
  List.filter (is_write_at address) l = [] ->
  ~ exists size data nn, In (EvWrite address size data nn) l.
Proof.
  intros Hnone (size & data & nn & Hin).
  assert (Hf : In (EvWrite address size data nn)
                 (List.filter (is_write_at address) l)).
  { apply List.filter_In. split; [exact Hin|]. cbn [is_write_at].
    apply Z.eqb_refl. }
  rewrite Hnone in Hf. exact Hf.
Qed.

(** C2, as the specification has it, fails: a probe called with address
    1 MiB on a device that stores faithfully returns without a single write
    at byte offset 1 MiB; its transfers are at 1 MiB less one block and at
    the shadow address. *)
Lemma pattern_is_not_written_at_address :
  let out := readbacktest ideal 512 clean_frame 1048576 524288 0
               (World two_tone []) in
  fst out = Ret tt /\
  (~ exists size data nn,
        In (EvWrite 1048576 size data nn) (history (snd out))) /\
  map event_address (transfers (history (snd out)))
  = [Some 523776; Some 1048064; Some 1048064; Some 1048064; Some 1048064;
     Some 523776].
Proof.
  cbv zeta. split; [vm_compute; reflexivity|]. split; [|vm_compute; reflexivity].
  refine (no_write_at 1048576 _ _). vm_compute. reflexivity.
Qed.

(** C1 fails on a device on which a write disturbs the shadow block: the
    probe detects the corruption, then writes the snapshot of the shadow
    block over the block it probed and had just restored; the 512 bytes at
    1 MiB less one block held 0x55 before the probe and hold 0xAA after it,
    and the shadow block stays wiped. *)
Theorem probed_block_not_restored_after_corruption :
  let w := World two_tone [] in
  let out := readbacktest (disturbing 524288) 512 clean_frame 1048576 524288 0
               w in
  fst out = Exit (-1) ProbeFailed /\
  probed_address 512 1048576 = 1048064 /\
  block (dev w) 1048064 512 = repeat 85 512 /\
  block (dev (snd out)) 1048064 512 = repeat 170 512 /\
  block (dev w) 523776 512 = repeat 170 512 /\
  block (dev (snd out)) 523776 512 = repeat 0 512.
Proof.
  cbv zeta. split_evaluate.
Qed.

(** C3 fails on the same device: the probe counts 512 corrupted bytes at
    the shadow address 523776 and makes one more write, of the snapshot of
    the shadow block, but at 1048064, the address it probed; no write of the
    probe is addressed to the shadow address. *)
Theorem corruption_rewrite_goes_to_probed_address :
  let out := readbacktest_counts (disturbing 524288) 512 clean_frame 1048576
               524288 0 (World two_tone []) in
  fst out = Ret (0, 512) /\
  shadow_address 512 1048576 524288 = 523776 /\
  last (transfers (history (snd out)))
  = Some (EvWrite 1048064 512 (repeat 170 512) 512) /\
  List.filter (is_write_at 523776) (history (snd out)) = [] /\
  length (List.filter (is_write_at 1048064) (history (snd out))) = 3%nat.
Proof.
  cbv zeta. split_evaluate.
Qed.

(** C4 fails for a block size below 4096: on a device that stores
    faithfully the 512 bytes read back are the 512 bytes written, so no
    position of the block differs, yet the counter is 1, because the loop
    runs over all 4096 bytes of the two arrays and one byte that the stack
    held beyond the block differs; the probe then ends the program. *)
Theorem mismatch_counts_bytes_beyond_block :
  let w := World two_tone [] in
  exists pattern prev orig again : list Z,
    transfers
      (history (snd (readbacktest_counts ideal 512 dirty_frame 1048576 524288 0 w)))
    = [EvRead 523776 512 (Some prev); EvRead 1048064 512 (Some orig);
       EvWrite 1048064 512 pattern 512; EvRead 1048064 512 (Some pattern);
       EvWrite 1048064 512 orig 512; EvRead 523776 512 (Some again)] /\
    block_mismatches 512 pattern pattern = 0 /\
    fst (readbacktest_counts ideal 512 dirty_frame 1048576 524288 0 w)
    = Ret (1, 0) /\
    fst (readbacktest ideal 512 dirty_frame 1048576 524288 0 w)
    = Exit (-1) ProbeFailed.
Proof.
  cbv zeta.
  exists (map (fun n : nat => Z.of_nat n mod 256) (seq 0 512)),
         (repeat 170 512), (repeat 85 512), (repeat 170 512).
  split_evaluate.
Qed.

(** C5 fails for a device of 256 KiB: the first call of the scheduler is at
    address 393216, below 1 MiB and above [totalsize], and on a device
    that ends at [totalsize] the first read of that probe comes back
    empty. *)
Theorem small_device_is_probed_out_of_range :
  (exists l, schedule 262144 64 = (Exit 0 Finished, Call 393216 524288 1 :: l)) /\
  393216 < MiB /\ 262144 < 393216 /\
  history (snd (run_size_test (bounded 262144) 512 (fun _ => clean_frame)
                  262144 64 (World two_tone [])))
  = [EvOpen 3 0; EvSeek 392704 392704; EvRead 392704 512 (Some [])].
Proof.
  split; [eexists; vm_compute; reflexivity|]. split_evaluate.
Qed.

(** C7 fails for a device of 256 KiB.  Phase 1 makes no probe, so there
    is no last probe of phase 1 for the modulus, and phase 2 starts from
    the bound 512 KiB above [totalsize]: the difference
    [totalsize - offset], computed in [unsigned long long], wraps around
    and grows with every iteration, every probe lies above [totalsize],
    and the loop makes 19 iterations where the base 2 logarithm of
    [totalsize / 1 MiB] allows none. *)
Theorem phase2_runs_backwards_on_small_device :
  phase1 record_call 262144 64 MiB 0 [] = (Ret (MiB, 0), []) /\
  exists l : list call,
    schedule 262144 64 = (Exit 0 Finished, l) /\
    length l = 19%nat /\
    l !! 0%nat = Some (Call 393216 524288 1) /\
    l !! 1%nat = Some (Call 327680 524288 2) /\
    Forall (fun c => 262144 <= c_address c < 524288 /\ c_modulo c = 524288) l /\
    u64 (262144 - u64 524288) < u64 (262144 - u64 393216) /\
    u64 (262144 - u64 393216) < u64 (262144 - u64 327680) /\
    Z.log2 (262144 / MiB) = 0.
Proof.
  split; [vm_compute; reflexivity|].
  eexists. split; [vm_compute; reflexivity|].
  split; [reflexivity|]. split; [reflexivity|]. split; [reflexivity|].
  split; [|vm_compute; repeat split; reflexivity].
  repeat constructor; cbn [c_address c_modulo]; lia.
Qed.

(** * Further properties of the code *)

(** ** A device that stores faithfully *)

Lemma disk_read_length size d : length (disk_read size d) = Z.to_nat size.
Proof. unfold disk_read. rewrite length_map. apply length_seq. Qed.

Lemma block_length d address size : length (block d address size) = Z.to_nat size.
Proof. apply disk_read_length. Qed.

Lemma block_lookup d address size (k : nat) :
  (k < Z.to_nat size)%nat ->
  block d address size !! k = Some (cells d (address + Z.of_nat k)).
Proof.
  intros Hk. unfold block, disk_read. cbn [cells position].
  change (map ?f ?l) with (f <$> l). rewrite list_lookup_fmap.
  rewrite lookup_seq_lt by exact Hk. reflexivity.
Qed.

Lemma block_same_cells d p address size :
  block (Disk (cells d) p) address size = block d address size.
Proof. reflexivity. Qed.

(** Two stores that agree on a block give the same block. *)
Lemma block_ext d d' address size :
  (forall a, address <= a < address + size -> cells d a = cells d' a) ->
  block d address size = block d' address size.
Proof.
  intros H. unfold block, disk_read. cbn [cells position].
  apply map_ext_in. intros k Hk. apply in_seq in Hk. apply H. lia.
Qed.

Lemma overwrite_inside cs start data a :
  start <= a < start + Z.of_nat (length data) ->
  overwrite cs start data a = at_index data (Z.to_nat (a - start)).
Proof.
  intros H. unfold overwrite.
  destruct (Z.leb_spec start a); [|lia].
  destruct (Z.ltb_spec a (start + Z.of_nat (length data))); [|lia].
  reflexivity.
Qed.

Lemma overwrite_outside cs start data a :
  a < start \/ start + Z.of_nat (length data) <= a ->
  overwrite cs start data a = cs a.
Proof.
  intros H. unfold overwrite.
  destruct (Z.leb_spec start a); [|reflexivity].
  destruct (Z.ltb_spec a (start + Z.of_nat (length data))); [lia|].
  reflexivity.
Qed.

(** What was written is what is read back. *)
Lemma block_overwrite cs p start data size :
  Z.of_nat (length data) = size ->
  block (Disk (overwrite cs start data) p) start size = data.
Proof.
  intros Hlen. apply list_eq. intros k.
  destruct (decide (k < length data)%nat) as [Hk|Hk].
  - rewrite block_lookup by lia. cbn [cells].
    rewrite overwrite_inside by lia.
    replace (Z.to_nat (start + Z.of_nat k - start)) with k by lia.
    unfold at_index. rewrite list_lookup_total_alt.
    destruct (data !! k) as [x|] eqn:Hx; [reflexivity|].
    apply lookup_ge_None in Hx. lia.
  - rewrite (lookup_ge_None_2 data) by lia.
    apply lookup_ge_None_2. rewrite block_length. lia.
Qed.

(** Writing back the block that was read gives the store as it was. *)
Lemma overwrite_restore d start data size a :
  0 <= size -> Z.of_nat (length data) = size ->
  overwrite (overwrite (cells d) start data) start (block d start size) a
  = cells d a.
Proof.
  intros Hs Hlen.
  destruct (Z.lt_ge_cases a start) as [Hlo|Hge];
    [rewrite !overwrite_outside by lia; reflexivity|].
  destruct (Z.lt_ge_cases a (start + size)) as [Hin|Hhi].
  - rewrite overwrite_inside by (rewrite block_length; lia).
    unfold at_index. rewrite list_lookup_total_alt.
    rewrite block_lookup by lia. cbn [default from_option].
    unfold id. f_equal. lia.
  - rewrite overwrite_outside by (rewrite block_length; lia).
    rewrite overwrite_outside by lia. reflexivity.
Qed.

Lemma ideal_checkedread address buf size (w : world disk) :
  0 <= address -> 0 <= size ->
  checkedread ideal address buf size w
  = (Ret (stored (block (dev w) address size) buf),
     World (Disk (cells (dev w)) (address + size))
           (EvClose 0 :: EvFsync 0
              :: EvRead address size (Some (block (dev w) address size))
              :: EvSeek address address :: EvOpen 3 0 :: log w)).
Proof.
  intros Ha Hs.
  unfold checkedread, open_and_seek, sync_and_close, bind, do_open, do_lseek,
    do_read, do_fsync, do_close, ret, exit.
  cbn [ideal sys_open sys_lseek sys_read sys_fsync sys_close dev log
       cells position].
  change (3 <? 0) with false. cbv iota beta.
  destruct (Z.ltb_spec address 0) as [|_]; [lia|].
  rewrite Z.eqb_refl. cbn [negb].
  rewrite disk_read_length. rewrite Z2Nat.id by exact Hs.
  rewrite Z.eqb_refl. cbn [negb]. change (0 =? 0) with true. cbn [negb].
  reflexivity.
Qed.

Lemma ideal_checkedwrite address buf size (w : world disk) :
  0 <= address -> 0 <= size -> (Z.to_nat size <= length buf)%nat ->
  checkedwrite ideal address buf size w
  = (Ret tt,
     World (Disk (overwrite (cells (dev w)) address (take (Z.to_nat size) buf))
                 (address + size))
           (EvClose 0 :: EvFsync 0
              :: EvWrite address size (take (Z.to_nat size) buf) size
              :: EvSeek address address :: EvOpen 3 0 :: log w)).
Proof.
  intros Ha Hs Hlen.
  assert (Htake : Z.of_nat (length (take (Z.to_nat size) buf)) = size).
  { rewrite length_take. lia. }
  unfold checkedwrite, open_and_seek, sync_and_close, bind, do_open, do_lseek,
    do_write, do_fsync, do_close, ret, exit.
  cbn [ideal sys_open sys_lseek sys_write sys_fsync sys_close dev log
       cells position].
  change (3 <? 0) with false. cbv iota beta.
  destruct (Z.ltb_spec address 0) as [|_]; [lia|].
  rewrite Z.eqb_refl. cbn [negb]. rewrite Htake.
  destruct (Z.ltb_spec size 0) as [|_]; [lia|].
  rewrite Z.eqb_refl. cbn [negb]. change (0 =? 0) with true. cbn [negb].
  reflexivity.
Qed.

Lemma stored_length data buf :
  (length data <= length buf)%nat -> length (stored data buf) = length buf.
Proof.
  intros H. unfold stored. rewrite length_app, length_drop. lia.
Qed.

Lemma at_index_fill_beyond blocksize i (writedata : list Z) (k : nat) :
  (Z.to_nat blocksize <= length writedata)%nat -> (Z.to_nat blocksize <= k)%nat ->
  at_index (fill_pattern blocksize i writedata) k = at_index writedata k.
Proof.
  intros Hlen Hk. unfold at_index, fill_pattern.
  rewrite !list_lookup_total_alt.
  rewrite fill_loop_lookup by (cbn [Nat.add]; exact Hlen).
  destruct (decide _) as [Hin|_]; [lia|reflexivity].
Qed.

Lemma at_index_take (buf : list Z) (n k : nat) :
  (k < n)%nat -> at_index (take n buf) k = at_index buf k.
Proof.
  intros H. unfold at_index. rewrite !list_lookup_total_alt.
  rewrite lookup_take_lt by exact H. reflexivity.
Qed.

(** The counter of the first loop: nothing for the bytes that were read
    back as written, and the bytes that the stack held beyond the block. *)
Lemma mismatch_of_faithful_readback blocksize i (wd rb : list Z) :
  0 <= blocksize <= MAXBLOCKSIZE -> array_ok wd -> array_ok rb ->
  differ_loop (Z.to_nat MAXBLOCKSIZE) 0
    (stored (take (Z.to_nat blocksize) (fill_pattern blocksize i wd)) rb)
    (fill_pattern blocksize i wd) 0
  = differ_loop (Z.to_nat MAXBLOCKSIZE - Z.to_nat blocksize)
      (Z.to_nat blocksize) rb wd 0.
Proof.
  intros Hb Hwd Hrb. unfold array_ok in *.
  assert (Hle : (Z.to_nat blocksize <= Z.to_nat MAXBLOCKSIZE)%nat)
    by (apply Z2Nat.inj_le; lia).
  assert (Hfl : length (fill_pattern blocksize i wd) = Z.to_nat MAXBLOCKSIZE).
  { unfold fill_pattern. rewrite fill_loop_length. exact Hwd. }
  assert (Htl : length (take (Z.to_nat blocksize) (fill_pattern blocksize i wd))
                = Z.to_nat blocksize).
  { rewrite length_take. lia. }
  replace (Z.to_nat MAXBLOCKSIZE)
    with (Z.to_nat blocksize + (Z.to_nat MAXBLOCKSIZE - Z.to_nat blocksize))%nat
    at 1 by lia.
  rewrite differ_loop_split. cbn [Nat.add].
  rewrite (differ_loop_ext (Z.to_nat blocksize) 0 _ _
             (fill_pattern blocksize i wd) (fill_pattern blocksize i wd)).
  - rewrite differ_loop_same. apply differ_loop_ext. intros k Hk. split.
    + apply at_index_stored_ge; lia.
    + apply at_index_fill_beyond; lia.
  - intros k Hk. split; [|reflexivity].
    rewrite at_index_stored_lt by lia. apply at_index_take. lia.
Qed.

(** On a device that stores faithfully a probe goes through, finds no
    corruption, and leaves every byte of the device as it was. *)
Lemma ideal_probe blocksize fr address modulo i (w : world disk) :
  0 <= blocksize <= MAXBLOCKSIZE -> blocksize <= address < 2 ^ 63 ->
  modulo <> 0 -> frame_ok fr ->
  exists w',
    readbacktest_counts ideal blocksize fr address modulo i w
    = (Ret (differ_loop (Z.to_nat MAXBLOCKSIZE - Z.to_nat blocksize)
              (Z.to_nat blocksize) (readbackdata0 fr) (writedata0 fr) 0, 0),
       w') /\
    forall a, cells (dev w') a = cells (dev w) a.
Proof.
  intros Hb Ha Hm (Hprev & Horig & Hwd & Hrb). unfold array_ok in *.
  assert (Hle : (Z.to_nat blocksize <= Z.to_nat MAXBLOCKSIZE)%nat)
    by (apply Z2Nat.inj_le; lia).
  unfold readbacktest_counts. rewrite probed_address_exact by lia.
  set (A := address - blocksize).
  assert (HA : 0 <= A) by (unfold A; lia).
  assert (Hold : 0 <= Z.rem A modulo) by (apply Z.rem_nonneg; assumption).
  set (old := Z.rem A modulo) in *.
  destruct (Z.eqb_spec modulo 0) as [|_]; [contradiction|]. cbn [orb].
  destruct (Z.eqb_spec A (- 2 ^ 63)) as [|_]; [lia|]. cbn [andb].
  set (pattern := fill_pattern blocksize i (writedata0 fr)).
  assert (Hpl : length pattern = Z.to_nat MAXBLOCKSIZE).
  { unfold pattern, fill_pattern. rewrite fill_loop_length. exact Hwd. }
  set (prev := block (dev w) old blocksize).
  set (orig := block (dev w) A blocksize).
  assert (Lprev : Z.of_nat (length prev) = blocksize)
    by (unfold prev; rewrite block_length; lia).
  assert (Lorig : Z.of_nat (length orig) = blocksize)
    by (unfold orig; rewrite block_length; lia).
  unfold bind at 1. rewrite ideal_checkedread by lia. fold prev.
  unfold bind at 1. rewrite ideal_checkedread by lia. cbn [dev cells log].
  rewrite !block_same_cells. fold orig.
  unfold bind at 1. rewrite ideal_checkedwrite by (try rewrite Hpl; lia).
  cbn [dev cells log].
  unfold bind at 1. rewrite ideal_checkedread by lia. cbn [dev cells log].
  rewrite (block_overwrite _ _ A (take (Z.to_nat blocksize) pattern) blocksize)
    by (rewrite length_take; lia).
  unfold bind at 1.
  assert (Hso : length (stored orig (originalreaddata0 fr)) = Z.to_nat MAXBLOCKSIZE)
    by (rewrite stored_length; lia).
  rewrite ideal_checkedwrite by (try rewrite Hso; lia).
  cbn [dev cells log]. rewrite (take_stored orig _ _ Lorig).
  unfold bind at 1. rewrite ideal_checkedread by lia. cbn [dev cells log].
  set (c2 := overwrite (overwrite (cells (dev w)) A (take (Z.to_nat blocksize) pattern)) A orig).
  assert (Hc2 : forall a, c2 a = cells (dev w) a).
  { intros a. unfold c2, orig.
    apply (overwrite_restore (dev w) A _ blocksize); [lia|].
    rewrite length_take. lia. }
  rewrite (block_ext (Disk c2 (A + blocksize)) (dev w) old blocksize)
    by (intros a _; apply Hc2).
  fold prev.
  rewrite (differ_loop_ext (Z.to_nat blocksize) 0 _ _ prev prev).
  2:{ intros k Hk. split.
      - rewrite at_index_stored_lt by lia. reflexivity.
      - rewrite at_index_stored_lt by lia. reflexivity. }
  rewrite differ_loop_same. change (0 =? 0) with true. cbn [negb].
  unfold bind, ret. eexists. split.
  - f_equal. f_equal. f_equal.
    apply mismatch_of_faithful_readback; [lia|exact Hwd|exact Hrb].
  - cbn [dev cells]. exact Hc2.
Qed.

(** ** The calls of the scheduler on a device of at least 512 KiB *)

Lemma doubling_Forall (P : call -> Prop) k n :
  (forall j : nat, (k <= j < k + n)%nat ->
     P (Call (MiB * pow2 j) (MiB * pow2 j / 2) (Z.of_nat j))) ->
  Forall P (doubling k n).
Proof.
  intros H. unfold doubling. apply Forall_map. apply Forall_forall.
  intros j Hj. apply elem_of_seq in Hj. apply H. lia.
Qed.

Lemma half_MiB_pow2 j : MiB * pow2 j / 2 = 524288 * pow2 j.
Proof.
  change MiB with (2 * 524288).
  rewrite <- Z.mul_assoc, Z.mul_comm, Z.div_mul by lia. lia.
Qed.

(** For [totalsize] from 512 KiB up to 2^62 every call is made at an
    address from 1 MiB up to [totalsize], with a positive modulus that
    does not exceed the address, and there are at most
    [2 * log2 (totalsize / 512 KiB)] calls. *)
Lemma size_test_calls_in_range T fuel :
  MiB / 2 <= T < 2 ^ 62 -> (64 <= fuel)%nat ->
  exists l : list call,
    (forall S (probe : Z -> Z -> Z -> M S unit) (s : S),
        size_test probe T fuel s
        = bind (run_calls probe l) (fun _ => exit 0 Finished) s) /\
    Forall (fun c => MiB <= c_address c <= T /\
                     0 < c_modulo c <= c_address c) l /\
    Z.of_nat (length l) <= 2 * Z.log2 (T / (MiB / 2)).
Proof.
  intros HT Hfuel. change (MiB / 2) with 524288 in *.
  destruct (size_test_calls T fuel ltac:(lia) Hfuel)
    as (n & l2 & Hn & Hstop & Hall & Hmod & Hbig & _ & Hrun).
  change (MiB / 2) with 524288 in Hbig.
  destruct (Hbig ltac:(lia)) as (Hlen & Hbis & Hrange). clear Hbig.
  rewrite half_MiB_pow2 in *.
  assert (Hpn := pow2_pos n).
  exists (doubling 0 n ++ l2). split; [exact Hrun|]. split.
  - apply Forall_app. split.
    + apply doubling_Forall. intros j Hj. cbn [c_address c_modulo].
      rewrite half_MiB_pow2. assert (Hp := pow2_pos j).
      specialize (Hall j ltac:(lia)). change MiB with 1048576 in *. lia.
    + destruct n as [|n].
      * destruct l2 as [|c l2]; [constructor|].
        destruct Hbis as (Hfar & _). change (pow2 0) with 1 in *.
        change MiB with 1048576 in *. lia.
      * rewrite pow2_S in *. apply Forall_forall. intros c Hc.
        pose proof (proj1 (Forall_forall _ _) Hmod c Hc) as Hm.
        pose proof (proj1 (Forall_forall _ _) Hrange c Hc) as Hr.
        cbn beta in Hm, Hr. assert (Hp := pow2_pos n).
        change MiB with 1048576 in *. lia.
  - rewrite length_app, doubling_length.
    destruct n as [|n].
    + destruct l2 as [|c l2].
      * cbn [length Nat.add]. assert (H := Z.log2_nonneg (T / 524288)). lia.
      * destruct Hbis as (Hfar & _). change (pow2 0) with 1 in *.
        change MiB with 1048576 in *. lia.
    + specialize (Hall n ltac:(lia)). assert (Hp := pow2_pos n).
      assert (Hdiv : 2 * pow2 n <= T / 524288).
      { apply Z.div_le_lower_bound; [lia|]. change MiB with 1048576 in Hall. lia. }
      assert (Hlog : Z.log2 (2 * pow2 n) = Z.of_nat n + 1).
      { rewrite <- pow2_S. unfold pow2. rewrite Z.log2_pow2 by lia. lia. }
      assert (Hmono := Z.log2_le_mono _ _ Hdiv). lia.
Qed.

(** The calls of a list on a device that stores faithfully. *)
Lemma ideal_run_calls blocksize (junk : Z -> frame) l (w : world disk) :
  0 <= blocksize <= MAXBLOCKSIZE ->
  (forall i, frame_ok (junk i)) ->
  (forall i (k : nat), blocksize <= Z.of_nat k < MAXBLOCKSIZE ->
      at_index (readbackdata0 (junk i)) k = at_index (writedata0 (junk i)) k) ->
  Forall (fun c => blocksize <= c_address c < 2 ^ 63 /\ c_modulo c <> 0) l ->
  exists w',
    run_calls (fun address modulo i =>
                 readbacktest ideal blocksize (junk i) address modulo i) l w
    = (Ret tt, w') /\
    forall a, cells (dev w') a = cells (dev w) a.
Proof.
  intros Hb Hok Hjunk Hl. revert w.
  induction Hl as [|c l [Ha Hm] _ IH]; intros w; cbn [run_calls].
  - exists w. split; [reflexivity|]. reflexivity.
  - destruct (ideal_probe blocksize (junk (c_sequence c)) (c_address c)
                (c_modulo c) (c_sequence c) w Hb Ha Hm (Hok _))
      as (w1 & Hrun & Hcells).
    rewrite (differ_loop_ext _ _ _ _ (writedata0 (junk (c_sequence c)))
               (writedata0 (junk (c_sequence c)))) in Hrun.
    2:{ intros k Hk. split; [|reflexivity]. apply Hjunk.
        unfold MAXBLOCKSIZE in *. lia. }
    rewrite differ_loop_same in Hrun.
    unfold bind at 1. unfold readbacktest, bind at 1. rewrite Hrun.
    change (negb (0 =? 0) || negb (0 =? 0)) with false. cbv iota. unfold ret at 1.
    destruct (IH w1) as (w' & Hrest & Hcells').
    exists w'. split; [exact Hrest|]. intros a. rewrite Hcells'. apply Hcells.
Qed.

(** ** Outcomes of the device transactions *)

(** Settles the case of an [exit] right after a logged system call. *)
Ltac failed_at_last_call :=
  cbv beta iota; split; [reflexivity|];
  eexists _, _; split; [reflexivity|]; cbn [failed_call]; auto 7.

Section Outcomes.
Context {D : Type} (dv : device D).

Lemma open_and_seek_cases address size w :
  match open_and_seek dv address w with
  | (Ret fd, w') =>
      exists errno, log w' = EvSeek address address :: EvOpen fd errno :: log w
  | (Exit status site, w') =>
      status = -1 /\
      exists e rest, log w' = e :: rest /\ failed_call address size site e
  | _ => False
  end.
Proof.
  unfold open_and_seek, bind, do_open, do_lseek, exit, ret.
  cbv beta iota; cbn [dev log]. destruct (sys_open dv (dev w)) as [[fd errno] d]. cbv beta iota; cbn [dev log].
  destruct (Z.ltb_spec fd 0) as [Hfd|Hfd].
  - failed_at_last_call.
  - cbv beta iota; cbn [dev log]. destruct (sys_lseek dv fd address d) as [n d']. cbv beta iota; cbn [dev log].
    destruct (Z.ltb_spec n 0) as [Hn|Hn].
    + failed_at_last_call.
    + destruct (Z.eqb_spec n address) as [->|Hne]; cbn [negb].
      * cbv beta iota. exists errno. reflexivity.
      * failed_at_last_call.
Qed.

Lemma sync_and_close_cases address size fd w :
  match sync_and_close dv fd w with
  | (Ret _, w') => log w' = EvClose 0 :: EvFsync 0 :: log w
  | (Exit status site, w') =>
      status = -1 /\
      exists e rest, log w' = e :: rest /\ failed_call address size site e
  | _ => False
  end.
Proof.
  unfold sync_and_close, bind, do_fsync, do_close, exit, ret.
  cbv beta iota; cbn [dev log]. destruct (sys_fsync dv fd (dev w)) as [r d]. cbv beta iota; cbn [dev log].
  destruct (Z.eqb_spec r 0) as [->|Hr]; cbn [negb].
  - cbv beta iota; cbn [dev log]. destruct (sys_close dv fd d) as [r' d']. cbv beta iota; cbn [dev log].
    destruct (Z.eqb_spec r' 0) as [->|Hr']; cbn [negb]; [reflexivity|].
    failed_at_last_call.
  - failed_at_last_call.
Qed.

(** [checkedread] either returns after five system calls that all gave
    the answer it insists on, with the buffer filled, or it has ended the
    program with [exit(-1)] right after the first system call whose answer
    it did not accept. *)
Lemma checkedread_cases address buf size (w : world D) :
  match checkedread dv address buf size w with
  | (Ret buf', w') =>
      exists fd errno data,
        Z.of_nat (length data) = size /\ buf' = stored data buf /\
        log w' = EvClose 0 :: EvFsync 0 :: EvRead address size (Some data)
                   :: EvSeek address address :: EvOpen fd errno :: log w
  | (Exit status site, w') =>
      status = -1 /\
      exists e rest, log w' = e :: rest /\ failed_call address size site e
  | _ => False
  end.
Proof.
  unfold checkedread, bind at 1.
  pose proof (open_and_seek_cases address size w) as Hos.
  destruct (open_and_seek dv address w) as [[fd|st si| |] w1];
    try contradiction; [|exact Hos].
  destruct Hos as (errno & Hlog1).
  unfold bind at 1, do_read.
  cbv beta iota; cbn [dev log]. destruct (sys_read dv fd size (dev w1)) as [[data|] d]. cbv beta iota; cbn [dev log].
  - destruct (Z.eqb_spec (Z.of_nat (length data)) size) as [Hlen|Hlen];
      cbn [negb].
    + unfold bind.
      pose proof (sync_and_close_cases address size fd
                    (World d (EvRead address size (Some data) :: log w1))) as Hsc.
      destruct (sync_and_close dv fd _) as [[[]|st si| |] w2];
        try contradiction; [|exact Hsc].
      unfold ret. exists fd, errno, data. split; [exact Hlen|].
      split; [reflexivity|]. rewrite Hsc. cbn [log]. rewrite Hlog1. reflexivity.
    + failed_at_last_call.
  - failed_at_last_call.
Qed.

(** [checkedwrite] likewise: on return the first [size] bytes of the
    buffer were handed to one [write] at [address], which took them all. *)
Lemma checkedwrite_cases address buf size (w : world D) :
  match checkedwrite dv address buf size w with
  | (Ret _, w') =>
      exists fd errno,
        log w' = EvClose 0 :: EvFsync 0
                   :: EvWrite address size (take (Z.to_nat size) buf) size
                   :: EvSeek address address :: EvOpen fd errno :: log w
  | (Exit status site, w') =>
      status = -1 /\
      exists e rest, log w' = e :: rest /\ failed_call address size site e
  | _ => False
  end.
Proof.
  unfold checkedwrite, bind at 1.
  pose proof (open_and_seek_cases address size w) as Hos.
  destruct (open_and_seek dv address w) as [[fd|st si| |] w1];
    try contradiction; [|exact Hos].
  destruct Hos as (errno & Hlog1).
  unfold bind at 1, do_write.
  cbv beta iota; cbn [dev log]. destruct (sys_write dv fd (take (Z.to_nat size) buf) (dev w1)) as [nn d]. cbv beta iota; cbn [dev log].
  destruct (Z.ltb_spec nn 0) as [Hneg|Hpos].
  - failed_at_last_call.
  - destruct (Z.eqb_spec nn size) as [->|Hne]; cbn [negb].
    + pose proof (sync_and_close_cases address size fd
                    (World d (EvWrite address size (take (Z.to_nat size) buf) size
                                :: log w1))) as Hsc.
      destruct (sync_and_close dv fd _) as [[[]|st si| |] w2];
        try contradiction; [|exact Hsc].
      exists fd, errno. rewrite Hsc. cbn [log]. rewrite Hlog1. reflexivity.
    + failed_at_last_call.
Qed.

(** A transaction that does not return has ended the program with
    [exit(-1)] right after the first system call whose answer it did not
    accept, so that no call follows a failure; a transaction that returns
    has made its five calls with the answers it insists on. *)
Theorem transactions_fail_fast address buf size (w : world D) :
  match checkedread dv address buf size w with
  | (Ret buf', w') =>
      exists fd errno data,
        Z.of_nat (length data) = size /\ buf' = stored data buf /\
        log w' = EvClose 0 :: EvFsync 0 :: EvRead address size (Some data)
                   :: EvSeek address address :: EvOpen fd errno :: log w
  | (Exit status site, w') =>
      status = -1 /\
      exists e rest, log w' = e :: rest /\ failed_call address size site e
  | _ => False
  end /\
  match checkedwrite dv address buf size w with
  | (Ret _, w') =>
      exists fd errno,
        log w' = EvClose 0 :: EvFsync 0
                   :: EvWrite address size (take (Z.to_nat size) buf) size
                   :: EvSeek address address :: EvOpen fd errno :: log w
  | (Exit status site, w') =>
      status = -1 /\
      exists e rest, log w' = e :: rest /\ failed_call address size site e
  | _ => False
  end.
Proof.
  split; [apply checkedread_cases|apply checkedwrite_cases].
Qed.

End Outcomes.

(** ** The exit status *)

Section Status.
Context {D : Type} (dv : device D).

Lemma exits_minus_one_ret {A} (a : A) : exits_minus_one (ret (S:=world D) a).
Proof. intros w. exact I. Qed.

Lemma exits_minus_one_bind {S A B} (m : M S A) (f : A -> M S B) :
  exits_minus_one m -> (forall a, exits_minus_one (f a)) ->
  exits_minus_one (bind m f).
Proof.
  intros Hm Hf s. specialize (Hm s). unfold bind.
  destruct (m s) as [[a| | |] s1]; cbn [fst] in *; auto.
  apply Hf.
Qed.

Lemma exits_minus_one_checkedread address buf size :
  exits_minus_one (checkedread dv address buf size).
Proof.
  intros w. pose proof (checkedread_cases dv address buf size w) as H.
  destruct (checkedread dv address buf size w) as [[b|st si| |] w'];
    cbn [fst]; try exact I. apply H.
Qed.

Lemma exits_minus_one_checkedwrite address buf size :
  exits_minus_one (checkedwrite dv address buf size).
Proof.
  intros w. pose proof (checkedwrite_cases dv address buf size w) as H.
  destruct (checkedwrite dv address buf size w) as [[b|st si| |] w'];
    cbn [fst]; try exact I. apply H.
Qed.

Lemma exits_minus_one_readbacktest blocksize fr address modulo i :
  exits_minus_one (readbacktest dv blocksize fr address modulo i).
Proof.
  unfold readbacktest. apply exits_minus_one_bind.
  - unfold readbacktest_counts.
    destruct ((modulo =? 0) || _); [intros w; exact I|].
    apply exits_minus_one_bind; [apply exits_minus_one_checkedread|]. intros prev.
    apply exits_minus_one_bind; [apply exits_minus_one_checkedread|]. intros orig.
    apply exits_minus_one_bind; [apply exits_minus_one_checkedwrite|]. intros _.
    apply exits_minus_one_bind; [apply exits_minus_one_checkedread|]. intros back.
    apply exits_minus_one_bind; [apply exits_minus_one_checkedwrite|]. intros _.
    apply exits_minus_one_bind; [apply exits_minus_one_checkedread|]. intros again.
    apply exits_minus_one_bind; [|intros _; apply exits_minus_one_ret].
    destruct (negb _); [apply exits_minus_one_checkedwrite|apply exits_minus_one_ret].
  - intros [mismatch corruption].
    destruct (_ || _); [intros w; reflexivity|apply exits_minus_one_ret].
Qed.

Lemma exits_minus_one_run_calls {S} (probe : Z -> Z -> Z -> M S unit) l :
  (forall a m i, exits_minus_one (probe a m i)) ->
  exits_minus_one (run_calls probe l).
Proof.
  intros Hp. induction l as [|c l IH]; cbn [run_calls].
  - intros s. exact I.
  - apply exits_minus_one_bind; [apply Hp|]. intros _. exact IH.
Qed.

(** The calls of a list that all returned: six transfers each. *)
Lemma run_calls_ret_transfers blocksize junk l (w w' : world D) :
  run_calls (fun address modulo i =>
               readbacktest dv blocksize (junk i) address modulo i) l w
  = (Ret tt, w') ->
  length (transfers (history w'))
  = (length (transfers (history w)) + 6 * length l)%nat.
Proof.
  revert w. induction l as [|c l IH]; intros w; cbn [run_calls].
  - unfold ret. intros [= <-]. cbn [length]. lia.
  - intros H. apply bind_Ret_inv in H. destruct H as ([] & w1 & Hprobe & Hrest).
    apply IH in Hrest. rewrite Hrest. cbn [length].
    unfold readbacktest in Hprobe. apply bind_Ret_inv in Hprobe.
    destruct Hprobe as ([mm cc] & w2 & Hcounts & Hfinal).
    destruct (Z.eqb_spec mm 0) as [->|]; [|discriminate].
    destruct (Z.eqb_spec cc 0) as [->|]; [|discriminate].
    cbn [negb orb] in Hfinal. unfold ret in Hfinal. injection Hfinal as <-.
    apply readbacktest_counts_ret in Hcounts.
    destruct Hcounts as (prev & orig & back & again & _ & _ & _ & _ & _ & _ & _ & Hlog).
    rewrite Hlog. change (0 =? 0) with true. cbv iota.
    rewrite !length_app. cbn [length]. lia.
Qed.

End Status.

(** ** What a run of the size test does *)

(** On a device that stores what is written where it is written, a probe
    gets through all its transfers, counts no corruption, counts as
    mismatches only the bytes in which the two uninitialised arrays differ
    beyond the block, and leaves every byte of the device as it was; with a
    block of 4096 bytes it returns. *)
Theorem faithful_device_probe blocksize fr address modulo i (w : world disk) :
  0 <= blocksize <= MAXBLOCKSIZE -> blocksize <= address < 2 ^ 63 ->
  modulo <> 0 -> frame_ok fr ->
  exists w',
    readbacktest_counts ideal blocksize fr address modulo i w
    = (Ret (differ_loop (Z.to_nat MAXBLOCKSIZE - Z.to_nat blocksize)
              (Z.to_nat blocksize) (readbackdata0 fr) (writedata0 fr) 0, 0),
       w') /\
    (forall a, cells (dev w') a = cells (dev w) a) /\
    (blocksize = MAXBLOCKSIZE ->
     readbacktest ideal blocksize fr address modulo i w = (Ret tt, w')).
Proof.
  intros Hb Ha Hm Hfr.
  destruct (ideal_probe blocksize fr address modulo i w Hb Ha Hm Hfr)
    as (w' & Hrun & Hcells).
  exists w'. split; [exact Hrun|]. split; [exact Hcells|].
  intros ->. unfold readbacktest, bind. rewrite Hrun.
  rewrite Nat.sub_diag. reflexivity.
Qed.

Lemma faithful_device_probe_witness :
  exists w',
    readbacktest_counts ideal 512 dirty_frame 1048576 524288 0 (World two_tone [])
    = (Ret (differ_loop (Z.to_nat MAXBLOCKSIZE - Z.to_nat 512)
              (Z.to_nat 512) (readbackdata0 dirty_frame)
              (writedata0 dirty_frame) 0, 0),
       w') /\
    (forall a, cells (dev w') a = cells (dev (World two_tone [])) a) /\
    (512 = MAXBLOCKSIZE ->
     readbacktest ideal 512 dirty_frame 1048576 524288 0 (World two_tone [])
     = (Ret tt, w')).
Proof.
  apply faithful_device_probe.
  - unfold MAXBLOCKSIZE. lia.
  - lia.
  - lia.
  - unfold frame_ok, array_ok. vm_compute. auto.
Defined.

(** On such a device of 512 KiB up to 2^62 bytes the whole size test ends
    with [exit(0)] and leaves every byte of the device as it was, provided
    the uninitialised arrays of the probes agree beyond the block (as they
    do when the block has 4096 bytes). *)
Theorem faithful_device_passes_size_test blocksize junk T fuel (w : world disk) :
  0 <= blocksize <= MAXBLOCKSIZE ->
  MiB / 2 <= T < 2 ^ 62 -> (64 <= fuel)%nat ->
  (forall i, frame_ok (junk i)) ->
  (forall i (k : nat), blocksize <= Z.of_nat k < MAXBLOCKSIZE ->
      at_index (readbackdata0 (junk i)) k = at_index (writedata0 (junk i)) k) ->
  exists w',
    run_size_test ideal blocksize junk T fuel w = (Exit 0 Finished, w') /\
    forall a, cells (dev w') a = cells (dev w) a.
Proof.
  intros Hb HT Hfuel Hok Hjunk.
  destruct (size_test_calls_in_range T fuel HT Hfuel) as (l & Hrun & Hrange & _).
  destruct (ideal_run_calls blocksize junk l w Hb Hok Hjunk) as (w' & Hcalls & Hcells).
  { eapply Forall_impl; [exact Hrange|]. cbn beta. intros c Hc.
    unfold MAXBLOCKSIZE in Hb. change MiB with 1048576 in Hc. lia. }
  exists w'. split; [|exact Hcells].
  unfold run_size_test. rewrite Hrun. unfold bind. rewrite Hcalls. reflexivity.
Qed.

Lemma faithful_device_passes_size_test_witness :
  exists w',
    run_size_test ideal 512 (fun _ => clean_frame) (5 * MiB) 64 (World two_tone [])
    = (Exit 0 Finished, w') /\
    forall a, cells (dev w') a = cells (dev (World two_tone [])) a.
Proof.
  apply faithful_device_passes_size_test.
  - unfold MAXBLOCKSIZE. lia.
  - change (MiB / 2) with 524288. unfold MiB. lia.
  - lia.
  - intros i. unfold frame_ok, array_ok. vm_compute. auto.
  - intros i k Hk. reflexivity.
Defined.

(** Whatever the device answers and however the run ends, the size test of
    a device of 512 KiB up to 2^62 bytes seeks, reads and writes only at
    addresses at which a whole block lies within the first [totalsize]
    bytes. *)
Theorem size_test_stays_inside_device D (dv : device D) blocksize junk T fuel
    (w : world D) :
  0 <= blocksize <= MAXBLOCKSIZE ->
  MiB / 2 <= T < 2 ^ 62 -> (64 <= fuel)%nat ->
  exists new,
    log (snd (run_size_test dv blocksize junk T fuel w)) = new ++ log w /\
    forall e a, In e new -> event_address e = Some a ->
                0 <= a /\ a + blocksize <= T.
Proof.
  intros Hb HT Hfuel.
  destruct (size_test_calls_in_range T fuel HT Hfuel) as (l & Hrun & Hrange & _).
  unfold run_size_test. rewrite Hrun.
  apply (confined_bind (fun a => 0 <= a /\ a + blocksize <= T)).
  - apply confined_run_calls. eapply Forall_impl; [exact Hrange|]. cbn beta.
    intros c Hc. eapply confined_weaken; [|apply confined_readbacktest].
    intros a Ha. unfold MAXBLOCKSIZE in Hb. change MiB with 1048576 in Hc.
    rewrite shadow_address_exact, probed_address_exact in Ha by lia.
    assert (Hmod := Z.mod_pos_bound (c_address c - blocksize) (c_modulo c) ltac:(lia)).
    assert (Hle := Z.mod_le (c_address c - blocksize) (c_modulo c) ltac:(lia) ltac:(lia)).
    destruct Ha as [-> | ->]; lia.
  - intros _. apply confined_exit.
Qed.

Lemma size_test_stays_inside_device_witness :
  exists new,
    log (snd (run_size_test (bounded 3000000) 512 (fun _ => dirty_frame)
                (5 * MiB) 64 (World two_tone [])))
    = new ++ log (World two_tone []) /\
    forall e a, In e new -> event_address e = Some a ->
                0 <= a /\ a + 512 <= 5 * MiB.
Proof.
  apply size_test_stays_inside_device.
  - unfold MAXBLOCKSIZE. lia.
  - change (MiB / 2) with 524288. unfold MiB. lia.
  - lia.
Defined.

(** The scheduler comes to its end for every [totalsize] from 512 KiB up
    to 2^62: it makes at most [2 * log2 (totalsize / 512 KiB)] calls, each
    at an address from 1 MiB up to [totalsize] and with a positive modulus
    that does not exceed the address. *)
Theorem schedule_is_short_and_in_range T fuel :
  MiB / 2 <= T < 2 ^ 62 -> (64 <= fuel)%nat ->
  exists l : list call,
    schedule T fuel = (Exit 0 Finished, l) /\
    Z.of_nat (length l) <= 2 * Z.log2 (T / (MiB / 2)) /\
    Forall (fun c => MiB <= c_address c <= T /\
                     0 < c_modulo c <= c_address c) l.
Proof.
  intros HT Hfuel.
  destruct (size_test_calls_in_range T fuel HT Hfuel) as (l & Hrun & Hrange & Hlen).
  exists l. split; [|split; assumption].
  unfold schedule. rewrite Hrun. unfold bind. rewrite run_calls_record.
  reflexivity.
Qed.

Lemma schedule_is_short_and_in_range_witness :
  exists l : list call,
    schedule (5 * MiB + 700) 64 = (Exit 0 Finished, l) /\
    Z.of_nat (length l) <= 2 * Z.log2 ((5 * MiB + 700) / (MiB / 2)) /\
    Forall (fun c => MiB <= c_address c <= 5 * MiB + 700 /\
                     0 < c_modulo c <= c_address c) l.
Proof.
  apply schedule_is_short_and_in_range.
  - change (MiB / 2) with 524288. unfold MiB. lia.
  - lia.
Defined.

(** ** The counters of a probe and the sequence numbers *)

Lemma block_mismatches_loop blocksize a b :
  differ_loop (Z.to_nat blocksize) 0 a b 0 = block_mismatches blocksize a b.
Proof. rewrite differ_loop_count. unfold block_mismatches. lia. Qed.

Lemma differ_loop_shift steps n a b count :
  differ_loop steps n a b count = count + differ_loop steps n a b 0.
Proof. rewrite (differ_loop_count steps n a b count), (differ_loop_count steps n a b 0). lia. Qed.

(** For every device: the counter [corruption] of a probe that got through
    its transfers is the number of positions of the block at which the
    shadow block read again differs from its snapshot; the counter
    [mismatch] is the number of positions of the block at which the bytes
    read back differ from the pattern, plus the number of positions beyond
    the block at which the two uninitialised arrays differ. *)
Theorem probe_counters D (dv : device D) blocksize fr address modulo i
    (w w' : world D) mismatch corruption :
  0 <= blocksize <= MAXBLOCKSIZE -> frame_ok fr ->
  readbacktest_counts dv blocksize fr address modulo i w
  = (Ret (mismatch, corruption), w') ->
  exists prev orig back again : list Z,
    transfers (history w')
    = transfers (history w) ++
      [EvRead (shadow_address blocksize address modulo) blocksize (Some prev);
       EvRead (probed_address blocksize address) blocksize (Some orig);
       EvWrite (probed_address blocksize address) blocksize
         (take (Z.to_nat blocksize) (fill_pattern blocksize i (writedata0 fr)))
         blocksize;
       EvRead (probed_address blocksize address) blocksize (Some back);
       EvWrite (probed_address blocksize address) blocksize orig blocksize;
       EvRead (shadow_address blocksize address modulo) blocksize (Some again)]
      ++ (if corruption =? 0 then []
          else [EvWrite (probed_address blocksize address) blocksize prev
                  blocksize]) /\
    corruption = block_mismatches blocksize again prev /\
    mismatch
    = block_mismatches blocksize back
        (take (Z.to_nat blocksize) (fill_pattern blocksize i (writedata0 fr)))
      + differ_loop (Z.to_nat MAXBLOCKSIZE - Z.to_nat blocksize)
          (Z.to_nat blocksize) (readbackdata0 fr) (writedata0 fr) 0.
Proof.
  intros Hb (Hprev & Horig & Hwd & Hrb) Hrun. unfold array_ok in *.
  assert (Hle : (Z.to_nat blocksize <= Z.to_nat MAXBLOCKSIZE)%nat)
    by (apply Z2Nat.inj_le; lia).
  apply readbacktest_counts_ret in Hrun.
  destruct Hrun as (prev & orig & back & again & Lprev & Lorig & Lback & Lagain
                    & _ & Hmm & Hcc & Hlog).
  exists prev, orig, back, again. split; [exact Hlog|]. split.
  - rewrite Hcc. rewrite <- block_mismatches_loop. apply differ_loop_ext.
    intros k Hk. split; apply at_index_stored_lt; lia.
  - rewrite Hmm.
    replace (Z.to_nat MAXBLOCKSIZE)
      with (Z.to_nat blocksize + (Z.to_nat MAXBLOCKSIZE - Z.to_nat blocksize))%nat
      at 1 by lia.
    rewrite differ_loop_split. cbn [Nat.add]. rewrite differ_loop_shift.
    f_equal.
    + rewrite <- block_mismatches_loop. apply differ_loop_ext.
      intros k Hk. split.
      * apply at_index_stored_lt. lia.
      * symmetry. apply at_index_take. lia.
    + apply differ_loop_ext. intros k Hk. split.
      * apply at_index_stored_ge; lia.
      * apply at_index_fill_beyond; lia.
Qed.

Lemma probe_counters_witness :
  exists prev orig back again : list Z,
    transfers
      (history
         (snd (readbacktest_counts (disturbing 524288) 512 dirty_frame 1048576
                 524288 0 (World two_tone []))))
    = transfers (history (World two_tone [])) ++
      [EvRead (shadow_address 512 1048576 524288) 512 (Some prev);
       EvRead (probed_address 512 1048576) 512 (Some orig);
       EvWrite (probed_address 512 1048576) 512
         (take (Z.to_nat 512) (fill_pattern 512 0 (writedata0 dirty_frame)))
         512;
       EvRead (probed_address 512 1048576) 512 (Some back);
       EvWrite (probed_address 512 1048576) 512 orig 512;
       EvRead (shadow_address 512 1048576 524288) 512 (Some again)]
      ++ (if 512 =? 0 then []
          else [EvWrite (probed_address 512 1048576) 512 prev 512]) /\
    512 = block_mismatches 512 again prev /\
    1
    = block_mismatches 512 back
        (take (Z.to_nat 512) (fill_pattern 512 0 (writedata0 dirty_frame)))
      + differ_loop (Z.to_nat MAXBLOCKSIZE - Z.to_nat 512)
          (Z.to_nat 512) (readbackdata0 dirty_frame) (writedata0 dirty_frame) 0.
Proof.
  apply (probe_counters disk (disturbing 524288) 512 dirty_frame 1048576 524288 0
           (World two_tone []) _ 1 512).
  - unfold MAXBLOCKSIZE. lia.
  - unfold frame_ok, array_ok. vm_compute. auto.
  - refine (outcome_and_state _ _ _). vm_compute. reflexivity.
Defined.

Lemma phase2_record_sequences T P fuel :
  forall o i w,
    exists l,
      snd (phase2 record_call T fuel P o i w) = w ++ l /\
      forall (k : nat) c,
        l !! k = Some c ->
        c_sequence c = Nat.iter (Datatypes.S k) (fun x => s32 (x + 1)) i.
Proof.
  induction fuel as [|fuel IH]; intros o i w; cbn [phase2].
  - exists []. split; [unfold out_of_fuel; cbn [snd]; rewrite app_nil_r; reflexivity|].
    intros k c Hc. discriminate Hc.
  - destruct (_ >? MiB).
    + cbv zeta. unfold bind at 1, record_call at 1.
      destruct (IH (s64 (u64 (u64 o + T) / 2)) (s32 (i + 1))
                  (w ++ [Call (s64 (u64 (u64 o + T) / 2)) P (s32 (i + 1))]))
        as (l & Hl & Hseq).
      exists (Call (s64 (u64 (u64 o + T) / 2)) P (s32 (i + 1)) :: l). split.
      * rewrite Hl, <- app_assoc. reflexivity.
      * intros [|k] c Hc.
        -- injection Hc as <-. reflexivity.
        -- cbn in Hc. rewrite (Hseq k c Hc). rewrite !Nat.iter_succ_r.
           reflexivity.
    + exists []. split; [unfold ret; cbn [snd]; rewrite app_nil_r; reflexivity|].
      intros k c Hc. discriminate Hc.
Qed.

Lemma iter_increment (k : nat) i :
  0 <= i -> i + Z.of_nat k < 2 ^ 31 ->
  Nat.iter k (fun x => s32 (x + 1)) i = i + Z.of_nat k.
Proof.
  intros Hi. induction k as [|k IH]; intros Hk.
  - cbn. lia.
  - rewrite Nat.iter_succ. rewrite IH by lia. rewrite s32_small; lia.
Qed.

(** The two phases of the schedule and their sequence numbers. *)
Lemma schedule_phases T fuel :
  0 <= T < 2 ^ 62 -> (64 <= fuel)%nat ->
  exists (n : nat) (l2 : list call),
    (n <= 42)%nat /\ (length l2 <= 41)%nat /\
    schedule T fuel = (Exit 0 Finished, doubling 0 n ++ l2) /\
    forall (k : nat) c,
      l2 !! k = Some c -> c_sequence c = Z.of_nat n + 1 + Z.of_nat k.
Proof.
  intros HT Hfuel.
  destruct (phase1_calls T fuel HT 0) as (n & Hstop & Hall & Hrun1); [lia|lia|].
  cbn [Nat.add] in Hstop, Hall, Hrun1.
  assert (Hn : (n <= 42)%nat).
  { destruct (le_lt_dec n 42) as [|Hbig]; [assumption|].
    specialize (Hall 42%nat ltac:(lia)).
    change (MiB * pow2 42) with (2 ^ 62) in Hall. lia. }
  assert (Ho := MiB_pow2_bound n Hn).
  assert (Hquot : Z.quot (MiB * pow2 n) 2 = 524288 * pow2 n).
  { rewrite Z.quot_div_nonneg by lia. apply half_MiB_pow2. }
  assert (Hp := pow2_pos n).
  assert (Hphase2 : exists l2,
             (length l2 <= 41)%nat /\
             phase2 record_call T fuel (524288 * pow2 n) (524288 * pow2 n)
               (Z.of_nat n) (doubling 0 n)
             = (Ret tt, doubling 0 n ++ l2)).
  { destruct (Z.le_gt_cases (524288 * pow2 n) T) as [Hbig|Hsmall].
    - destruct (phase2_calls T (524288 * pow2 n) fuel HT (n - 1)
                  (524288 * pow2 n) (Z.of_nat n))
        as (l2 & Hlen & _ & _ & Hrun2); try lia.
      { destruct n as [|n].
        - change (pow2 0) with 1 in *. cbn [Nat.sub]. change (pow2 0) with 1.
          change MiB with 1048576 in *. lia.
        - replace (Datatypes.S n - 1)%nat with n by lia. rewrite pow2_S in *.
          change MiB with 1048576 in *. lia. }
      exists l2. split; [lia|]. rewrite Hrun2. apply run_calls_record.
    - assert (Hn0 : n = 0%nat).
      { destruct n as [|n]; [reflexivity|]. specialize (Hall n ltac:(lia)).
        rewrite pow2_S in Hsmall. change MiB with 1048576 in Hall. lia. }
      subst n. change (pow2 0) with 1 in *. change (524288 * 1) with 524288 in *.
      destruct (phase2_calls_wrapped T 524288 fuel HT 20 524288 0)
        as (l2 & Hlen & _ & _ & Hrun2); try lia.
      { change (pow2 20) with 1048576. lia. }
      exists l2. split; [lia|]. change (Z.of_nat 0) with 0.
      rewrite Hrun2. apply run_calls_record. }
  destruct Hphase2 as (l2 & Hlen & Hrun2).
  exists n, l2. split; [exact Hn|]. split; [exact Hlen|]. split.
  - unfold schedule, size_test. unfold bind at 1.
    change (MiB * pow2 0) with MiB in Hrun1. change (Z.of_nat 0) with 0 in Hrun1.
    rewrite Hrun1. unfold bind at 1. rewrite run_calls_record. cbn [app].
    unfold ret at 1. cbv beta iota.
    rewrite (u64_small (MiB * pow2 n)) by lia.
    destruct (Z.eqb_spec (MiB * pow2 n) T) as [|_]; [lia|]. cbn [negb].
    cbv zeta. rewrite Hquot. unfold bind. rewrite Hrun2. reflexivity.
  - destruct (phase2_record_sequences T (524288 * pow2 n) fuel
                (524288 * pow2 n) (Z.of_nat n) (doubling 0 n))
      as (l & Hl & Hseq).
    rewrite Hrun2 in Hl. cbn [snd] in Hl. apply app_inv_head in Hl. subst l.
    intros k c Hc. rewrite (Hseq k c Hc).
    assert (Hk : (k < length l2)%nat) by (eapply lookup_lt_Some; exact Hc).
    rewrite iter_increment by lia. lia.
Qed.

(** The sequence numbers of the calls of a run are natural numbers below
    256 that grow from call to call, so that no two probes of a run write
    the same pattern: the patterns differ in their first byte. *)
Theorem sequence_numbers_grow T fuel blocksize (writedata : list Z) :
  0 <= T < 2 ^ 62 -> (64 <= fuel)%nat ->
  0 < blocksize <= MAXBLOCKSIZE -> array_ok writedata ->
  exists l : list call,
    schedule T fuel = (Exit 0 Finished, l) /\
    forall (j k : nat) c c',
      (j < k)%nat -> l !! j = Some c -> l !! k = Some c' ->
      0 <= c_sequence c < c_sequence c' /\ c_sequence c' < 256 /\
      fill_pattern blocksize (c_sequence c) writedata !! 0%nat
      <> fill_pattern blocksize (c_sequence c') writedata !! 0%nat.
Proof.
  intros HT Hfuel Hb Hwd.
  assert (Hfirst : forall i, 0 <= i < 256 ->
             fill_pattern blocksize i writedata !! 0%nat = Some i).
  { intros i Hi. unfold fill_pattern. rewrite fill_loop_lookup.
    - destruct (decide _) as [_|Hbad]; [|lia].
      change (Z.of_nat 0) with 0. rewrite Z.add_0_r, Z.mod_small by lia.
      reflexivity.
    - unfold array_ok in Hwd. rewrite Hwd. cbn [Nat.add].
      apply Z2Nat.inj_le; lia. }
  revert Hfirst. generalize (fun i => fill_pattern blocksize i writedata !! 0%nat).
  intros first Hfirst. clear Hb Hwd.
  destruct (schedule_phases T fuel HT Hfuel) as (n & l2 & Hn & Hlen & Hsched & Hseq).
  exists (doubling 0 n ++ l2). split; [exact Hsched|].
  assert (Hnth : forall (j : nat) c,
             (doubling 0 n ++ l2) !! j = Some c ->
             (Z.of_nat j <= c_sequence c <= Z.of_nat j + 1) /\
             ((j < n)%nat -> c_sequence c = Z.of_nat j) /\
             ((n <= j)%nat -> c_sequence c = Z.of_nat j + 1) /\
             (j < n + length l2)%nat).
  { intros j c Hc. apply lookup_app_Some in Hc.
    rewrite doubling_length in Hc. destruct Hc as [Hc|[Hj Hc]].
    - apply doubling_lookup in Hc. destruct Hc as [Hj ->]. cbn [c_sequence Nat.add].
      repeat split; lia.
    - assert (Hk : (j - n < length l2)%nat) by (eapply lookup_lt_Some; exact Hc).
      rewrite (Hseq _ _ Hc). repeat split; lia. }
  intros j k c c' Hjk Hc Hc'.
  destruct (Hnth j c Hc) as (Hj1 & Hj2 & Hj3 & Hj4).
  destruct (Hnth k c' Hc') as (Hk1 & Hk2 & Hk3 & Hk4).
  assert (Horder : 0 <= c_sequence c < c_sequence c').
  { destruct (le_lt_dec n j) as [Hge|Hlt].
    - rewrite (Hj3 Hge), (Hk3 ltac:(lia)). lia.
    - rewrite (Hj2 Hlt). lia. }
  assert (Hsmall : c_sequence c' < 256) by lia.
  split; [exact Horder|]. split; [exact Hsmall|].
  rewrite !Hfirst by lia. intros [= Heq]. lia.
Qed.

Lemma sequence_numbers_grow_witness :
  exists l : list call,
    schedule (5 * MiB + 700) 64 = (Exit 0 Finished, l) /\
    forall (j k : nat) c c',
      (j < k)%nat -> l !! j = Some c -> l !! k = Some c' ->
      0 <= c_sequence c < c_sequence c' /\ c_sequence c' < 256 /\
      fill_pattern 512 (c_sequence c) zeros !! 0%nat
      <> fill_pattern 512 (c_sequence c') zeros !! 0%nat.
Proof.
  apply sequence_numbers_grow.
  - unfold MiB. lia.
  - lia.
  - unfold MAXBLOCKSIZE. lia.
  - reflexivity.
Defined.

(** ** [main] before the size test writes nothing *)

Section WritesNothing.
Context {D : Type} (dv : device D).

Lemma writes_nothing_ret {A} (a : A) : writes_nothing (ret (S:=world D) a).
Proof. intros w. exists []. split; [reflexivity|]. intros e []. Qed.

Lemma writes_nothing_exit {A} status site :
  writes_nothing (exit (S:=world D) (A:=A) status site).
Proof. intros w. exists []. split; [reflexivity|]. intros e []. Qed.

Lemma writes_nothing_fault {A} :
  writes_nothing (fault (S:=world D) (A:=A)).
Proof. intros w. exists []. split; [reflexivity|]. intros e []. Qed.

Lemma writes_nothing_out_of_fuel {A} :
  writes_nothing (out_of_fuel (S:=world D) (A:=A)).
Proof. intros w. exists []. split; [reflexivity|]. intros e []. Qed.

Lemma writes_nothing_bind {A B} (m : M (world D) A) (f : A -> M (world D) B) :
  writes_nothing m -> (forall a, writes_nothing (f a)) ->
  writes_nothing (bind m f).
Proof.
  intros Hm Hf w. destruct (Hm w) as (new & Hlog & Hall). unfold bind.
  destruct (m w) as [r w1]. cbn [snd] in Hlog.
  destruct r as [a| | |]; try (exists new; split; [exact Hlog|exact Hall]).
  destruct (Hf a w1) as (new' & Hlog' & Hall').
  exists (new' ++ new). split.
  - rewrite Hlog', Hlog, app_assoc. reflexivity.
  - intros e He. apply in_app_or in He. destruct He; auto.
Qed.

Lemma writes_nothing_one {A} (m : M (world D) A) :
  (forall w, exists e, log (snd (m w)) = e :: log w /\ is_write e = false) ->
  writes_nothing m.
Proof.
  intros H w. destruct (H w) as (e & Hlog & He). exists [e].
  split; [exact Hlog|]. intros e' [<-|[]]. exact He.
Qed.

Lemma writes_nothing_do_open : writes_nothing (do_open dv).
Proof.
  apply writes_nothing_one. intros w. unfold do_open.
  destruct (sys_open dv (dev w)) as [[fd errno] d].
  eexists. split; reflexivity.
Qed.

Lemma writes_nothing_do_lseek fd address : writes_nothing (do_lseek dv fd address).
Proof.
  apply writes_nothing_one. intros w. unfold do_lseek.
  destruct (sys_lseek dv fd address (dev w)) as [n d].
  eexists. split; reflexivity.
Qed.

Lemma writes_nothing_do_read fd address size :
  writes_nothing (do_read dv fd address size).
Proof.
  apply writes_nothing_one. intros w. unfold do_read.
  destruct (sys_read dv fd size (dev w)) as [got d].
  eexists. split; reflexivity.
Qed.

Lemma writes_nothing_do_fsync fd : writes_nothing (do_fsync dv fd).
Proof.
  apply writes_nothing_one. intros w. unfold do_fsync.
  destruct (sys_fsync dv fd (dev w)) as [r d].
  eexists. split; reflexivity.
Qed.

Lemma writes_nothing_do_close fd : writes_nothing (do_close dv fd).
Proof.
  apply writes_nothing_one. intros w. unfold do_close.
  destruct (sys_close dv fd (dev w)) as [r d].
  eexists. split; reflexivity.
Qed.

Lemma writes_nothing_checkedread address buf size :
  writes_nothing (checkedread dv address buf size).
Proof.
  unfold checkedread, open_and_seek, sync_and_close.
  apply writes_nothing_bind.
  - apply writes_nothing_bind; [apply writes_nothing_do_open|].
    intros [fd errno]. destruct (fd <? 0); [apply writes_nothing_exit|].
    apply writes_nothing_bind; [apply writes_nothing_do_lseek|]. intros n.
    destruct (n <? 0); [apply writes_nothing_exit|].
    destruct (negb _); [apply writes_nothing_exit|apply writes_nothing_ret].
  - intros fd. apply writes_nothing_bind; [apply writes_nothing_do_read|].
    intros [data|]; [|apply writes_nothing_exit].
    destruct (negb _); [apply writes_nothing_exit|].
    apply writes_nothing_bind; [|intros _; apply writes_nothing_ret].
    apply writes_nothing_bind; [apply writes_nothing_do_fsync|]. intros r.
    destruct (negb _); [apply writes_nothing_exit|].
    apply writes_nothing_bind; [apply writes_nothing_do_close|]. intros r'.
    destruct (negb _); [apply writes_nothing_exit|apply writes_nothing_ret].
Qed.

Lemma writes_nothing_partitions_loop blocksize count :
  forall currentblock paddr psize buffer printed,
    writes_nothing
      (partitions_loop dv blocksize count currentblock paddr psize buffer printed).
Proof.
  induction count as [|count IH]; intros currentblock paddr psize buffer printed;
    cbn [partitions_loop].
  - apply writes_nothing_ret.
  - apply writes_nothing_bind.
    + destruct (blocksize <=? u64 paddr); [|apply writes_nothing_ret].
      apply writes_nothing_bind; [apply writes_nothing_checkedread|].
      intros b. apply writes_nothing_ret.
    + intros [[cb pa] b].
      destruct ((pa <? 0) || _); [apply writes_nothing_fault|apply IH].
Qed.

Lemma writes_nothing_partitions blocksize buffer base pcount psize :
  writes_nothing (partitions dv blocksize buffer base pcount psize).
Proof.
  unfold partitions.
  apply writes_nothing_bind; [apply writes_nothing_checkedread|]. intros b.
  apply writes_nothing_bind; [apply writes_nothing_partitions_loop|].
  intros printed. apply writes_nothing_ret.
Qed.

Lemma writes_nothing_find_gpt_header steps :
  forall size buffer, writes_nothing (find_gpt_header dv steps size buffer).
Proof.
  induction steps as [|steps IH]; intros size buffer; cbn [find_gpt_header].
  - apply writes_nothing_out_of_fuel.
  - destruct (size <=? MAXBLOCKSIZE); [|apply writes_nothing_ret].
    apply writes_nothing_bind; [apply writes_nothing_checkedread|]. intros b.
    destruct (le64 b 0 =? GPT_SIGNATURE); [apply writes_nothing_ret|apply IH].
Qed.

Lemma writes_nothing_inspect main_buffer partitions_buffer fuel blocksize :
  writes_nothing (inspect dv main_buffer partitions_buffer fuel blocksize).
Proof.
  unfold inspect.
  apply writes_nothing_bind; [apply writes_nothing_checkedread|]. intros buffer.
  destruct (at_index buffer 450 =? 238); [|apply writes_nothing_ret].
  unfold gpt.
  apply writes_nothing_bind; [apply writes_nothing_find_gpt_header|].
  intros [size b]. destruct (MAXBLOCKSIZE <? size); [apply writes_nothing_ret|].
  apply writes_nothing_bind; [apply writes_nothing_checkedread|]. intros b1.
  apply writes_nothing_bind; [apply writes_nothing_partitions|]. intros _.
  apply writes_nothing_bind; [apply writes_nothing_checkedread|]. intros b2.
  destruct (negb _); [apply writes_nothing_ret|].
  apply writes_nothing_bind; [apply writes_nothing_checkedread|]. intros _.
  apply writes_nothing_bind; [apply writes_nothing_partitions|]. intros _.
  apply writes_nothing_ret.
Qed.

End WritesNothing.

(** [confirm] returns true only for a line from a terminal that begins
    with Y. *)
Lemma first_write_in (l : list event) d :
  negb (Nat.eqb (length (List.filter is_write l)) 0) = true ->
  In (nth 0 (List.filter is_write l) d) l /\
  is_write (nth 0 (List.filter is_write l) d) = true.
Proof.
  intros H. apply List.filter_In.
  destruct (List.filter is_write l) as [|e0 l0]; [discriminate|].
  left. reflexivity.
Qed.

Lemma confirm_true a :
  confirm a = inr true ->
  is_tty a = true /\
  exists rest, line a = Some (String.String char_Y rest).
Proof.
  unfold confirm. destruct (is_tty a); cbn [negb]; [|discriminate].
  destruct (line a) as [[|c rest]|]; try discriminate.
  intros [= Hc]. apply Ascii.eqb_eq in Hc. subst c. eauto.
Qed.

(** A write reaches the device only after all the checks of [main] and
    two answers Y: if the log of the system calls after [main] has a write
    that it did not have before, then the effective user is root, there is
    exactly one argument and it begins with [/dev/], the first [open], both
    [ioctl] calls and the [close] succeeded, [/proc/mounts] was read to its
    end without a line that begins with the file name, and both questions
    were answered at a terminal by a line that begins with Y. *)
Theorem no_write_without_consent D (dv : device D) env main_buffer
    partitions_buffer junk fuel (w : world D) e :
  In e (log (snd (main dv env main_buffer partitions_buffer junk fuel w))) ->
  is_write e = true ->
  (forall e', In e' (log w) -> is_write e' = false) ->
  euid env = 0 /\
  length (argv env) = 2%nat /\
  String.prefix "/dev/" (filename env) = true /\
  0 <= fst (first_open env) /\
  0 <= fst (fst (size_ioctl env)) /\
  0 <= fst (fst (sector_ioctl env)) /\
  first_close env = 0 /\
  (exists chunks,
      mounts env = Some (chunks, true) /\
      scan_mounts (filename env) false chunks true = None) /\
  (is_tty (first_answer env) = true /\
   exists rest, line (first_answer env) = Some (String.String char_Y rest)) /\
  (is_tty (second_answer env) = true /\
   exists rest, line (second_answer env) = Some (String.String char_Y rest)).
Proof.
  intros Hin Hwrite Hbefore.
  assert (Hstill : forall w' : world D,
            (exists new, log w' = new ++ log w /\
                         forall e', In e' new -> is_write e' = false) ->
            In e (log w') -> False).
  { intros w' (new & Hlog & Hnew) He. rewrite Hlog in He.
    apply in_app_or in He. destruct He as [He|He].
    - rewrite (Hnew e He) in Hwrite. discriminate.
    - rewrite (Hbefore e He) in Hwrite. discriminate. }
  unfold main in Hin. unfold front in *.
  destruct (Z.eqb_spec (euid env) 0) as [Heuid|]; cbn [negb] in Hin;
    [|exfalso; apply (Hstill w); [exists []; split; [reflexivity|intros ? []]|exact Hin]].
  destruct (Z.eqb_spec (Z.of_nat (length (argv env))) 2) as [Hargc|];
    cbn [negb] in Hin;
    [|exfalso; apply (Hstill w); [exists []; split; [reflexivity|intros ? []]|exact Hin]].
  destruct (String.prefix "/dev/" (filename env)) eqn:Hname; cbn [negb] in Hin;
    [|exfalso; apply (Hstill w); [exists []; split; [reflexivity|intros ? []]|exact Hin]].
  destruct (first_open env) as [fd errno].
  destruct (Z.ltb_spec fd 0) as [|Hfd];
    [exfalso; apply (Hstill w); [exists []; split; [reflexivity|intros ? []]|exact Hin]|].
  destruct (size_ioctl env) as [[res1 errno1] totalsize].
  destruct (Z.ltb_spec res1 0) as [|Hres1];
    [exfalso; apply (Hstill w); [exists []; split; [reflexivity|intros ? []]|exact Hin]|].
  destruct (sector_ioctl env) as [[res2 errno2] blocksize].
  destruct (Z.ltb_spec res2 0) as [|Hres2];
    [exfalso; apply (Hstill w); [exists []; split; [reflexivity|intros ? []]|exact Hin]|].
  destruct (Z.eqb_spec (first_close env) 0) as [Hclose|]; cbn [negb] in Hin;
    [|exfalso; apply (Hstill w); [exists []; split; [reflexivity|intros ? []]|exact Hin]].
  pose proof (writes_nothing_inspect dv main_buffer partitions_buffer fuel
                blocksize w) as Hinspect.
  destruct (inspect dv main_buffer partitions_buffer fuel blocksize w)
    as [[blocksize'|st si| |] w1]; cbn [snd] in Hinspect;
    try (exfalso; exact (Hstill w1 Hinspect Hin)).
  unfold gate in Hin.
  destruct (mounts env) as [[chunks at_eof]|];
    [|exfalso; exact (Hstill w1 Hinspect Hin)].
  destruct (scan_mounts (filename env) false chunks at_eof) eqn:Hscan;
    [exfalso; exact (Hstill w1 Hinspect Hin)|].
  assert (Heof : at_eof = true).
  { clear - Hscan. revert Hscan. generalize false.
    induction chunks as [|c chunks IH]; intros skipping; cbn [scan_mounts].
    - destruct at_eof; [reflexivity|discriminate].
    - destruct skipping; [apply IH|].
      destruct (String.prefix _ c); [discriminate|apply IH]. }
  subst at_eof.
  destruct (confirm (first_answer env)) as [stop|[|]] eqn:Hfirst;
    try (exfalso; exact (Hstill w1 Hinspect Hin)).
  destruct (confirm (second_answer env)) as [stop|[|]] eqn:Hsecond;
    try (exfalso; exact (Hstill w1 Hinspect Hin)).
  cbn [fst]. repeat split; try assumption; try lia.
  - exists chunks. split; [reflexivity|exact Hscan].
  - apply confirm_true in Hfirst. apply Hfirst.
  - apply confirm_true in Hfirst. apply Hfirst.
  - apply confirm_true in Hsecond. apply Hsecond.
  - apply confirm_true in Hsecond. apply Hsecond.
Qed.

Lemma no_write_without_consent_witness :
  euid willing = 0 /\ length (argv willing) = 2%nat /\
  String.prefix "/dev/" (filename willing) = true /\
  0 <= fst (first_open willing) /\ 0 <= fst (fst (size_ioctl willing)) /\
  0 <= fst (fst (sector_ioctl willing)) /\
  first_close willing = 0 /\
  (exists chunks, mounts willing = Some (chunks, true) /\
     scan_mounts (filename willing) false chunks true = None) /\
  (is_tty (first_answer willing) = true /\
   exists rest, line (first_answer willing) = Some (String.String char_Y rest)) /\
  (is_tty (second_answer willing) = true /\
   exists rest, line (second_answer willing) = Some (String.String char_Y rest)).
Proof.
  pose (out := main ideal willing zeros zeros (fun _ => clean_frame) 64
                 (World two_tone [])).
  assert (Hsome : negb (Nat.eqb (length (List.filter is_write (log (snd out)))) 0)
                  = true).
  { vm_compute. reflexivity. }
  destruct (first_write_in (log (snd out)) (EvClose 0) Hsome) as [Hin Hw].
  apply (no_write_without_consent _ ideal willing zeros zeros
           (fun _ => clean_frame) 64 (World two_tone []) _ Hin Hw).
  intros e' [].
Defined.

(** ** The search for the GPT header *)

(** The test of line 340, a comparison of the first eight bytes of the
    buffer read as one number with [0x5452415020494645], holds exactly for
    a block that begins with the characters of "EFI PART". *)
Theorem signature_is_EFI_PART (b : list Z) :
  Forall (fun x => 0 <= x < 256) (take 8 b) -> (8 <= length b)%nat ->
  le64 b 0 = GPT_SIGNATURE <-> take 8 b = [69; 70; 73; 32; 80; 65; 82; 84].
Proof.
  intros Hbytes Hlen.
  destruct b as [|b0 [|b1 [|b2 [|b3 [|b4 [|b5 [|b6 [|b7 b]]]]]]]];
    cbn [length] in Hlen; try lia.
  cbn [take] in *.
  repeat match goal with
         | H : Forall _ (_ :: _) |- _ =>
             let H1 := fresh "Hb" in
             let H2 := fresh "Hrest" in
             apply Forall_cons in H; destruct H as [H1 H2]
         end.
  unfold le64, GPT_SIGNATURE. cbn [le_bytes]. unfold at_index.
  cbn [lookup_total list_lookup_total]. split.
  - intros Heq.
    assert (b0 = 69 /\ b1 = 70 /\ b2 = 73 /\ b3 = 32 /\ b4 = 80 /\ b5 = 65
            /\ b6 = 82 /\ b7 = 84) as (-> & -> & -> & -> & -> & -> & -> & ->)
      by lia.
    reflexivity.
  - intros [= -> -> -> -> -> -> -> ->]. reflexivity.
Qed.

Lemma signature_is_EFI_PART_witness :
  le64 [69; 70; 73; 32; 80; 65; 82; 84; 0; 0] 0 = GPT_SIGNATURE <->
  take 8 [69; 70; 73; 32; 80; 65; 82; 84; 0; 0] = [69; 70; 73; 32; 80; 65; 82; 84].
Proof.
  apply signature_is_EFI_PART.
  - cbn [take]. repeat constructor; lia.
  - cbn [length]. lia.
Defined.

Lemma checkedread_transfers {D} (dv : device D) address buf size w b w' :
  checkedread dv address buf size w = (Ret b, w') ->
  exists data,
    Z.of_nat (length data) = size /\ b = stored data buf /\
    transfers (history w')
    = transfers (history w) ++ [EvRead address size (Some data)].
Proof.
  intros H. apply checkedread_ret in H.
  destruct H as (fd & errno & data & Hlen & Hb & Hlog).
  exists data. split; [exact Hlen|]. split; [exact Hb|].
  unfold history. rewrite Hlog. cbn [rev]. unfold transfers.
  rewrite !List.filter_app. cbn [List.filter is_transfer app].
  rewrite !app_nil_r. reflexivity.
Qed.

Lemma le_bytes_ext width (b b' : list Z) (k k' : nat) :
  (forall j : nat, (j < width)%nat -> at_index b (k + j) = at_index b' (k' + j)) ->
  le_bytes width b k = le_bytes width b' k'.
Proof.
  revert k k'. induction width as [|width IH]; intros k k' H; [reflexivity|].
  cbn [le_bytes]. rewrite (IH (S k) (S k')).
  - specialize (H 0%nat ltac:(lia)). rewrite !Nat.add_0_r in H. rewrite H.
    reflexivity.
  - intros j Hj. specialize (H (S j) ltac:(lia)).
    rewrite !Nat.add_succ_r in H. exact H.
Qed.

(** The number tested after a read is the one at the start of the block
    that was read. *)
Lemma le64_stored (data buf : list Z) :
  (8 <= length data)%nat -> le64 (stored data buf) 0 = le64 data 0.
Proof.
  intros H. unfold le64. apply le_bytes_ext. intros j Hj.
  apply at_index_stored_lt. lia.
Qed.

(** The search from the [k]-th size on. *)
Lemma find_gpt_header_cases {D} (dv : device D) steps :
  forall (k : nat) buffer (w : world D),
    (k <= 4)%nat -> (5 <= k + steps)%nat ->
    match find_gpt_header dv steps (512 * pow2 k) buffer w with
    | (Ret (size, b), w') =>
        exists reads : list event,
          transfers (history w') = transfers (history w) ++ reads /\
          (k + length reads <= 4)%nat /\
          (forall (i : nat) e,
              reads !! i = Some e ->
              exists data,
                Z.of_nat (length data) = 512 * pow2 (k + i) /\
                e = EvRead (512 * pow2 (k + i)) (512 * pow2 (k + i)) (Some data) /\
                (le64 data 0 = GPT_SIGNATURE <->
                 S i = length reads /\ size <= MAXBLOCKSIZE)) /\
          (((1 <= length reads)%nat /\
            size = 512 * pow2 (k + length reads - 1) /\
            size <= MAXBLOCKSIZE /\ le64 b 0 = GPT_SIGNATURE) \/
           ((k + length reads = 4)%nat /\ size = 8192))
    | (Exit status _, _) => status = -1
    | _ => False
    end.
Proof.
  induction steps as [|steps IH]; intros k buffer w Hk Hsteps; [lia|].
  cbn [find_gpt_header].
  assert (Hp := pow2_pos k). assert (Hle := pow2_le k 4 Hk).
  change (pow2 4) with 16 in Hle.
  destruct (Z.leb_spec (512 * pow2 k) MAXBLOCKSIZE) as [Hin|Hout].
  - assert (Hk3 : (k <= 3)%nat).
    { destruct (Nat.eq_dec k 4%nat) as [->|]; [|lia].
      change (512 * pow2 4) with 8192 in Hin. unfold MAXBLOCKSIZE in Hin. lia. }
    unfold bind at 1.
    pose proof (checkedread_cases dv (512 * pow2 k) buffer (512 * pow2 k) w) as Hc.
    destruct (checkedread dv (512 * pow2 k) buffer (512 * pow2 k) w)
      as [[b|st si| |] w1] eqn:Hread; try contradiction; [|apply Hc].
    clear Hc. apply checkedread_transfers in Hread.
    destruct Hread as (data & Hlen & Hb & Hlog).
    assert (Hsame : le64 b 0 = le64 data 0).
    { rewrite Hb. apply le64_stored. lia. }
    destruct (Z.eqb_spec (le64 b 0) GPT_SIGNATURE) as [Hsig|Hsig].
    + unfold ret. exists [EvRead (512 * pow2 k) (512 * pow2 k) (Some data)].
      split; [exact Hlog|]. cbn [length]. split; [lia|]. split.
      * intros [|i] e He; [|discriminate He]. injection He as <-.
        rewrite Nat.add_0_r. exists data. split; [exact Hlen|].
        split; [reflexivity|]. split.
        -- intros _. split; [reflexivity|exact Hin].
        -- intros _. rewrite <- Hsame. exact Hsig.
      * left. split; [lia|]. replace (k + 1 - 1)%nat with k by lia.
        split; [reflexivity|]. split; [exact Hin|exact Hsig].
    + rewrite u64_small by lia.
      replace (512 * pow2 k * 2) with (512 * pow2 (S k)) by (rewrite pow2_S; lia).
      specialize (IH (S k) b w1 ltac:(lia) ltac:(lia)).
      destruct (find_gpt_header dv steps (512 * pow2 (S k)) b w1)
        as [[[size b']|st si| |] w2]; try contradiction; [|exact IH].
      destruct IH as (reads & Hlog2 & Hn & Hreads & Hend).
      exists (EvRead (512 * pow2 k) (512 * pow2 k) (Some data) :: reads).
      split; [rewrite Hlog2, Hlog, <- app_assoc; reflexivity|].
      cbn [length]. split; [lia|]. split.
      * intros [|i] e He.
        -- injection He as <-. rewrite Nat.add_0_r. exists data.
           split; [exact Hlen|]. split; [reflexivity|]. split.
           ++ intros Hdata. exfalso. apply Hsig. rewrite Hsame. exact Hdata.
           ++ intros [Hone Hsize]. exfalso.
              destruct Hend as [(Hsome & _)|(_ & Hbig)];
                [lia|unfold MAXBLOCKSIZE in Hsize; lia].
        -- cbn in He. destruct (Hreads i e He) as (data' & Hlen' & -> & Hiff).
           replace (k + S i)%nat with (S k + i)%nat by lia.
           exists data'. split; [exact Hlen'|]. split; [reflexivity|].
           rewrite Hiff. split; intros [Hlast Hsize]; (split; [lia|exact Hsize]).
      * destruct Hend as [(Hone & Hsize & Hfits & Hsig')|(Hfour & Hsize)].
        -- left. split; [lia|].
           replace (k + S (length reads) - 1)%nat
             with (S k + length reads - 1)%nat by lia.
           split; [exact Hsize|]. split; [exact Hfits|exact Hsig'].
        -- right. split; [lia|exact Hsize].
  - exists []. rewrite app_nil_r. split; [reflexivity|]. cbn [length].
    assert (k = 4%nat).
    { destruct (Nat.eq_dec k 4%nat) as [|]; [assumption|].
      assert (H3 := pow2_le k 3 ltac:(lia)). change (pow2 3) with 8 in H3.
      unfold MAXBLOCKSIZE in Hout. lia. }
    subst k. split; [lia|]. split; [intros i e He; discriminate He|].
    right. split; reflexivity.
Qed.

(** The search that [main] makes, from 512 bytes on: blocks of 512, 1024,
    2048 and 4096 bytes are read, each at the address that equals its
    size, and what is tested after a read is the block just read: a block
    begins with the signature exactly when it is the last one read and the
    search has found a header.  The result is then the size of that block,
    and the buffer holds it; when none of the four blocks begins with the
    signature the result is 8192, more than the arrays of the program
    hold. *)
Theorem gpt_header_search D (dv : device D) fuel buffer (w : world D) :
  (5 <= fuel)%nat ->
  match find_gpt_header dv fuel MINBLOCKSIZE buffer w with
  | (Ret (size, b), w') =>
      exists reads : list event,
        transfers (history w') = transfers (history w) ++ reads /\
        (length reads <= 4)%nat /\
        (forall (i : nat) e,
            reads !! i = Some e ->
            exists data,
              Z.of_nat (length data) = 512 * pow2 i /\
              e = EvRead (512 * pow2 i) (512 * pow2 i) (Some data) /\
              (le64 data 0 = GPT_SIGNATURE <->
               S i = length reads /\ size <= MAXBLOCKSIZE)) /\
        (((1 <= length reads)%nat /\
          size = 512 * pow2 (length reads - 1) /\ size <= MAXBLOCKSIZE /\
          le64 b 0 = GPT_SIGNATURE) \/
         (length reads = 4%nat /\ size = 8192 /\ MAXBLOCKSIZE < size))
  | (Exit status _, _) => status = -1
  | _ => False
  end.
Proof.
  intros Hfuel.
  pose proof (find_gpt_header_cases dv fuel 0 buffer w ltac:(lia) ltac:(lia)) as H.
  change (512 * pow2 0) with MINBLOCKSIZE in H.
  destruct (find_gpt_header dv fuel MINBLOCKSIZE buffer w)
    as [[[size b]|st si| |] w']; try contradiction; [|exact H].
  destruct H as (reads & Hlog & Hn & Hreads & Hend). cbn [Nat.add] in *.
  exists reads. split; [exact Hlog|]. split; [exact Hn|].
  split; [exact Hreads|].
  destruct Hend as [Hfound|(Hfour & Hsize)]; [left; exact Hfound|].
  right. split; [exact Hfour|]. split; [exact Hsize|].
  subst size. unfold MAXBLOCKSIZE. lia.
Qed.

Lemma gpt_header_search_witness :
  match find_gpt_header ideal 5 MINBLOCKSIZE zeros (World two_tone []) with
  | (Ret (size, b), w') =>
      exists reads : list event,
        transfers (history w')
        = transfers (history (World two_tone [])) ++ reads /\
        (length reads <= 4)%nat /\
        (forall (i : nat) e,
            reads !! i = Some e ->
            exists data,
              Z.of_nat (length data) = 512 * pow2 i /\
              e = EvRead (512 * pow2 i) (512 * pow2 i) (Some data) /\
              (le64 data 0 = GPT_SIGNATURE <->
               S i = length reads /\ size <= MAXBLOCKSIZE)) /\
        (((1 <= length reads)%nat /\
          size = 512 * pow2 (length reads - 1) /\ size <= MAXBLOCKSIZE /\
          le64 b 0 = GPT_SIGNATURE) \/
         (length reads = 4%nat /\ size = 8192 /\ MAXBLOCKSIZE < size))
  | (Exit status _, _) => status = -1
  | _ => False
  end.
Proof.
  apply gpt_header_search. lia.
Defined.

(** ** A GPT disk without a header *)

Lemma at_index_block d address size (k : nat) :
  (k < Z.to_nat size)%nat ->
  at_index (block d address size) k = cells d (address + Z.of_nat k).
Proof.
  intros H. unfold at_index. rewrite list_lookup_total_alt.
  rewrite block_lookup by exact H. reflexivity.
Qed.

Lemma le_bytes_stored_block width d address size buf (k : nat) :
  0 <= size -> (k + width <= Z.to_nat size)%nat ->
  le_bytes width (stored (block d address size) buf) k
  = le_bytes width (block d (address + Z.of_nat k) (Z.of_nat width)) 0.
Proof.
  intros Hs Hk. apply le_bytes_ext. intros j Hj.
  rewrite at_index_stored_lt by (rewrite block_length; lia).
  rewrite !at_index_block by lia. f_equal. lia.
Qed.

Lemma ideal_find_gpt_header_absent d (n : nat) : forall steps k buffer p0 l,
  (k + n = 4)%nat -> (n < steps)%nat ->
  (forall j : nat, (k <= j <= 3)%nat ->
     le64 (block d (512 * pow2 j) 8) 0 <> GPT_SIGNATURE) ->
  exists buffer' p l',
    find_gpt_header ideal steps (512 * pow2 k) buffer (World (Disk (cells d) p0) l)
    = (Ret (8192, buffer'), World (Disk (cells d) p) (l' ++ l)) /\
    forall e, In e l' -> is_write e = false.
Proof.
  induction n as [|n IH]; intros steps k buffer p0 l Hk Hsteps Habsent.
  - destruct steps as [|steps]; [lia|]. assert (k = 4%nat) as -> by lia.
    exists buffer, p0, []. split; [reflexivity|]. intros e [].
  - destruct steps as [|steps]; [lia|].
    assert (Hpow : 512 <= 512 * pow2 k <= 4096).
    { pose proof (pow2_pos k). pose proof (pow2_le k 3 ltac:(lia)) as Hle.
      change (pow2 3) with 8 in Hle. lia. }
    cbn [find_gpt_header].
    destruct (Z.leb_spec (512 * pow2 k) MAXBLOCKSIZE) as [_|Hbig];
      [|unfold MAXBLOCKSIZE in Hbig; lia].
    unfold bind at 1. rewrite ideal_checkedread by lia. cbn [dev log cells].
    unfold le64 at 1. rewrite le_bytes_stored_block by lia.
    change (Z.of_nat 8) with 8. rewrite Z.add_0_r.
    rewrite block_same_cells.
    destruct (Z.eqb_spec (le_bytes 8 (block d (512 * pow2 k) 8) 0) GPT_SIGNATURE)
      as [Hsig|_].
    { exfalso. apply (Habsent k ltac:(lia)). exact Hsig. }
    assert (Hnext : u64 (512 * pow2 k * 2) = 512 * pow2 (S k)).
    { rewrite pow2_S. unfold u64. rewrite Z.mod_small; lia. }
    rewrite Hnext.
    destruct (IH steps (S k)
                (stored (block d (512 * pow2 k) (512 * pow2 k)) buffer)
                (512 * pow2 k + 512 * pow2 k)
                (EvClose 0 :: EvFsync 0
                   :: EvRead (512 * pow2 k) (512 * pow2 k)
                        (Some (block d (512 * pow2 k) (512 * pow2 k)))
                   :: EvSeek (512 * pow2 k) (512 * pow2 k) :: EvOpen 3 0 :: l)
                ltac:(lia) ltac:(lia))
      as (buffer' & p & l' & Hrun & Hl').
    { intros j Hj. apply Habsent. lia. }
    exists buffer', p,
      (l' ++ [EvClose 0; EvFsync 0;
              EvRead (512 * pow2 k) (512 * pow2 k)
                (Some (block d (512 * pow2 k) (512 * pow2 k)));
              EvSeek (512 * pow2 k) (512 * pow2 k); EvOpen 3 0]).
    split.
    + rewrite <- app_assoc. cbn [app].
      etransitivity; [|exact Hrun]. reflexivity.
    + intros e He. apply in_app_or in He. destruct He as [He|He];
        [exact (Hl' e He)|].
      cbn [In] in He.
      destruct He as [<-|[<-|[<-|[<-|[<-|[]]]]]]; reflexivity.
Qed.

(** A disk that is marked as a GPT disk in its master boot record but has
    no header at 512, 1024, 2048 or 4096 leaves the block size at 8192,
    twice what the arrays of [readbacktest] hold: the header is looked for
    with five reads, nothing is written, and the loop of lines 338-343 ends
    with [size] beyond [MAXBLOCKSIZE], which line 344 stores in
    [blocksize]. *)
Theorem missing_gpt_header_sets_blocksize_8192 (d : disk) l main_buffer
    partitions_buffer fuel blocksize :
  (5 <= fuel)%nat ->
  cells d 450 = 238 ->
  (forall k : nat, (k <= 3)%nat ->
     le64 (block d (512 * pow2 k) 8) 0 <> GPT_SIGNATURE) ->
  exists p l',
    inspect ideal main_buffer partitions_buffer fuel blocksize (World d l)
    = (Ret 8192, World (Disk (cells d) p) (l' ++ l)) /\
    (forall e, In e l' -> is_write e = false) /\
    MAXBLOCKSIZE < 8192.
Proof.
  intros Hfuel Htype Habsent.
  unfold inspect. unfold bind at 1.
  rewrite ideal_checkedread by (unfold MINBLOCKSIZE; lia). cbn [dev log].
  rewrite at_index_stored_lt by (rewrite block_length; unfold MINBLOCKSIZE; lia).
  rewrite at_index_block by (unfold MINBLOCKSIZE; lia).
  change (0 + Z.of_nat 450) with 450. rewrite Htype.
  change (238 =? 238) with true. cbv iota.
  unfold gpt. unfold bind at 1.
  destruct (ideal_find_gpt_header_absent d 4 fuel 0
              (stored (block d 0 MINBLOCKSIZE) main_buffer)
              (0 + MINBLOCKSIZE)
              (EvClose 0 :: EvFsync 0
                 :: EvRead 0 MINBLOCKSIZE (Some (block d 0 MINBLOCKSIZE))
                 :: EvSeek 0 0 :: EvOpen 3 0 :: l)
              ltac:(lia) ltac:(lia))
    as (buffer' & p & l' & Hrun & Hl').
  { intros j Hj. apply Habsent. lia. }
  change (512 * pow2 0) with MINBLOCKSIZE in Hrun.
  exists p,
    (l' ++ [EvClose 0; EvFsync 0;
            EvRead 0 MINBLOCKSIZE (Some (block d 0 MINBLOCKSIZE));
            EvSeek 0 0; EvOpen 3 0]).
  split; [|split].
  - rewrite <- app_assoc. cbn [app].
    lazymatch goal with
    | |- context [find_gpt_header ideal fuel MINBLOCKSIZE ?b ?w] =>
        replace (find_gpt_header ideal fuel MINBLOCKSIZE b w)
          with (Ret (A:=Z * list Z) (8192, buffer'),
                World (Disk (cells d) p)
                  (l' ++ EvClose 0 :: EvFsync 0
                      :: EvRead 0 MINBLOCKSIZE (Some (block d 0 MINBLOCKSIZE))
                      :: EvSeek 0 0 :: EvOpen 3 0 :: l))
    end.
    cbv iota beta. change (MAXBLOCKSIZE <? 8192) with true. reflexivity.
  - intros e He. apply in_app_or in He. destruct He as [He|He];
      [exact (Hl' e He)|].
    cbn [In] in He. destruct He as [<-|[<-|[<-|[<-|[<-|[]]]]]]; reflexivity.
  - unfold MAXBLOCKSIZE. lia.
Qed.

Lemma missing_gpt_header_sets_blocksize_8192_witness :
  exists p l',
    inspect ideal zeros zeros 5 512 (World protective_only [])
    = (Ret 8192, World (Disk (cells protective_only) p) (l' ++ [])) /\
    (forall e, In e l' -> is_write e = false) /\
    MAXBLOCKSIZE < 8192.
Proof.
  apply (missing_gpt_header_sets_blocksize_8192 protective_only [] zeros zeros
           5 512).
  - lia.
  - reflexivity.
  - intros k Hk.
    destruct k as [|[|[|[|k]]]]; [vm_compute; discriminate ..|lia].
Defined.

(** ** The partition table *)

Lemma table_S d blocksize base psize n :
  table d blocksize base psize (S n)
  = (if fst (table_entry d blocksize base) =? snd (table_entry d blocksize base)
     then [] else [table_entry d blocksize base])
    ++ table d blocksize (base + psize) psize n.
Proof.
  unfold table. cbn [seq map List.filter].
  change (Z.of_nat 0) with 0. rewrite Z.mul_0_l, Z.add_0_r.
  rewrite <- seq_shift, map_map.
  assert (Hmap : map (fun p : nat =>
                        table_entry d blocksize (base + Z.of_nat (S p) * psize))
                     (seq 0 n)
                 = map (fun p : nat =>
                          table_entry d blocksize
                            (base + psize + Z.of_nat p * psize))
                       (seq 0 n)).
  { apply map_ext. intros p. f_equal. lia. }
  rewrite Hmap.
  destruct (fst (table_entry d blocksize base)
            =? snd (table_entry d blocksize base)); reflexivity.
Qed.

Lemma multiple_below psize a b :
  0 < psize -> (psize | a) -> (psize | b) -> a < b -> a + psize <= b.
Proof.
  intros Hp [x ->] [y ->] Hlt. assert (x < y) by nia. nia.
Qed.

Section IdealPartitions.
Variable d : disk.
Variable blocksize : Z.
Variable psize : Z.
Hypothesis Hblocksize : 0 < blocksize <= MAXBLOCKSIZE.
Hypothesis Hpsize : 48 <= psize.
Hypothesis Hdivides : (psize | blocksize).

Lemma holds_block_stored buffer currentblock :
  holds_block d blocksize (stored (block d currentblock blocksize) buffer)
    currentblock.
Proof.
  intros k Hk. rewrite at_index_stored_lt by (rewrite block_length; lia).
  apply at_index_block. lia.
Qed.

Lemma le64_in_block buffer currentblock paddr offset :
  holds_block d blocksize buffer currentblock ->
  0 <= paddr -> 0 <= offset -> paddr + offset + 8 <= blocksize ->
  le64 buffer (Z.to_nat (paddr + offset))
  = le64 (block d (currentblock + paddr + offset) 8) 0.
Proof.
  intros Hholds Hpaddr Hoffset Hin. unfold le64. apply le_bytes_ext.
  intros j Hj. rewrite Hholds by lia.
  rewrite at_index_block by lia. f_equal. lia.
Qed.

Lemma ideal_partitions_loop (count : nat) :
  forall currentblock paddr buffer printed p0 l,
    0 <= currentblock -> 0 <= paddr <= blocksize -> (psize | paddr) ->
    currentblock + paddr + Z.of_nat count * psize < 2 ^ 63 ->
    holds_block d blocksize buffer currentblock ->
    exists p l',
      partitions_loop ideal blocksize count currentblock paddr psize buffer
        printed (World (Disk (cells d) p0) l)
      = (Ret (rev (table d blocksize (currentblock + paddr) psize count)
              ++ printed),
         World (Disk (cells d) p) (l' ++ l)) /\
      forall e, In e l' -> is_write e = false.
Proof.
  induction count as [|count IH];
    intros currentblock paddr buffer printed p0 l Hcb Hpaddr Hmult Hbound Hholds.
  - exists p0, []. split; [reflexivity|]. intros e [].
  - cbn [partitions_loop]. unfold MAXBLOCKSIZE in Hblocksize.
    rewrite u64_small by lia.
    assert (Hstep :
      forall currentblock' paddr' buffer' p1 l1 (new : list event),
        0 <= currentblock' -> 0 <= paddr' < blocksize -> (psize | paddr') ->
        currentblock' + paddr' = currentblock + paddr ->
        holds_block d blocksize buffer' currentblock' ->
        l1 = new ++ l -> (forall e, In e new -> is_write e = false) ->
        exists p l',
          (let '(cb, pa, bf) := (currentblock', paddr', buffer') in
           if (pa <? 0) || (MAXBLOCKSIZE <? pa + 48) then fault
           else
             let start := s64 (le64 bf (Z.to_nat (pa + 32)) * blocksize) in
             let end_ := s64 (le64 bf (Z.to_nat (pa + 40)) * blocksize) in
             partitions_loop ideal blocksize count cb (s64 (pa + psize)) psize
               bf (if start =? end_ then printed else (start, end_) :: printed))
            (World (Disk (cells d) p1) l1)
          = (Ret (rev (table d blocksize (currentblock + paddr) psize (S count))
                  ++ printed),
             World (Disk (cells d) p) (l' ++ l)) /\
          forall e, In e l' -> is_write e = false).
    { intros cb pa bf p1 l1 new Hcb' Hpa Hmult' Hsame Hholds' -> Hnew.
      cbv zeta beta iota.
      pose proof (multiple_below psize pa blocksize ltac:(lia) Hmult' Hdivides
                    ltac:(lia)) as Hroom.
      destruct (Z.ltb_spec pa 0) as [|_]; [lia|].
      destruct (Z.ltb_spec MAXBLOCKSIZE (pa + 48)) as [Hout|_];
        [unfold MAXBLOCKSIZE in Hout; lia|].
      cbn [orb].
      rewrite (le64_in_block bf cb pa 32 Hholds') by lia.
      rewrite (le64_in_block bf cb pa 40 Hholds') by lia.
      rewrite (s64_small (pa + psize)) by lia.
      rewrite Hsame.
      destruct (IH cb (pa + psize) bf
                  (if s64 (le64 (block d (currentblock + paddr + 32) 8) 0
                           * blocksize)
                      =? s64 (le64 (block d (currentblock + paddr + 40) 8) 0
                              * blocksize)
                   then printed
                   else (s64 (le64 (block d (currentblock + paddr + 32) 8) 0
                              * blocksize),
                         s64 (le64 (block d (currentblock + paddr + 40) 8) 0
                              * blocksize)) :: printed)
                  p1 (new ++ l) Hcb' ltac:(lia))
        as (p & l' & Hrun & Hl').
      { apply Z.divide_add_r; [exact Hmult'|apply Z.divide_refl]. }
      { lia. }
      { exact Hholds'. }
      exists p, (l' ++ new). split.
      - rewrite Hrun. rewrite <- app_assoc. f_equal. rewrite table_S.
        replace (cb + (pa + psize)) with (currentblock + paddr + psize) by lia.
        unfold table_entry at 1 2 3. cbn [fst snd].
        destruct (s64 (le64 (block d (currentblock + paddr + 32) 8) 0 * blocksize)
                  =? s64 (le64 (block d (currentblock + paddr + 40) 8) 0
                          * blocksize)).
        + reflexivity.
        + cbn [app rev]. rewrite <- app_assoc. reflexivity.
      - intros e He. apply in_app_or in He. destruct He as [He|He];
          [exact (Hl' e He)|exact (Hnew e He)]. }
    destruct (Z.leb_spec blocksize paddr) as [Hfull|Hroom].
    + assert (paddr = blocksize) as -> by lia.
      rewrite u64_small by lia.
      rewrite (s64_small (currentblock + blocksize)) by lia.
      rewrite Z.sub_diag. change (s64 0) with 0.
      unfold bind at 1. unfold bind at 1.
      rewrite ideal_checkedread by lia. cbn [dev log cells].
      unfold ret at 1. cbv beta iota.
      apply (Hstep (currentblock + blocksize) 0 _ _ _
               [EvClose 0; EvFsync 0;
                EvRead (currentblock + blocksize) blocksize
                  (Some (block d (currentblock + blocksize) blocksize));
                EvSeek (currentblock + blocksize) (currentblock + blocksize);
                EvOpen 3 0]).
      * lia.
      * lia.
      * apply Z.divide_0_r.
      * lia.
      * apply holds_block_stored.
      * reflexivity.
      * intros e He. cbn [In] in He.
        destruct He as [<-|[<-|[<-|[<-|[<-|[]]]]]]; reflexivity.
    + unfold bind at 1. unfold ret at 1. cbv beta iota.
      apply (Hstep currentblock paddr buffer p0 l []).
      * lia.
      * lia.
      * exact Hmult.
      * reflexivity.
      * exact Hholds.
      * reflexivity.
      * intros e [].
Qed.

End IdealPartitions.

(** On a device that stores faithfully, [partitions] yields the entries
    of the table on the device, those with equal numbers left out: the
    walk through the table one block of the device at a time reads entry
    [p] from the address [base + p * psize].  This needs entries that do
    not straddle blocks ([psize] divides [blocksize]) and that hold the two
    numbers ([psize] at least 48); the function only reads. *)
Theorem partitions_lists_the_table (d : disk) l blocksize buffer base pcount
    psize :
  0 < blocksize <= MAXBLOCKSIZE ->
  48 <= psize -> (psize | blocksize) ->
  0 <= base < 2 ^ 63 -> base + pcount * psize < 2 ^ 63 ->
  exists p l',
    partitions ideal blocksize buffer base pcount psize (World d l)
    = (Ret (table d blocksize base psize (Z.to_nat pcount)),
       World (Disk (cells d) p) (l' ++ l)) /\
    forall e, In e l' -> is_write e = false.
Proof.
  intros Hblocksize Hpsize Hdivides Hbase Hbound.
  unfold partitions. unfold bind at 1.
  rewrite ideal_checkedread by lia. cbn [dev log].
  destruct (ideal_partitions_loop d blocksize psize Hblocksize Hpsize Hdivides
              (Z.to_nat pcount) base 0
              (stored (block d base blocksize) buffer) [] (base + blocksize)
              (EvClose 0 :: EvFsync 0
                 :: EvRead base blocksize (Some (block d base blocksize))
                 :: EvSeek base base :: EvOpen 3 0 :: l)
              ltac:(lia) ltac:(lia) (Z.divide_0_r psize))
    as (p & l' & Hrun & Hl').
  { destruct (Z.le_gt_cases 0 pcount).
    - rewrite Z2Nat.id by lia. lia.
    - replace (Z.to_nat pcount) with 0%nat by lia. cbn. lia. }
  { apply holds_block_stored. exact Hblocksize. }
  exists p,
    (l' ++ [EvClose 0; EvFsync 0;
            EvRead base blocksize (Some (block d base blocksize));
            EvSeek base base; EvOpen 3 0]).
  split.
  - unfold bind. rewrite Hrun. unfold ret.
    rewrite Z.add_0_r, app_nil_r, rev_involutive, <- app_assoc. reflexivity.
  - intros e He. apply in_app_or in He. destruct He as [He|He];
      [exact (Hl' e He)|].
    cbn [In] in He. destruct He as [<-|[<-|[<-|[<-|[<-|[]]]]]]; reflexivity.
Qed.

Lemma partitions_lists_the_table_witness :
  exists p l',
    partitions ideal 512 zeros 1024 6 128 (World two_tone [])
    = (Ret (table two_tone 512 1024 128 (Z.to_nat 6)),
       World (Disk (cells two_tone) p) (l' ++ [])) /\
    forall e, In e l' -> is_write e = false.
Proof.
  apply (partitions_lists_the_table two_tone [] 512 zeros 1024 6 128).
  - unfold MAXBLOCKSIZE. lia.
  - lia.
  - exists 4. reflexivity.
  - lia.
  - lia.
Defined.

(** ** [human] *)

Lemma to_double_exact n : 0 < n < 2 ^ 53 -> to_double n = n.
Proof.
  intros H. unfold to_double.
  assert (Z.log2 n < 53) by (apply Z.log2_lt_pow2; lia).
  destruct (Z.leb_spec (Z.log2 n - 52) 0); [reflexivity|lia].
Qed.

Lemma to_double_near n :
  0 < n ->
  2 ^ Z.log2 n <= to_double n <= 2 ^ (Z.log2 n + 1) /\
  Z.abs (to_double n - n) * 2 ^ 53 <= n.
Proof.
  intros Hn. pose proof (Z.log2_spec n Hn) as Hlog.
  rewrite <- Z.add_1_r in Hlog.
  unfold to_double.
  destruct (Z.leb_spec (Z.log2 n - 52) 0) as [_|He].
  { rewrite Z.sub_diag. cbn [Z.abs]. lia. }
  set (e := Z.log2 n - 52) in *.
  assert (Hlog2 : Z.log2 n = e + 52) by (unfold e; lia).
  rewrite Hlog2 in *. clearbody e.
  assert (Hpow : 0 < 2 ^ e) by (apply Z.pow_pos_nonneg; lia).
  assert (Hhalf : 2 ^ e = 2 * 2 ^ (e - 1)).
  { rewrite <- Z.pow_succ_r by lia. f_equal. lia. }
  assert (Hlow : 2 ^ (e + 52) = 2 ^ 52 * 2 ^ e).
  { rewrite Z.pow_add_r by lia. lia. }
  assert (Hhigh : 2 ^ (e + 52 + 1) = 2 ^ 53 * 2 ^ e).
  { replace (e + 52 + 1) with (e + 53) by lia. rewrite Z.pow_add_r by lia. lia. }
  pose proof (Z.div_mod n (2 ^ e) ltac:(lia)) as Hdiv.
  pose proof (Z.mod_pos_bound n (2 ^ e) Hpow) as Hmod.
  set (q := n / 2 ^ e) in *. set (r := n mod 2 ^ e) in *.
  set (half := 2 ^ (e - 1)) in *. clearbody q r half.
  assert (Hq : 2 ^ 52 <= q < 2 ^ 53) by nia.
  cbv zeta.
  destruct (Z.ltb_spec r half) as [Hr|Hr].
  { split; [nia|]. replace (q * 2 ^ e - n) with (- r) by lia.
    rewrite Z.abs_opp, Z.abs_eq by lia. nia. }
  destruct (Z.ltb_spec half r) as [Hr'|Hr'].
  { split; [nia|]. replace ((q + 1) * 2 ^ e - n) with (2 ^ e - r) by lia.
    rewrite Z.abs_eq by lia. nia. }
  assert (r = half) as -> by lia.
  destruct (Z.even q).
  { split; [nia|]. replace (q * 2 ^ e - n) with (- half) by lia.
    rewrite Z.abs_opp, Z.abs_eq by lia. nia. }
  { split; [nia|]. replace ((q + 1) * 2 ^ e - n) with half by lia.
    rewrite Z.abs_eq by lia. nia. }
Qed.

Lemma human_loop_spec m : forall steps i,
  0 <= i ->
  i <= human_loop steps m i <= i + Z.of_nat steps /\
  (forall j, i <= j < human_loop steps m i -> j < 8 /\ 9999 * 1024 ^ j < m) /\
  (human_loop steps m i < i + Z.of_nat steps ->
   ~ (human_loop steps m i < 8 /\ 9999 * 1024 ^ human_loop steps m i < m)).
Proof.
  induction steps as [|steps IH]; intros i Hi.
  - cbn [human_loop]. split; [lia|]. split; [intros j Hj; lia|]. lia.
  - cbn [human_loop].
    destruct (Z.ltb_spec i 8) as [H8|H8]; cbn [andb].
    + destruct (Z.ltb_spec (9999 * 1024 ^ i) m) as [Hm|Hm].
      * destruct (IH (i + 1) ltac:(lia)) as (Hrange & Hbelow & Hstop).
        split; [lia|]. split.
        -- intros j Hj. destruct (Z.eq_dec j i) as [->|Hne];
             [split; assumption|apply Hbelow; lia].
        -- intros Hlt. apply Hstop. lia.
      * split; [lia|]. split; [intros j Hj; lia|]. intros _ [_ Hgo]. lia.
    + split; [lia|]. split; [intros j Hj; lia|]. intros _ [Hgo _]. lia.
Qed.

(** [human] on a size of five digits or more (below 2^64, the range of
    its argument): the loop stops after one to six divisions by 1024, so
    that the unit is one of Kibytes ... Xibytes, never an index beyond the
    table, and a name of at most seven characters; the value printed lies
    above 9999 / 1024 and is at most 9999, so it has at most four digits
    before the point, and it is printed with one decimal only below
    99.95, with four characters then as well: the text fits the buffer of
    [2+4+1+7+1] bytes.  The value is the size itself below 2^53 and within
    2^-53 of it in general. *)
Theorem human_scales (size : Z) :
  9999 < size < 2 ^ 64 ->
  exists r name,
    human size = Some r /\
    1 <= shift r <= 6 /\
    unit_name r = Some name /\
    names !! Z.to_nat (shift r) = Some name /\
    (String.length name <= 7)%nat /\
    9999 * 1024 ^ (shift r - 1) < numerator r <= 9999 * 1024 ^ shift r /\
    (size < 2 ^ 53 -> numerator r = size) /\
    Z.abs (numerator r - size) * 2 ^ 53 <= size /\
    (decimals r = 0 \/
     decimals r = 1 /\ 20 * numerator r < 1999 * 1024 ^ shift r).
Proof.
  intros Hsize. unfold human.
  destruct (Z.leb_spec size 9999) as [|_]; [lia|].
  destruct (to_double_near size ltac:(lia)) as [Hm Herr].
  assert (Hlog : Z.log2 size < 64) by (apply Z.log2_lt_pow2; lia).
  assert (Hhigh : to_double size <= 2 ^ 64).
  { transitivity (2 ^ (Z.log2 size + 1)); [apply Hm|].
    apply Z.pow_le_mono_r; lia. }
  assert (Hlow : 9999 < to_double size).
  { destruct (Z.lt_ge_cases size (2 ^ 53)) as [Hs|Hs].
    - rewrite to_double_exact by lia. lia.
    - assert (53 <= Z.log2 size) by (apply Z.log2_le_pow2; lia).
      assert (2 ^ 53 <= 2 ^ Z.log2 size) by (apply Z.pow_le_mono_r; lia).
      lia. }
  set (m := to_double size) in *.
  destruct (human_loop_spec m 9 0 ltac:(lia)) as (Hrange & Hbelow & Hstop).
  set (i := human_loop 9 m 0) in *. clearbody i.
  assert (Hi6 : i <= 6).
  { destruct (Z.le_gt_cases i 6) as [|Hbig]; [assumption|].
    destruct (Hbelow 6 ltac:(lia)) as [_ H6]. change (1024 ^ 6) with (2 ^ 60) in H6.
    lia. }
  assert (Hi1 : 1 <= i).
  { destruct (Z.le_gt_cases 1 i) as [|Hsmall]; [assumption|].
    assert (i = 0) as -> by lia. exfalso. apply Hstop; [lia|].
    change (1024 ^ 0) with 1. lia. }
  assert (Hupper : m <= 9999 * 1024 ^ i).
  { destruct (Z.le_gt_cases m (9999 * 1024 ^ i)) as [|Hgo]; [assumption|].
    exfalso. apply Hstop; lia. }
  assert (Hlower : 9999 * 1024 ^ (i - 1) < m) by (apply Hbelow; lia).
  assert (Hname : exists name, names !! Z.to_nat i = Some name /\
                               (String.length name <= 7)%nat).
  { assert (Hcases : i = 1 \/ i = 2 \/ i = 3 \/ i = 4 \/ i = 5 \/ i = 6) by lia.
    destruct Hcases as [->|[->|[->|[->|[->| ->]]]]];
      eexists; (split; [reflexivity|cbn; lia]). }
  destruct Hname as (name & Hname & Hlen).
  eexists. exists name. split; [reflexivity|]. cbn [shift unit_name numerator decimals].
  split; [lia|]. split; [exact Hname|]. split; [exact Hname|].
  split; [exact Hlen|]. split; [lia|]. split.
  { intros Hs. apply to_double_exact. lia. }
  split; [exact Herr|].
  destruct (Z.ltb_spec (3514918771674317 * 1024 ^ i) (m * 2 ^ 45)) as [Hbig|Hbig].
  - left. reflexivity.
  - right. split; [reflexivity|].
    assert (0 < 1024 ^ i) by (apply Z.pow_pos_nonneg; lia).
    change (2 ^ 45) with 35184372088832 in Hbig. lia.
Qed.

Lemma human_scales_witness :
  exists r name,
    human 1048576 = Some r /\
    1 <= shift r <= 6 /\
    unit_name r = Some name /\
    names !! Z.to_nat (shift r) = Some name /\
    (String.length name <= 7)%nat /\
    9999 * 1024 ^ (shift r - 1) < numerator r <= 9999 * 1024 ^ shift r /\
    (1048576 < 2 ^ 53 -> numerator r = 1048576) /\
    Z.abs (numerator r - 1048576) * 2 ^ 53 <= 1048576 /\
    (decimals r = 0 \/
     decimals r = 1 /\ 20 * numerator r < 1999 * 1024 ^ shift r).
Proof.
  apply (human_scales 1048576). lia.
Defined.

(** ** The ways [main] ends *)

Section EndsWell.
Context {D : Type} (dv : device D).

Lemma ends_well_ret {S A} (a : A) : ends_well (ret (S:=S) a).
Proof. intros s. exact I. Qed.

Lemma ends_well_bind {S A B} (m : M S A) (f : A -> M S B) :
  ends_well m -> (forall a, ends_well (f a)) -> ends_well (bind m f).
Proof.
  intros Hm Hf s. specialize (Hm s). unfold bind.
  destruct (m s) as [[a| | |] s1]; cbn [fst] in *; auto.
  apply Hf.
Qed.

Lemma ends_well_checkedread address buf size :
  ends_well (checkedread dv address buf size).
Proof.
  intros w. pose proof (checkedread_cases dv address buf size w) as H.
  destruct (checkedread dv address buf size w) as [[b|st si| |] w'];
    cbn [fst]; try exact I; try contradiction. apply H.
Qed.

Lemma ends_well_checkedwrite address buf size :
  ends_well (checkedwrite dv address buf size).
Proof.
  intros w. pose proof (checkedwrite_cases dv address buf size w) as H.
  destruct (checkedwrite dv address buf size w) as [[b|st si| |] w'];
    cbn [fst]; try exact I; try contradiction. apply H.
Qed.

Lemma ends_well_readbacktest_counts blocksize fr address modulo i :
  0 < modulo ->
  ends_well (readbacktest_counts dv blocksize fr address modulo i).
Proof.
  intros Hmodulo. unfold readbacktest_counts.
  destruct (Z.eqb_spec modulo 0) as [|_]; [lia|].
  destruct (Z.eqb_spec modulo (-1)) as [|_]; [lia|].
  rewrite andb_false_r. cbn [orb].
  apply ends_well_bind; [apply ends_well_checkedread|]. intros prev.
  apply ends_well_bind; [apply ends_well_checkedread|]. intros orig.
  apply ends_well_bind; [apply ends_well_checkedwrite|]. intros _.
  apply ends_well_bind; [apply ends_well_checkedread|]. intros back.
  apply ends_well_bind; [apply ends_well_checkedwrite|]. intros _.
  apply ends_well_bind; [apply ends_well_checkedread|]. intros again.
  apply ends_well_bind; [|intros _; apply ends_well_ret].
  destruct (negb _); [apply ends_well_checkedwrite|apply ends_well_ret].
Qed.

Lemma ends_well_readbacktest blocksize fr address modulo i :
  0 < modulo ->
  ends_well (readbacktest dv blocksize fr address modulo i).
Proof.
  intros Hmodulo.
  unfold readbacktest. apply ends_well_bind.
  - apply ends_well_readbacktest_counts. exact Hmodulo.
  - intros [mismatch corruption].
    destruct (_ || _); [intros w; reflexivity|apply ends_well_ret].
Qed.

Lemma ends_well_run_calls {S} (probe : Z -> Z -> Z -> M S unit) l :
  (forall a m i, 0 < m -> ends_well (probe a m i)) ->
  Forall (fun c => 0 < c_modulo c) l ->
  ends_well (run_calls probe l).
Proof.
  intros Hp Hl. induction Hl as [|c l Hc Hl IH]; cbn [run_calls].
  - apply ends_well_ret.
  - apply ends_well_bind; [apply Hp; exact Hc|]. intros _. exact IH.
Qed.

Lemma ends_well_find_gpt_header fuel buffer :
  (5 <= fuel)%nat -> ends_well (find_gpt_header dv fuel MINBLOCKSIZE buffer).
Proof.
  intros Hfuel w.
  pose proof (find_gpt_header_cases dv fuel 0 buffer w ltac:(lia) ltac:(lia)) as H.
  change (512 * pow2 0) with MINBLOCKSIZE in H.
  destruct (find_gpt_header dv fuel MINBLOCKSIZE buffer w)
    as [[[size b]|st si| |] w']; cbn [fst]; try exact I; try contradiction.
  exact H.
Qed.

Lemma ends_well_overruns {S A} (m : M S A) : ends_well m -> ends_or_overruns m.
Proof.
  intros H s. specialize (H s).
  destruct (fst (m s)); try exact I; try contradiction. exact H.
Qed.

Lemma ends_or_overruns_bind {S A B} (m : M S A) (f : A -> M S B) :
  ends_or_overruns m -> (forall a, ends_or_overruns (f a)) ->
  ends_or_overruns (bind m f).
Proof.
  intros Hm Hf s. specialize (Hm s). unfold bind.
  destruct (m s) as [[a| | |] s1]; cbn [fst] in *; auto.
  apply Hf.
Qed.

Lemma ends_or_overruns_partitions_loop blocksize count :
  forall currentblock paddr psize buffer printed,
    ends_or_overruns (partitions_loop dv blocksize count currentblock paddr
                        psize buffer printed).
Proof.
  induction count as [|count IH]; intros currentblock paddr psize buffer printed;
    cbn [partitions_loop].
  - apply ends_well_overruns, ends_well_ret.
  - apply ends_or_overruns_bind.
    + apply ends_well_overruns.
      destruct (blocksize <=? u64 paddr); [|apply ends_well_ret].
      apply ends_well_bind; [apply ends_well_checkedread|]. intros b.
      apply ends_well_ret.
    + intros [[cb pa] bf].
      destruct ((pa <? 0) || _); [intros s; exact I|apply IH].
Qed.

Lemma ends_or_overruns_partitions blocksize buffer base pcount psize :
  ends_or_overruns (partitions dv blocksize buffer base pcount psize).
Proof.
  unfold partitions.
  apply ends_or_overruns_bind;
    [apply ends_well_overruns, ends_well_checkedread|]. intros b.
  apply ends_or_overruns_bind; [apply ends_or_overruns_partitions_loop|].
  intros printed. apply ends_well_overruns, ends_well_ret.
Qed.

Lemma ends_or_overruns_inspect main_buffer partitions_buffer fuel blocksize :
  (5 <= fuel)%nat ->
  ends_or_overruns (inspect dv main_buffer partitions_buffer fuel blocksize).
Proof.
  intros Hfuel. unfold inspect.
  apply ends_or_overruns_bind;
    [apply ends_well_overruns, ends_well_checkedread|]. intros buffer.
  destruct (at_index buffer 450 =? 238);
    [|apply ends_well_overruns, ends_well_ret].
  unfold gpt.
  apply ends_or_overruns_bind;
    [apply ends_well_overruns, ends_well_find_gpt_header; exact Hfuel|].
  intros [size b].
  destruct (MAXBLOCKSIZE <? size); [apply ends_well_overruns, ends_well_ret|].
  apply ends_or_overruns_bind;
    [apply ends_well_overruns, ends_well_checkedread|]. intros b1.
  apply ends_or_overruns_bind; [apply ends_or_overruns_partitions|]. intros _.
  apply ends_or_overruns_bind;
    [apply ends_well_overruns, ends_well_checkedread|]. intros b2.
  destruct (negb _); [apply ends_well_overruns, ends_well_ret|].
  apply ends_or_overruns_bind;
    [apply ends_well_overruns, ends_well_checkedread|]. intros b3.
  apply ends_or_overruns_bind; [apply ends_or_overruns_partitions|]. intros _.
  apply ends_well_overruns, ends_well_ret.
Qed.

Lemma schedule_moduli T fuel :
  0 <= T < 2 ^ 62 -> (64 <= fuel)%nat ->
  exists l : list call,
    Forall (fun c => 0 < c_modulo c) l /\
    forall S (probe : Z -> Z -> Z -> M S unit) (s : S),
      size_test probe T fuel s
      = bind (run_calls probe l) (fun _ => exit 0 Finished) s.
Proof.
  intros HT Hfuel.
  destruct (size_test_calls T fuel HT Hfuel)
    as (n & l2 & Hn & _ & _ & Hmod & _ & _ & Heq).
  assert (Hhalf : forall j, 0 < MiB * pow2 j / 2).
  { intros j. assert (Hp := pow2_pos j). change MiB with (2 * 524288).
    rewrite <- Z.mul_assoc, Z.mul_comm, Z.div_mul by lia. lia. }
  exists (doubling 0 n ++ l2). split; [|exact Heq].
  apply Forall_app. split.
  - apply doubling_Forall. intros j _. cbn [c_modulo]. apply Hhalf.
  - eapply Forall_impl; [exact Hmod|]. cbn beta. intros c Hc. rewrite Hc.
    apply Hhalf.
Qed.

Lemma run_size_test_ends blocksize junk T fuel (w : world D) :
  0 <= T < 2 ^ 62 -> (64 <= fuel)%nat ->
  match fst (run_size_test dv blocksize junk T fuel w) with
  | Exit status site => status = 0 /\ site = Finished \/ status = -1
  | _ => False
  end.
Proof.
  intros HT Hfuel.
  destruct (schedule_moduli T fuel HT Hfuel) as (l & Hmod & Heq).
  unfold run_size_test. rewrite Heq. unfold bind.
  pose proof (ends_well_run_calls
                (fun address modulo i =>
                   readbacktest dv blocksize (junk i) address modulo i)
                l
                (fun a m i Hm =>
                   ends_well_readbacktest blocksize (junk i) a m i Hm)
                Hmod w) as Hwell.
  destruct (run_calls _ l w) as [[[]|st si| |] w1];
    cbn [fst] in *; try contradiction.
  - left. split; reflexivity.
  - right. exact Hwell.
Qed.

End EndsWell.

Lemma run_calls_all_passed {D} (dv : device D) blocksize junk l :
  forall w w' : world D,
    run_calls (fun address modulo i =>
                 readbacktest dv blocksize (junk i) address modulo i) l w
    = (Ret tt, w') ->
    all_passed dv blocksize junk l w w'.
Proof.
  induction l as [|c l IH]; intros w w'; cbn [run_calls all_passed].
  - unfold ret. intros [= <-]. reflexivity.
  - intros H. apply bind_Ret_inv in H. destruct H as ([] & w1 & Hprobe & Hrest).
    exists w1. split; [|apply IH; exact Hrest].
    unfold readbacktest in Hprobe. apply bind_Ret_inv in Hprobe.
    destruct Hprobe as ([mm cc] & w2 & Hcounts & Hfinal).
    destruct (Z.eqb_spec mm 0) as [->|]; [|discriminate].
    destruct (Z.eqb_spec cc 0) as [->|]; [|discriminate].
    cbn [negb orb] in Hfinal. unfold ret in Hfinal. injection Hfinal as <-.
    exact Hcounts.
Qed.

(** The size test (for a device below 2^62 bytes) ends with [exit(-1)] or
    with [exit(0)], and with the latter only from the last line of [main]:
    every call of the schedule was then made and got through its transfers
    with both counters at zero.  Such a probe has made six transfers: the
    read of the shadow block, the read of the probed block, the write of
    the pattern to it, the read back, the write that restores it, and the
    second read of the shadow block. *)
Theorem exit_zero_means_every_probe_passed D (dv : device D) blocksize junk
    T fuel (w : world D) :
  0 <= blocksize <= MAXBLOCKSIZE -> (forall i, frame_ok (junk i)) ->
  0 <= T < 2 ^ 62 -> (64 <= fuel)%nat ->
  match run_size_test dv blocksize junk T fuel w with
  | (Exit status site, w') =>
      status = -1 \/
      status = 0 /\ site = Finished /\
      exists l : list call,
        schedule T fuel = (Exit 0 Finished, l) /\
        all_passed dv blocksize junk l w w' /\
        length (transfers (history w'))
        = (length (transfers (history w)) + 6 * length l)%nat
  | _ => False
  end /\
  forall fr address modulo i (w0 w1 : world D),
    readbacktest_counts dv blocksize fr address modulo i w0
    = (Ret (0, 0), w1) ->
    exists prev orig back again : list Z,
      transfers (history w1)
      = transfers (history w0) ++
        [EvRead (shadow_address blocksize address modulo) blocksize (Some prev);
         EvRead (probed_address blocksize address) blocksize (Some orig);
         EvWrite (probed_address blocksize address) blocksize
           (take (Z.to_nat blocksize) (fill_pattern blocksize i (writedata0 fr)))
           blocksize;
         EvRead (probed_address blocksize address) blocksize (Some back);
         EvWrite (probed_address blocksize address) blocksize orig blocksize;
         EvRead (shadow_address blocksize address modulo) blocksize
           (Some again)].
Proof.
  intros _ _ HT Hfuel. split.
  - destruct (schedule_moduli T fuel HT Hfuel) as (l & Hmod & Heq).
    unfold run_size_test. rewrite Heq. unfold bind.
    pose proof (ends_well_run_calls
                  (fun address modulo i =>
                     readbacktest dv blocksize (junk i) address modulo i)
                  l
                  (fun a m i Hm =>
                     ends_well_readbacktest dv blocksize (junk i) a m i Hm)
                  Hmod w) as Hwell.
    destruct (run_calls _ l w) as [[[]|st si| |] w1] eqn:Hcalls;
      cbn [fst] in Hwell; try contradiction.
    + unfold exit. right. split; [reflexivity|]. split; [reflexivity|].
      exists l. split; [|split].
      * unfold schedule. rewrite Heq. unfold bind. rewrite run_calls_record.
        reflexivity.
      * apply run_calls_all_passed. exact Hcalls.
      * exact (run_calls_ret_transfers dv blocksize junk _ _ _ Hcalls).
    + left. exact Hwell.
  - intros fr address modulo i w0 w1 Hcounts.
    apply readbacktest_counts_ret in Hcounts.
    destruct Hcounts
      as (prev & orig & back & again & _ & _ & _ & _ & _ & _ & _ & Hlog).
    exists prev, orig, back, again. rewrite Hlog.
    change (0 =? 0) with true. cbv iota. rewrite app_nil_r. reflexivity.
Qed.

Lemma exit_zero_means_every_probe_passed_witness :
  match run_size_test ideal 512 (fun _ => clean_frame) (5 * MiB) 64
          (World two_tone []) return Prop with
  | (Exit status site, w') =>
      status = -1 \/
      status = 0 /\ site = Finished /\
      exists l : list call,
        schedule (5 * MiB) 64 = (Exit 0 Finished, l) /\
        all_passed ideal 512 (fun _ => clean_frame) l (World two_tone []) w' /\
        length (transfers (history w'))
        = (length (transfers (history (World two_tone []))) + 6 * length l)%nat
  | _ => False
  end /\
  forall fr address modulo i (w0 w1 : world disk),
    readbacktest_counts ideal 512 fr address modulo i w0 = (Ret (0, 0), w1) ->
    exists prev orig back again : list Z,
      transfers (history w1)
      = transfers (history w0) ++
        [EvRead (shadow_address 512 address modulo) 512 (Some prev);
         EvRead (probed_address 512 address) 512 (Some orig);
         EvWrite (probed_address 512 address) 512
           (take (Z.to_nat 512) (fill_pattern 512 i (writedata0 fr))) 512;
         EvRead (probed_address 512 address) 512 (Some back);
         EvWrite (probed_address 512 address) 512 orig 512;
         EvRead (shadow_address 512 address modulo) 512 (Some again)].
Proof.
  apply (exit_zero_means_every_probe_passed disk ideal 512 (fun _ => clean_frame)
           (5 * MiB) 64 (World two_tone [])).
  - unfold MAXBLOCKSIZE. lia.
  - intros i. unfold frame_ok, array_ok. vm_compute. auto.
  - unfold MiB. lia.
  - lia.
Defined.

Lemma scan_mounts_cases filename : forall chunks skipping at_eof,
  match scan_mounts filename skipping chunks at_eof with
  | None => at_eof = true
  | Some e =>
      e = Stopped 0 IsMounted /\
      (exists chunk, In chunk chunks /\ String.prefix filename chunk = true) \/
      e = Stopped (-1) MountsNotRead
  end.
Proof.
  induction chunks as [|chunk chunks IH]; intros skipping at_eof;
    cbn [scan_mounts].
  - destruct at_eof; [reflexivity|right; reflexivity].
  - assert (Hrest : forall skipping',
              match scan_mounts filename skipping' chunks at_eof with
              | None => at_eof = true
              | Some e =>
                  e = Stopped 0 IsMounted /\
                  (exists chunk', In chunk' (chunk :: chunks) /\
                                  String.prefix filename chunk' = true) \/
                  e = Stopped (-1) MountsNotRead
              end).
    { intros skipping'. specialize (IH skipping' at_eof).
      destruct (scan_mounts filename skipping' chunks at_eof) as [e|];
        [|exact IH].
      destruct IH as [(He & chunk' & Hin & Hp)|He]; [left|right; exact He].
      split; [exact He|]. exists chunk'. split; [right; exact Hin|exact Hp]. }
    destruct skipping; [apply Hrest|].
    destruct (String.prefix filename chunk) eqn:Hprefix; [|apply Hrest].
    left. split; [reflexivity|]. exists chunk. split; [left; reflexivity|exact Hprefix].
Qed.

(** When no line of [/proc/mounts] is longer than the buffer, every
    string that [fgets] returns is a line and each one is compared. *)
Lemma scan_mounts_lines filename at_eof : forall chunks,
  Forall (fun chunk => ends_line chunk = true) chunks ->
  scan_mounts filename false chunks at_eof
  = if existsb (String.prefix filename) chunks then Some (Stopped 0 IsMounted)
    else if at_eof then None else Some (Stopped (-1) MountsNotRead).
Proof.
  induction chunks as [|chunk chunks IH]; intros Hlines; cbn [scan_mounts existsb].
  - reflexivity.
  - inversion Hlines as [|? ? Hchunk Hrest]; subst.
    destruct (String.prefix filename chunk); cbn [orb]; [reflexivity|].
    rewrite Hchunk. cbn [negb]. apply IH. exact Hrest.
Qed.

Lemma confirm_cases a :
  match confirm a with
  | inl e =>
      e = Stopped 0 NotATerminal /\ is_tty a = false \/
      e = Stopped (-1) StdinNotRead
  | inr true => says_yes a
  | inr false => says_no a
  end.
Proof.
  unfold confirm, says_yes, says_no.
  destruct (is_tty a); cbn [negb]; [|left; split; reflexivity].
  destruct (line a) as [[|c rest]|]; [| |right; reflexivity].
  - split; [reflexivity|]. eexists. split; [reflexivity|]. intros rest. discriminate.
  - destruct (Ascii.eqb_spec c char_Y) as [->|Hne].
    + split; [reflexivity|]. exists rest. reflexivity.
    + split; [reflexivity|]. eexists. split; [reflexivity|].
      intros rest' [= Hc _]. contradiction.
Qed.

Lemma gate_cases env :
  match gate env with
  | Some e =>
      e = Stopped 0 IsMounted /\ is_mounted env \/
      e = Stopped 0 NotATerminal /\
      (is_tty (first_answer env) = false \/ is_tty (second_answer env) = false) \/
      e = Stopped 0 Declined /\
      (says_no (first_answer env) \/ says_no (second_answer env)) \/
      e = Stopped (-1) MountsNotOpened \/ e = Stopped (-1) MountsNotRead \/
      e = Stopped (-1) StdinNotRead
  | None => says_yes (first_answer env) /\ says_yes (second_answer env)
  end.
Proof.
  unfold gate. destruct (mounts env) as [[chunks at_eof]|] eqn:Hmounts; [|auto 6].
  pose proof (scan_mounts_cases (filename env) chunks false at_eof) as Hscan.
  destruct (scan_mounts (filename env) false chunks at_eof) as [e|].
  { destruct Hscan as [(-> & chunk & Hin & Hp)| ->]; [left|auto 6].
    split; [reflexivity|]. exists chunks, at_eof, chunk. auto. }
  pose proof (confirm_cases (first_answer env)) as Hfirst.
  destruct (confirm (first_answer env)) as [e|[|]].
  { destruct Hfirst as [[-> Htty]| ->]; auto 7. }
  2: { auto 7. }
  pose proof (confirm_cases (second_answer env)) as Hsecond.
  destruct (confirm (second_answer env)) as [e|[|]].
  { destruct Hsecond as [[-> Htty]| ->]; auto 7. }
  - split; assumption.
  - auto 7.
Qed.

Lemma front_cases env :
  match front env with
  | inl e =>
      euid env <> 0 /\ e = Stopped EPERM NotRoot \/
      euid env = 0 /\
      (e = Stopped (-1) BadUsage \/ e = Stopped (-1) NotADevicePath \/
       (exists site, e = Stopped (-1) (DeviceOpenFailed site)) \/
       e = Stopped (-1) NotABlockDevice \/ e = Stopped (-1) IoctlFailed \/
       e = Stopped (-1) DeviceCloseFailed)
  | inr _ => euid env = 0
  end.
Proof.
  unfold front.
  destruct (Z.eqb_spec (euid env) 0) as [Hroot|Hroot]; cbn [negb];
    [|left; split; [exact Hroot|reflexivity]].
  destruct (negb (Z.of_nat (length (argv env)) =? 2)); [auto 8|].
  destruct (negb (String.prefix "/dev/" (filename env))); [auto 8|].
  destruct (first_open env) as [fd errno].
  destruct (fd <? 0); [right; split; [exact Hroot|]; eauto 8|].
  destruct (size_ioctl env) as [[res e1] totalsize].
  destruct (res <? 0).
  { right. split; [exact Hroot|]. unfold ioctl_failure.
    destruct (_ || _); auto 8. }
  destruct (sector_ioctl env) as [[res2 e2] blocksize].
  destruct (res2 <? 0).
  { right. split; [exact Hroot|]. unfold ioctl_failure.
    destruct (_ || _); auto 8. }
  destruct (negb (first_close env =? 0)); [auto 9|exact Hroot].
Qed.

(** The exit status of the program, for a device below 2^62 bytes and a
    run in which the look at the partitioning stays inside the arrays and
    leaves a block size that they hold.  [main] ends with a call of [exit]:
    the loops of the size test end within 64 iterations each and no probe
    is called with a modulus of zero.  The status is [EPERM] exactly when
    the user is not root; it is 0 when a line of [/proc/mounts] begins with
    the file name, when standard input is no terminal at one of the two
    questions, when one of them is answered with a line that does not
    begin with Y, and when, both being answered with Y, the size test
    has come to the last line of [main]; it is -1 in every other case. *)
Theorem exit_status_of_main D (dv : device D) env main_buffer
    partitions_buffer junk fuel (w : world D) :
  (64 <= fuel)%nat ->
  array_ok main_buffer -> array_ok partitions_buffer ->
  (forall i, frame_ok (junk i)) ->
  (forall totalsize blocksize,
      front env = inr (totalsize, blocksize) ->
      0 <= totalsize < 2 ^ 62 /\
      match fst (inspect dv main_buffer partitions_buffer fuel blocksize w) with
      | Ret blocksize' => 0 <= blocksize' <= MAXBLOCKSIZE
      | Fault => False
      | _ => True
      end) ->
  (euid env <> 0 <->
   fst (main dv env main_buffer partitions_buffer junk fuel w)
   = Stopped EPERM NotRoot) /\
  match fst (main dv env main_buffer partitions_buffer junk fuel w) with
  | Stopped status why =>
      match why with
      | NotRoot => status = EPERM /\ euid env <> 0
      | IsMounted => status = 0 /\ euid env = 0 /\ is_mounted env
      | NotATerminal =>
          status = 0 /\ euid env = 0 /\
          (is_tty (first_answer env) = false \/
           is_tty (second_answer env) = false)
      | Declined =>
          status = 0 /\ euid env = 0 /\
          (says_no (first_answer env) \/ says_no (second_answer env))
      | _ => status = -1 /\ euid env = 0
      end
  | Through (Exit status site) =>
      euid env = 0 /\
      (status = 0 /\ site = Finished /\
       says_yes (first_answer env) /\ says_yes (second_answer env) \/
       status = -1)
  | Through _ => False
  end.
Proof.
  intros Hfuel _ _ _ Hscope.
  assert (Hmain :
    match fst (main dv env main_buffer partitions_buffer junk fuel w) with
    | Stopped status why =>
        match why with
        | NotRoot => status = EPERM /\ euid env <> 0
        | IsMounted => status = 0 /\ euid env = 0 /\ is_mounted env
        | NotATerminal =>
            status = 0 /\ euid env = 0 /\
            (is_tty (first_answer env) = false \/
             is_tty (second_answer env) = false)
        | Declined =>
            status = 0 /\ euid env = 0 /\
            (says_no (first_answer env) \/ says_no (second_answer env))
        | _ => status = -1 /\ euid env = 0
        end
    | Through (Exit status site) =>
        euid env = 0 /\
        (status = 0 /\ site = Finished /\
         says_yes (first_answer env) /\ says_yes (second_answer env) \/
         status = -1)
    | Through _ => False
    end).
  { unfold main.
    pose proof (front_cases env) as Hfront.
    destruct (front env) as [e|[totalsize blocksize]]; cbn [fst].
    { destruct Hfront as [[Hroot ->]|[Hroot Hwhy]]; [split; [reflexivity|exact Hroot]|].
      destruct Hwhy as [->|[->|[[site ->]|[->|[->| ->]]]]];
        (split; [reflexivity|exact Hroot]). }
    destruct (Hscope totalsize blocksize eq_refl) as [Hsize Hinside].
    pose proof (ends_or_overruns_inspect dv main_buffer partitions_buffer fuel
                  blocksize ltac:(lia) w) as Hinspect.
    destruct (inspect dv main_buffer partitions_buffer fuel blocksize w)
      as [[blocksize'|st si| |] w1]; cbn [fst] in *; try contradiction.
    2: { split; [exact Hfront|]. right. exact Hinspect. }
    pose proof (gate_cases env) as Hgate.
    destruct (gate env) as [e|]; cbn [fst].
    { destruct Hgate as [[-> Hm]|[[-> Ht]|[[-> Hd]|[->|[->| ->]]]]]; auto. }
    pose proof (run_size_test_ends dv blocksize' junk totalsize fuel w1 Hsize
                  Hfuel) as Hrun.
    destruct (run_size_test dv blocksize' junk totalsize fuel w1) as [r w2].
    cbn [fst] in *. destruct r as [[]|st si| |]; try contradiction.
    split; [exact Hfront|].
    destruct Hrun as [[-> ->]| ->]; [left|right; reflexivity].
    split; [reflexivity|]. split; [reflexivity|]. exact Hgate. }
  split; [|exact Hmain].
  split.
  - intros Hroot. unfold main, front.
    destruct (Z.eqb_spec (euid env) 0) as [|_]; [contradiction|]. reflexivity.
  - intros Hout. rewrite Hout in Hmain. apply Hmain.
Qed.

Lemma exit_status_of_main_witness :
  (euid willing <> 0 <->
   fst (main ideal willing zeros zeros (fun _ => clean_frame) 64
          (World two_tone []))
   = Stopped EPERM NotRoot) /\
  match fst (main ideal willing zeros zeros (fun _ => clean_frame) 64
               (World two_tone [])) return Prop with
  | Stopped status why =>
      match why with
      | NotRoot => status = EPERM /\ euid willing <> 0
      | IsMounted => status = 0 /\ euid willing = 0 /\ is_mounted willing
      | NotATerminal =>
          status = 0 /\ euid willing = 0 /\
          (is_tty (first_answer willing) = false \/
           is_tty (second_answer willing) = false)
      | Declined =>
          status = 0 /\ euid willing = 0 /\
          (says_no (first_answer willing) \/ says_no (second_answer willing))
      | _ => status = -1 /\ euid willing = 0
      end
  | Through (Exit status site) =>
      euid willing = 0 /\
      (status = 0 /\ site = Finished /\
       says_yes (first_answer willing) /\ says_yes (second_answer willing) \/
       status = -1)
  | Through _ => False
  end.
Proof.
  apply exit_status_of_main.
  - lia.
  - reflexivity.
  - reflexivity.
  - intros i. unfold frame_ok, array_ok. vm_compute. auto.
  - intros totalsize blocksize H. vm_compute in H. injection H as <- <-.
    split; [lia|].
    replace (fst (inspect ideal zeros zeros 64 512 (World two_tone [])))
      with (Ret (A:=Z) 512) by (vm_compute; reflexivity).
    unfold MAXBLOCKSIZE. lia.
Defined.

(** A device of which a partition is mounted is left alone: when some
    line of [/proc/mounts] begins with the file name (no line being longer
    than the buffer), then [main] has only read from the device, and it
    ends with the [exit(0)] of line 399 unless a transaction of the
    look at the partitioning before has failed.  This is for a run in
    which that look stays inside the arrays. *)
Theorem mounted_device_is_refused D (dv : device D) env main_buffer
    partitions_buffer junk fuel (w : world D) totalsize blocksize chunks at_eof :
  (5 <= fuel)%nat ->
  array_ok main_buffer -> array_ok partitions_buffer ->
  front env = inr (totalsize, blocksize) ->
  fst (inspect dv main_buffer partitions_buffer fuel blocksize w) <> Fault ->
  mounts env = Some (chunks, at_eof) ->
  Forall (fun chunk => ends_line chunk = true) chunks ->
  Exists (fun chunk => String.prefix (filename env) chunk = true) chunks ->
  match main dv env main_buffer partitions_buffer junk fuel w with
  | (Stopped status why, w') =>
      status = 0 /\ why = IsMounted /\
      exists new, log w' = new ++ log w /\
                  forall e, In e new -> is_write e = false
  | (Through (Exit status site), w') =>
      status = -1 /\
      exists new, log w' = new ++ log w /\
                  forall e, In e new -> is_write e = false
  | _ => False
  end.
Proof.
  intros Hfuel _ _ Hfront Hinside Hmounts Hlines Hsome. unfold main.
  rewrite Hfront.
  pose proof (ends_or_overruns_inspect dv main_buffer partitions_buffer fuel
                blocksize Hfuel w) as Hinspect.
  pose proof (writes_nothing_inspect dv main_buffer partitions_buffer fuel
                blocksize w) as Hreads.
  destruct (inspect dv main_buffer partitions_buffer fuel blocksize w)
    as [[blocksize'|st si| |] w1]; cbn [fst snd] in *; try contradiction.
  2: { split; [exact Hinspect|exact Hreads]. }
  unfold gate. rewrite Hmounts. rewrite scan_mounts_lines by exact Hlines.
  assert (Hfound : existsb (String.prefix (filename env)) chunks = true).
  { apply existsb_exists. apply Exists_exists in Hsome.
    destruct Hsome as (chunk & Hin & Hprefix). exists chunk.
    split; [apply list_elem_of_In; exact Hin|exact Hprefix]. }
  rewrite Hfound. split; [reflexivity|]. split; [reflexivity|exact Hreads].
Qed.

Lemma mounted_device_is_refused_witness :
  match main ideal mounted zeros zeros (fun _ => clean_frame) 64
          (World plain []) return Prop with
  | (Stopped status why, w') =>
      status = 0 /\ why = IsMounted /\
      exists new, log w' = new ++ log (World plain []) /\
                  forall e, In e new -> is_write e = false
  | (Through (Exit status site), w') =>
      status = -1 /\
      exists new, log w' = new ++ log (World plain []) /\
                  forall e, In e new -> is_write e = false
  | _ => False
  end.
Proof.
  apply (mounted_device_is_refused disk ideal mounted zeros zeros
           (fun _ => clean_frame) 64 (World plain []) 1048576 512
           (match mounts mounted with Some (chunks, _) => chunks | None => [] end)
           true).
  - lia.
  - reflexivity.
  - reflexivity.
  - reflexivity.
  - replace (fst (inspect ideal zeros zeros 64 512 (World plain [])))
      with (Ret (A:=Z) 512) by (vm_compute; reflexivity).
    discriminate.
  - reflexivity.
  - repeat constructor.
  - apply Exists_cons_tl. apply Exists_cons_hd. reflexivity.
Defined.
